(** * pat-project: the scoring and resolution engine of [db.py]

    A shallow embedding of [db.py], of the ticker maps and the paging loop of
    [kalshi.py] and of the validation, the status labels and the pick
    breakdown of [app.py], followed by the properties proved of them.

    - Python [str] values are lists of Unicode code points.
    - The SQLite file is a record of three tables, each a list of rows in
      rowid order together with its AUTOINCREMENT counter; every function
      that opens a connection takes the database and returns the new one.
    - SQL expressions are evaluated in SQL's three-valued logic, [None]
      standing for NULL.
    - [yes_price] is a REAL column: an IEEE 754 binary64, compared with the
      binary64 nearest to the literals [0.99] and [0.01]. *)

From Stdlib Require Import ZArith NArith List Bool Ascii String Lia.
From Stdlib Require Import Permutation Sorted.
From Stdlib Require Import Floats.
Import ListNotations.

Set Warnings "-inexact-float".
Local Open Scope Z_scope.

(* ------------------------------------------------------------------------ *)
(** * Python strings *)

(** A [str] is its sequence of code points. *)
Definition str := list N.

(** The literal [s] as a [str] (the literals of the source are ASCII). *)
Definition u (s : string) : str := map N_of_ascii (list_ascii_of_string s).

Fixpoint str_eqb (a b : str) : bool :=
  match a, b with
  | [], [] => true
  | x :: a', y :: b' => N.eqb x y && str_eqb a' b'
  | _, _ => false
  end.

(** Code point order on [str]: what [sorted] uses on a list of strings, and
    SQLite's BINARY collation on their UTF-8 encodings. *)
Fixpoint str_ltb (a b : str) : bool :=
  match a, b with
  | _, [] => false
  | [], _ :: _ => true
  | x :: a', y :: b' => N.ltb x y || (N.eqb x y && str_ltb a' b')
  end.

Definition str_leb (a b : str) : bool := negb (str_ltb b a).

(** [str.isspace] of one character, which is also the class [\s] of [re] on
    [str] patterns. *)
Definition whitespace : list N :=
  [9; 10; 11; 12; 13; 28; 29; 30; 31; 32; 133; 160; 5760;
   8192; 8193; 8194; 8195; 8196; 8197; 8198; 8199; 8200; 8201; 8202;
   8232; 8233; 8239; 8287; 12288]%N.

Definition isspace (c : N) : bool := existsb (N.eqb c) whitespace.

(** The class [\d] of [re] on [str] patterns: the decimal digits of Unicode
    (general category Nd, Unicode 14), which come in runs of ten; the list
    holds the zero of each run. *)
Definition decimal_zeros : list N :=
  [48; 1632; 1776; 1984; 2406; 2534; 2662; 2790; 2918; 3046; 3174; 3302;
   3430; 3558; 3664; 3792; 3872; 4160; 4240; 6112; 6160; 6470; 6608; 6784;
   6800; 6992; 7088; 7232; 7248; 42528; 43216; 43264; 43472; 43504; 43600;
   44016; 65296; 66720; 68912; 69734; 69872; 69942; 70096; 70384; 70736;
   70864; 71248; 71360; 71472; 71904; 72016; 72784; 73040; 73120; 92768;
   92864; 93008; 120782; 120792; 120802; 120812; 120822; 123200; 123632;
   125264; 130032]%N.

Definition isdecimal (c : N) : bool :=
  existsb (fun z => N.leb z c && N.ltb c (z + 10)%N) decimal_zeros.

(** [str.lower] of one character, as far as the comparisons made with it in
    [db.py] can tell: the results are only searched for the ASCII words
    [pick], [name] and [time] and compared with [nan], and the only code
    points whose lower case holds an ASCII character are the ASCII ones, the
    Kelvin sign (to [k]) and the dotted capital I (to [i] and a combining
    dot). Every other code point lowers to a non-ASCII character and is left
    as it is here. *)
Definition lower_char (c : N) : list N :=
  (if N.leb 65 c && N.leb c 90 then [c + 32]
   else if N.eqb c 8490 then [107]
   else if N.eqb c 304 then [105; 775]
   else [c])%N.

Definition lower (s : str) : str := flat_map lower_char s.

Fixpoint lstrip (s : str) : str :=
  match s with
  | c :: s' => if isspace c then lstrip s' else s
  | [] => []
  end.

Definition rstrip (s : str) : str := rev (lstrip (rev s)).

(** [s.strip()] *)
Definition strip (s : str) : str := rstrip (lstrip s).

Fixpoint startswith (s prefix : str) : bool :=
  match prefix, s with
  | [], _ => true
  | p :: prefix', c :: s' => N.eqb p c && startswith s' prefix'
  | _ :: _, [] => false
  end.

(** [needle in s] *)
Fixpoint contains (needle s : str) : bool :=
  startswith s needle ||
  match s with
  | [] => false
  | _ :: s' => contains needle s'
  end.

(** A stable sort: the rows in the order [le], equal rows in the order they
    came in. *)
Fixpoint insert_by {A : Type} (le : A -> A -> bool) (x : A) (l : list A) : list A :=
  match l with
  | [] => [x]
  | y :: l' => if le x y then x :: l else y :: insert_by le x l'
  end.

Definition sort_by {A : Type} (le : A -> A -> bool) (l : list A) : list A :=
  fold_right (insert_by le) [] l.

(** [sorted] on a list of strings. *)
Definition sorted (l : list str) : list str := sort_by str_leb l.

(** A [dict] with [str] keys, as the list of its items; [dict_get] is
    [d.get(k)] and [dict_mem] is [k in d]. *)
Definition dict (V : Type) := list (str * V).

Fixpoint dict_get {V : Type} (d : dict V) (k : str) : option V :=
  match d with
  | [] => None
  | (k', v) :: d' => if str_eqb k k' then Some v else dict_get d' k
  end.

Definition dict_mem {V : Type} (k : str) (d : dict V) : bool :=
  match dict_get d k with Some _ => true | None => false end.

Definition get_or {V : Type} (d : dict V) (k : str) (default : V) : V :=
  match dict_get d k with Some v => v | None => default end.

(* ------------------------------------------------------------------------ *)
(** * The regular expression of [_POINTS_SUFFIX] *)

(** The pieces such a pattern is a sequence of: one character of a class, a
    greedy [*], [+] or [?] of a class, and [$]. *)
Inductive item : Type :=
| Char (p : N -> bool)
| Star (p : N -> bool)
| Plus (p : N -> bool)
| Opt (p : N -> bool)
| Eos.

(** [$] without [re.MULTILINE]: the end of the string, or just before a
    newline that ends it. *)
Definition at_eos (s : str) : bool :=
  match s with
  | [] => true
  | [c] => N.eqb c 10%N
  | _ => false
  end.

(** The backtracking matcher at one position: the input left after the first
    match in [re]'s order of preference (a greedy piece takes as much as it
    can and gives back one character at a time), or [None]. *)
Fixpoint match_here (pat : list item) (s : str) {struct pat} : option str :=
  match pat with
  | [] => Some s
  | Char p :: pat' =>
      match s with
      | c :: s' => if p c then match_here pat' s' else None
      | [] => None
      end
  | Star p :: pat' =>
      (fix star (s : str) : option str :=
         match s with
         | c :: s' =>
             if p c
             then match star s' with
                  | Some r => Some r
                  | None => match_here pat' s
                  end
             else match_here pat' s
         | [] => match_here pat' s
         end) s
  | Plus p :: pat' =>
      match s with
      | c :: s' =>
          if p c
          then (fix star (s : str) : option str :=
                  match s with
                  | c :: s' =>
                      if p c
                      then match star s' with
                           | Some r => Some r
                           | None => match_here pat' s
                           end
                      else match_here pat' s
                  | [] => match_here pat' s
                  end) s'
          else None
      | [] => None
      end
  | Opt p :: pat' =>
      match s with
      | c :: s' =>
          if p c
          then match match_here pat' s' with
               | Some r => Some r
               | None => match_here pat' s
               end
          else match_here pat' s
      | [] => match_here pat' s
      end
  | Eos :: pat' => if at_eos s then match_here pat' s else None
  end.

(** [pattern.sub("", s)]: the string without its non-overlapping matches,
    found from left to right. [skip] counts the characters of a match still
    to be dropped; an empty match replaces nothing. *)
Fixpoint sub_empty (pat : list item) (skip : nat) (s : str) : str :=
  match s with
  | [] => []
  | c :: s' =>
      match skip with
      | S k => sub_empty pat k s'
      | O =>
          match match_here pat s with
          | Some rest =>
              match (List.length s - List.length rest)%nat with
              | S k => sub_empty pat k s'
              | O => c :: sub_empty pat O s'
              end
          | None => c :: sub_empty pat O s'
          end
      end
  end.

Definition is_dash (c : N) : bool :=
  (N.eqb c 8212 || N.eqb c 8211 || N.eqb c 45)%N.

Definition one_of (chars : string) (c : N) : bool := existsb (N.eqb c) (u chars).

(** [re.compile(r"\s*[---]\s*\d+\s*[Pp]oints?\s*$")], the class holding the
    em dash (U+2014), the en dash (U+2013) and the hyphen. *)
Definition _POINTS_SUFFIX : list item :=
  [Star isspace; Char is_dash; Star isspace; Plus isdecimal; Star isspace;
   Char (one_of "Pp"); Char (one_of "o"); Char (one_of "i");
   Char (one_of "n"); Char (one_of "t"); Opt (one_of "s");
   Star isspace; Eos].

Definition strip_points_label (raw : str) : str :=
  strip (sub_empty _POINTS_SUFFIX 0 raw).

(* ------------------------------------------------------------------------ *)
(** * The option tables *)

Definition SAY_POINTS : dict Z :=
  [ (u "Trillion", 7); (u "250", 15); (u "Trump", 15);
    (u "ICE / National Guard", 17); (u "Fentanyl / Cocaine", 18);
    (u "Fraud", 20); (u "Hottest", 25); (u "DEI / Woke", 26);
    (u "Radical Left", 29); (u "Nuclear", 25);
    (u "Olympics / World Cup", 30);
    (u "The State of the / our Union is Strong", 30);
    (u "Affordability", 32); (u "Eight War", 32);
    (u "MAHA / Make America Healthy Again", 35); (u "Transgender", 34);
    (u "Mental Institution", 37); (u "Drill Baby Drill", 39);
    (u "Ballroom", 49); (u "Vaccine / Autism", 48); (u "Fake News", 51);
    (u "Highest Inflation", 56); (u "Somali / Somalia / Somalian", 55);
    (u "Hoax", 60); (u "Windmill", 62); (u "Sleepy Joe", 71);
    (u "Crypto / Bitcoin", 74);
    (u "DOGE / Department of Government Efficiency", 74); (u "UFC", 75);
    (u "TDS / Trump Derangement Syndrome", 82); (u "Discombobulator", 88);
    (u "Ethereum", 97) ].

Definition MENTION_POINTS : dict Z :=
  [ (u "Biden", 8); (u "Marco / Rubio", 31); (u "Charlie Kirk", 39);
    (u "President Xi", 43); (u "Putin", 45); (u "Thune", 50);
    (u "Witkoff", 52); (u "Hegseth", 58); (u "Bessent", 56);
    (u "Homan", 60); (u "Kristi / Noem", 61); (u "Lincoln", 61);
    (u "Kash / Patel", 69); (u "Obama", 66); (u "Pam / Bondi", 66);
    (u "Zelensky", 67); (u "Bibi / Netanyahu", 72);
    (u "Jared / Kushner", 69); (u "Reagan", 71); (u "Kamala", 72);
    (u "Clinton", 76); (u "Elon / Musk", 76); (u "Newsom / Newscum", 81);
    (u "Modi", 79); (u "Warsh", 85); (u "Karoline / Leavitt", 86);
    (u "Usha", 84); (u "Howard / Lutnick", 82); (u "Walz", 86);
    (u "Schumer", 86); (u "Epstein", 91); (u "Pelosi", 91);
    (u "Prince Mohammed", 89); (u "Keir / Starmer", 93);
    (u "Tulsi / Gabbard", 95); (u "Zohran / Mamdani", 92);
    (u "Pocahontas", 93); (u "Judy Shelton", 99); (u "Satoshi", 99) ].

(** Alias map: user-friendly label -> canonical API title *)
Definition ALIASES : dict str :=
  [ (u "Marco Rubio", u "Marco / Rubio");
    (u "Kristi Noem", u "Kristi / Noem");
    (u "Kash Patel", u "Kash / Patel");
    (u "Pam Bondi", u "Pam / Bondi");
    (u "Bibi Netanyahu", u "Bibi / Netanyahu");
    (u "Jared Kushner", u "Jared / Kushner");
    (u "Elon Musk", u "Elon / Musk");
    (u "Newsom", u "Newsom / Newscum");
    (u "Karoline Leavitt", u "Karoline / Leavitt");
    (u "Howard Lutnick", u "Howard / Lutnick");
    (u "Keir Starmer", u "Keir / Starmer");
    (u "Tulsi Gabbard", u "Tulsi / Gabbard");
    (u "Zohran Mamdani", u "Zohran / Mamdani");
    (u "Woke / DEI", u "DEI / Woke") ].

(** [kalshi.EVENT_TICKERS], in the order [.items()] yields it. *)
Definition EVENT_TICKERS : dict str :=
  [ (u "say", u "KXTRUMPMENTION-26FEB28");
    (u "mention", u "KXTRUMPMENTION-26MAR02") ].

Definition resolve_pick (pick : str) : str :=
  let pick := strip_points_label pick in
  get_or ALIASES pick pick.

(** The triple [(category, points, name)]; the category is [None] when the
    pick is no option of either table. *)
Definition validate_pick (pick : str) : option str * Z * str :=
  let canonical := resolve_pick pick in
  if dict_mem canonical SAY_POINTS
  then (Some (u "say"), get_or SAY_POINTS canonical 0, canonical)
  else if dict_mem canonical MENTION_POINTS
  then (Some (u "mention"), get_or MENTION_POINTS canonical 0, canonical)
  else (None, 0, pick).

(* ------------------------------------------------------------------------ *)
(** * The database *)

(** The rows of [picks]. [timestamp], [market_ticker] and [event_ticker] are
    nullable; the first is never read, so only the other two carry a NULL. *)
Module Pick.
Record row : Type := mk {
  id : Z;
  timestamp : str;
  name : str;
  pick : str;
  points : Z;
  market_ticker : option str;
  event_ticker : option str;
  locked_at : str
}.
End Pick.

(** The rows of [market_snapshots]; [result] is nullable. *)
Module Snap.
Record row : Type := mk {
  id : Z;
  ticker : str;
  event_ticker : str;
  title : str;
  yes_price : float;
  status : str;
  result : option str;
  snapshot_time : str
}.
End Snap.

(** The rows of [scores], without the [id] column no query reads. *)
Module Score.
Record row : Type := mk {
  name : str;
  total_points : Z;
  correct_picks : Z;
  updated_at : str
}.
End Score.

(** The three tables in rowid order; a [_seq] field is the table's entry of
    [sqlite_sequence], the largest rowid AUTOINCREMENT has handed out. *)
Record db : Type := mkdb {
  picks : list Pick.row;
  picks_seq : Z;
  market_snapshots : list Snap.row;
  market_snapshots_seq : Z;
  scores : list Score.row
}.

(** What [init_db] leaves in a new file. *)
Definition init_db : db := mkdb [] 0 [] 0 [].

(** ** SQL expressions *)

(** A truth value of SQL; [None] is NULL. *)
Definition sql_bool := option bool.

Definition sql_and (a b : sql_bool) : sql_bool :=
  match a, b with
  | Some false, _ | _, Some false => Some false
  | Some true, Some true => Some true
  | _, _ => None
  end.

Definition sql_or (a b : sql_bool) : sql_bool :=
  match a, b with
  | Some true, _ | _, Some true => Some true
  | Some false, Some false => Some false
  | _, _ => None
  end.

Definition sql_eq (a b : option str) : sql_bool :=
  match a, b with
  | Some x, Some y => Some (str_eqb x y)
  | _, _ => None
  end.

Definition sql_ne (a b : option str) : sql_bool :=
  match a, b with
  | Some x, Some y => Some (negb (str_eqb x y))
  | _, _ => None
  end.

(** [a >= b] and [a <= b] on REAL values. *)
Definition sql_ge (a b : option float) : sql_bool :=
  match a, b with
  | Some x, Some y => Some (PrimFloat.leb y x)
  | _, _ => None
  end.

Definition sql_le (a b : option float) : sql_bool :=
  match a, b with
  | Some x, Some y => Some (PrimFloat.leb x y)
  | _, _ => None
  end.

Definition COALESCE {A : Type} (a : option A) (b : A) : A :=
  match a with Some x => x | None => b end.

(** A WHERE, ON or WHEN condition holds when it is true, not NULL. *)
Definition holds (b : sql_bool) : bool :=
  match b with Some true => true | _ => false end.

(** The columns of [ms] on a row of the LEFT JOIN: NULL where no snapshot
    matched the pick. *)
Definition ms_result (ms : option Snap.row) : option str :=
  match ms with Some r => Snap.result r | None => None end.

Definition ms_yes_price (ms : option Snap.row) : option float :=
  option_map Snap.yes_price ms.

Definition ms_status (ms : option Snap.row) : option str :=
  option_map Snap.status ms.

Definition _resolved_yes_expr (ms : option Snap.row) : sql_bool :=
  sql_or (sql_eq (Some (COALESCE (ms_result ms) (u ""))) (Some (u "yes")))
         (sql_and (sql_eq (Some (COALESCE (ms_result ms) (u ""))) (Some (u "")))
                  (sql_ge (ms_yes_price ms) (Some 0.99%float))).

Definition _resolved_no_expr (ms : option Snap.row) : sql_bool :=
  sql_or (sql_eq (Some (COALESCE (ms_result ms) (u ""))) (Some (u "no")))
         (sql_and (sql_eq (Some (COALESCE (ms_result ms) (u ""))) (Some (u "")))
                  (sql_le (ms_yes_price ms) (Some 0.01%float))).

(** ** The join of picks with the latest snapshots *)

(** The distinct values of a list of strings, first occurrences kept. *)
Fixpoint distinct (l : list str) : list str :=
  match l with
  | [] => []
  | x :: l' => x :: filter (fun y => negb (str_eqb y x)) (distinct l')
  end.

(** [MAX] over a group, which has a first row. *)
Definition MAX (first : Z) (others : list Z) : Z := fold_left Z.max others first.

(** [SELECT MAX(id) FROM market_snapshots GROUP BY ticker] *)
Definition max_id_per_ticker (snaps : list Snap.row) : list Z :=
  flat_map
    (fun t =>
       match map Snap.id (filter (fun s => str_eqb (Snap.ticker s) t) snaps) with
       | [] => []
       | i :: ids => [MAX i ids]
       end)
    (distinct (map Snap.ticker snaps)).

(** The subquery [ms]: the rows of [market_snapshots] whose id is in
    [max_id_per_ticker]. *)
Definition latest_snapshots (snaps : list Snap.row) : list Snap.row :=
  filter (fun s => existsb (Z.eqb (Snap.id s)) (max_id_per_ticker snaps)) snaps.

(** The ON condition of both queries. *)
Definition join_on (p : Pick.row) (ms : Snap.row) : sql_bool :=
  sql_or
    (sql_and (sql_ne (Pick.market_ticker p) (Some (u "")))
             (sql_eq (Pick.market_ticker p) (Some (Snap.ticker ms))))
    (sql_and (sql_eq (Pick.market_ticker p) (Some (u "")))
             (sql_eq (Some (Pick.pick p)) (Some (Snap.title ms)))).

(** The rows of [picks p LEFT JOIN ms] one pick gives: one per matching
    snapshot, or one with every column of [ms] NULL. *)
Definition join_pick (ms : list Snap.row) (p : Pick.row)
  : list (Pick.row * option Snap.row) :=
  match filter (fun s => holds (join_on p s)) ms with
  | [] => [(p, None)]
  | matches => map (fun s => (p, Some s)) matches
  end.

Definition left_join (d : db) : list (Pick.row * option Snap.row) :=
  flat_map (join_pick (latest_snapshots (market_snapshots d))) (picks d).

(** ** Scores *)

(** The rows of the data frame [calculate_scores] returns. *)
Module Agg.
Record row : Type := mk {
  name : str;
  total_points : Z;
  correct_picks : Z;
  total_picks : Z
}.
End Agg.

Definition SUM (l : list Z) : Z := fold_left Z.add l 0.

(** The SELECT of [calculate_scores]. SQL leaves the order of groups of
    equal [total_points] open; SQLite lists them from the last name to the
    first, which is the order taken here (nothing below depends on it).
    Sums are taken in [Z]: the points of a stored pick are a table value
    below 100, far from the 64 bits of an SQLite integer. *)
Definition scores_query (d : db) : list Agg.row :=
  let joined := left_join d in
  let group (n : str) :=
    let rows := filter (fun r => str_eqb (Pick.name (fst r)) n) joined in
    Agg.mk n
      (SUM (map (fun r => if holds (_resolved_yes_expr (snd r))
                          then Pick.points (fst r) else 0) rows))
      (SUM (map (fun r => if holds (_resolved_yes_expr (snd r))
                          then 1 else 0) rows))
      (Z.of_nat (List.length rows)) in
  sort_by (fun a b => Agg.total_points b <=? Agg.total_points a)
    (map group (rev (sorted (distinct (map (fun r => Pick.name (fst r)) joined))))).

(** [INSERT INTO scores ... ON CONFLICT(name) DO UPDATE SET ...] *)
Definition upsert_score (now : str) (l : list Score.row) (r : Agg.row)
  : list Score.row :=
  let new := Score.mk (Agg.name r) (Agg.total_points r) (Agg.correct_picks r) now in
  if existsb (fun s => str_eqb (Score.name s) (Agg.name r)) l
  then map (fun s => if str_eqb (Score.name s) (Agg.name r) then new else s) l
  else l ++ [new].

(** [calculate_scores()], run at time [now]: the data frame returned and the
    database left. *)
Definition calculate_scores (now : str) (d : db) : list Agg.row * db :=
  let df := scores_query d in
  (df,
   mkdb (picks d) (picks_seq d) (market_snapshots d) (market_snapshots_seq d)
        (fold_left (upsert_score now) df (scores d))).

Definition get_leaderboard (d : db) : list Score.row :=
  sort_by (fun a b => Score.total_points b <=? Score.total_points a) (scores d).

(** ** Pick details *)

Module Detail.
Record row : Type := mk {
  name : str;
  pick : str;
  points : Z;
  market_ticker : option str;
  event_ticker : option str;
  result : str;
  status : str;
  yes_price : float
}.
End Detail.

(** The CASE expression of the [result] column. *)
Definition detail_result (ms : option Snap.row) : str :=
  if holds (_resolved_yes_expr ms) then u "yes"
  else if holds (_resolved_no_expr ms) then u "no"
  else COALESCE (ms_result ms) (u "").

Definition detail_of (r : Pick.row * option Snap.row) : Detail.row :=
  let (p, ms) := r in
  Detail.mk (Pick.name p) (Pick.pick p) (Pick.points p)
    (Pick.market_ticker p) (Pick.event_ticker p)
    (detail_result ms)
    (COALESCE (ms_status ms) (u ""))
    (COALESCE (ms_yes_price ms) 0%float).

(** ORDER BY p.name, p.id *)
Definition by_name_id (a b : Pick.row) : bool :=
  str_ltb (Pick.name a) (Pick.name b)
  || (str_eqb (Pick.name a) (Pick.name b) && (Pick.id a <=? Pick.id b)).

Definition get_pick_details (d : db) : list Detail.row :=
  map detail_of (sort_by (fun a b => by_name_id (fst a) (fst b)) (left_join d)).

(** [_status_label] of [app.py], on the [result] of a detail row. *)
Definition _status_label (result : str) : str :=
  if str_eqb result (u "yes") then u "YES -- Earned"
  else if str_eqb result (u "no") then u "NO -- 0 pts"
  else u "Pending".

(** ** Picks *)

Definition get_picks (d : db) : list Pick.row := sort_by by_name_id (picks d).

Definition clear_picks (d : db) : db :=
  mkdb [] (picks_seq d) (market_snapshots d) (market_snapshots_seq d) (scores d).

(** One INSERT INTO picks: the row gets the next rowid. *)
Definition insert_pick (d : db) (ts name pick : str) (pts : Z)
    (market_ticker event_ticker now : str) : db :=
  let i := picks_seq d + 1 in
  mkdb (picks d ++ [Pick.mk i ts name pick pts (Some market_ticker) (Some event_ticker) now])
       i (market_snapshots d) (market_snapshots_seq d) (scores d).

(** A data frame: its column labels (distinct strings) and its rows, every
    cell as [str] renders it (a missing cell is the string [nan]). *)
Record DataFrame : Type := mkdf {
  columns : list str;
  rows : list (list str)
}.

(** [str(row.get(col, ""))] *)
Definition row_get (df : DataFrame) (row : list str) (col : str) : str :=
  get_or (combine (columns df) row) col (u "").

(** [next((c for c in df.columns if word in c.lower()), default)] *)
Definition find_col (df : DataFrame) (word default : str) : str :=
  match filter (fun c => contains word (lower c)) (columns df) with
  | c :: _ => c
  | [] => default
  end.

(** The body of the inner loop of [save_picks], for one pick cell. *)
Definition save_pick_cell (title_to_ticker : dict (dict str)) (now ts name : str)
    (d : db) (cell : str) : db :=
  let raw_val := strip cell in
  if str_eqb raw_val (u "") || str_eqb (lower raw_val) (u "nan") then d
  else
    match validate_pick raw_val with
    | (None, _, _) => d
    | (Some category, pts, canonical) =>
        let event_ticker := get_or EVENT_TICKERS category (u "") in
        let ticker_map := get_or title_to_ticker category [] in
        let market_ticker := get_or ticker_map canonical (u "") in
        insert_pick d ts name canonical pts market_ticker event_ticker now
    end.

Definition save_picks (df : DataFrame) (title_to_ticker : dict (dict str))
    (now : str) (d : db) : db :=
  let pick_cols := sorted (filter (fun c => contains (u "pick") (lower c)) (columns df)) in
  let name_col := find_col df (u "name") (u "name") in
  let ts_col := find_col df (u "time") (u "timestamp") in
  fold_left
    (fun d row =>
       let name := strip (row_get df row name_col) in
       let ts := row_get df row ts_col in
       if str_eqb name (u "") then d
       else fold_left
              (fun d col =>
                 save_pick_cell title_to_ticker now ts name d (row_get df row col))
              pick_cols d)
    (rows df) d.

(** ** Snapshots *)

(** The values [save_snapshot] binds for one market: [m.get] with its
    defaults, the price through [float]. *)
Record market : Type := mkmarket {
  m_ticker : str;
  m_event_ticker : str;
  m_title : str;
  m_price : float;
  m_status : str;
  m_result : option str
}.

Definition insert_snapshot (now : str) (d : db) (m : market) : db :=
  let i := market_snapshots_seq d + 1 in
  mkdb (picks d) (picks_seq d)
       (market_snapshots d ++
          [Snap.mk i (m_ticker m) (m_event_ticker m) (m_title m) (m_price m)
                   (m_status m) (m_result m) now])
       i (scores d).

(** [save_snapshot(markets)] at time [now]. SQLite stores a NaN as NULL, which
    [yes_price REAL NOT NULL] refuses: the call then raises before its commit
    ([None]) and the database stays as it was. *)
Definition save_snapshot (markets : list market) (now : str) (d : db) : option db :=
  if existsb (fun m => PrimFloat.is_nan (m_price m)) markets then None
  else Some (fold_left (insert_snapshot now) markets d).

(** [get_snapshots(event_ticker)] *)
Definition get_snapshots (event_ticker : str) (d : db) : list Snap.row :=
  sort_by (fun a b => str_leb (Snap.snapshot_time a) (Snap.snapshot_time b))
    (if str_eqb event_ticker (u "") then market_snapshots d
     else filter (fun s => str_eqb (Snap.event_ticker s) event_ticker)
            (market_snapshots d)).

(** ** Backfill *)

Definition falsy (v : option str) : bool :=
  match v with None => true | Some s => str_eqb s (u "") end.

(** The inner loop of [backfill_tickers] for the fetched row [r]: the first
    event of [EVENT_TICKERS] that is the row's own (or any, when the row has
    none) and whose map has a ticker for the pick. *)
Fixpoint backfill_find (title_to_ticker : dict (dict str)) (r : Pick.row)
    (events : dict str) : option (str * str) :=
  match events with
  | [] => None
  | (label, et) :: events' =>
      if holds (sql_eq (Some et) (Pick.event_ticker r)) || falsy (Pick.event_ticker r)
      then
        let ticker := get_or (get_or title_to_ticker label []) (Pick.pick r) (u "") in
        if negb (str_eqb ticker (u "")) then Some (ticker, et)
        else backfill_find title_to_ticker r events'
      else backfill_find title_to_ticker r events'
  end.

(** [UPDATE picks SET market_ticker = ?, event_ticker = ? WHERE id = ?] *)
Definition update_tickers (ticker et : str) (i : Z) (l : list Pick.row) : list Pick.row :=
  map (fun p =>
         if Pick.id p =? i
         then Pick.mk (Pick.id p) (Pick.timestamp p) (Pick.name p) (Pick.pick p)
                (Pick.points p) (Some ticker) (Some et) (Pick.locked_at p)
         else p) l.

Definition backfill_tickers (title_to_ticker : dict (dict str)) (d : db) : db :=
  let fetched := filter (fun p => falsy (Pick.market_ticker p)) (picks d) in
  mkdb (fold_left
          (fun l r =>
             match backfill_find title_to_ticker r EVENT_TICKERS with
             | Some (ticker, et) => update_tickers ticker et (Pick.id r) l
             | None => l
             end)
          fetched (picks d))
       (picks_seq d) (market_snapshots d) (market_snapshots_seq d) (scores d).

(* ------------------------------------------------------------------------ *)
(** * The ticker maps of [kalshi.py] *)

(** [d[k] = v]: the value of an existing key is replaced where it stands, a
    new key goes last. *)
Definition dict_set {V : Type} (d : dict V) (k : str) (v : V) : dict V :=
  if dict_mem k d
  then map (fun kv => if str_eqb (fst kv) k then (fst kv, v) else kv) d
  else d ++ [(k, v)].

(** [build_title_to_ticker_map(markets)], a market being the JSON object of
    the API, of which the fields read here are strings. [m["ticker"]] raises
    a [KeyError] where the field is missing: the result is then [None]. *)
Definition build_title_to_ticker_map (markets : list (dict str)) : option (dict str) :=
  fold_left
    (fun mapping m =>
       match mapping with
       | None => None
       | Some mapping =>
           let title := strip (get_or m (u "yes_sub_title") (u "")) in
           if str_eqb title (u "") then Some mapping
           else match dict_get m (u "ticker") with
                | Some ticker => Some (dict_set mapping title ticker)
                | None => None
                end
       end)
    markets (Some []).

(** ** Pages of markets *)

(** What one [requests.get] gives the loop of [get_event_markets]: a
    failure ([requests.get] or [raise_for_status] raises), or the JSON
    object of a page, of which the fields [markets] and [cursor] are read,
    either of which may be missing. *)
Inductive response : Type :=
| Failure
| Page (markets : option (list (dict str))) (cursor : option str).

(** How a call ends: it raises, it returns its list, or it is left waiting
    for a response that did not come. *)
Inductive outcome : Type :=
| Raised
| Returned (markets : list (dict str))
| Waiting.

(** The loop of [get_event_markets] from the state [cursor], [markets],
    against the responses the requests get, in order: the [cursor]
    parameter of each request sent ([None] when the request has none) and
    the outcome. *)
Fixpoint get_event_markets_from (cursor : option str) (markets : list (dict str))
    (responses : list response) : list (option str) * outcome :=
  let param := if falsy cursor then None else cursor in
  match responses with
  | [] => ([param], Waiting)
  | Failure :: _ => ([param], Raised)
  | Page ms c :: responses' =>
      let markets := markets ++ COALESCE ms [] in
      if falsy c then ([param], Returned markets)
      else
        let (sent, out) := get_event_markets_from c markets responses' in
        (param :: sent, out)
  end.

Definition get_event_markets (responses : list response)
  : list (option str) * outcome :=
  get_event_markets_from None [] responses.

(* ------------------------------------------------------------------------ *)
(** * The pick breakdown of [app.py] *)

(** [_earned] of a detail row; [None] is the empty string of a pick that is
    not resolved. *)
Definition _earned (row : Detail.row) : option Z :=
  if str_eqb (Detail.result row) (u "yes") then Some (Detail.points row)
  else if str_eqb (Detail.result row) (u "no") then Some 0
  else None.

(** [details[details["name"] == name]] *)
Definition person (details : list Detail.row) (name : str) : list Detail.row :=
  filter (fun r => str_eqb (Detail.name r) name) details.

(** The points in the header of a participant: those of the rows resolved
    yes, among the resolved rows. *)
Definition earned_total (person : list Detail.row) : Z :=
  let resolved :=
    filter (fun r => str_eqb (Detail.result r) (u "yes")
                     || str_eqb (Detail.result r) (u "no")) person in
  SUM (map (fun r => if str_eqb (Detail.result r) (u "yes")
                     then Detail.points r else 0) resolved).

(** The number of pending picks in the header: the rows whose result is
    empty (the query leaves no result missing). *)
Definition pending (person : list Detail.row) : Z :=
  Z.of_nat (List.length (filter (fun r => str_eqb (Detail.result r) (u "")) person)).

(* ------------------------------------------------------------------------ *)
(** * The validation of an upload in [app.py] *)

(** The errors the upload page finds in the frame [raw] (its labels already
    put in lower case with underscores): for every row and every column
    whose label starts with [pick], the cell that [validate_pick] does not
    classify, with the number of its row and its column. The picks can be
    locked only when there is none. *)
Definition upload_errors (raw : DataFrame) : list (nat * str * str) :=
  let pick_cols := filter (fun c => startswith c (u "pick")) (columns raw) in
  flat_map
    (fun ir =>
       flat_map
         (fun col =>
            let pick := strip (row_get raw (snd ir) col) in
            match validate_pick pick with
            | (None, _, _) => [(S (fst ir), col, pick)]
            | (Some _, _, _) => []
            end)
         pick_cols)
    (combine (seq 0 (List.length (rows raw))) (rows raw)).

(* ------------------------------------------------------------------------ *)
(** * Properties *)

(** ** Strings and SQL truth values *)

Lemma str_eqb_eq (a b : str) : str_eqb a b = true <-> a = b.
Proof.
  revert b; induction a as [|x a IH]; intros [|y b]; simpl; split;
    try discriminate; try reflexivity.
  - intros H. apply andb_true_iff in H as [Hx Ha].
    apply N.eqb_eq in Hx. apply IH in Ha. now subst.
  - intros H. injection H as -> ->. rewrite N.eqb_refl. simpl. now apply IH.
Qed.

Lemma str_eqb_refl (a : str) : str_eqb a a = true.
Proof. now apply str_eqb_eq. Qed.

Lemma str_eqb_neq (a b : str) : str_eqb a b = false <-> a <> b.
Proof.
  split.
  - intros H E. apply str_eqb_eq in E. congruence.
  - intros H. destruct (str_eqb a b) eqn:E; [|reflexivity].
    apply str_eqb_eq in E. contradiction.
Qed.

Lemma str_eqb_sym (a b : str) : str_eqb a b = str_eqb b a.
Proof.
  destruct (str_eqb b a) eqn:E.
  - apply str_eqb_eq in E. subst. apply str_eqb_refl.
  - apply str_eqb_neq. apply str_eqb_neq in E. congruence.
Qed.


(** ** Resolution of a joined pick (C1) *)










(** ** Classification of an unknown pick (C10) *)

(** C10. When the pick canonicalizes to no option of either table,
    [validate_pick] returns (it raises nothing: the function is total) the
    triple of no category, 0 points and the raw input as it was given, not
    its normalized form; and equal inputs give equal triples. *)
Theorem validate_pick_not_found (pick : str) :
  dict_mem (resolve_pick pick) SAY_POINTS = false ->
  dict_mem (resolve_pick pick) MENTION_POINTS = false ->
  validate_pick pick = (None, 0, pick)
  /\ (forall pick' : str, pick' = pick -> validate_pick pick' = validate_pick pick).
Proof.
  intros Hsay Hmention. split.
  - unfold validate_pick. cbv zeta. rewrite Hsay, Hmention. reflexivity.
  - intros pick' ->. reflexivity.
Qed.

(** An unknown option with a point suffix: the suffix is stripped for the
    lookup and kept in the triple. *)
Lemma validate_pick_not_found_witness :
  resolve_pick (u "Bogus - 5 points") = u "Bogus"
  /\ validate_pick (u "Bogus - 5 points") = (None, 0, u "Bogus - 5 points")
  /\ (forall pick' : str, pick' = u "Bogus - 5 points" ->
      validate_pick pick' = validate_pick (u "Bogus - 5 points")).
Proof.
  split; [vm_compute; reflexivity|].
  apply (validate_pick_not_found (u "Bogus - 5 points")); vm_compute; reflexivity.
Defined.

(** ** The join (C2) *)

Lemma join_on_ticker (p : Pick.row) (t : str) (s : Snap.row) :
  Pick.market_ticker p = Some t -> t <> u "" ->
  holds (join_on p s) = str_eqb (Snap.ticker s) t.
Proof.
  intros Ht Hne. unfold join_on. rewrite Ht. simpl.
  apply str_eqb_neq in Hne. rewrite Hne. simpl.
  rewrite (str_eqb_sym (Snap.ticker s) t).
  destruct (str_eqb t (Snap.ticker s)),
           (str_eqb (Pick.pick p) (Snap.title s)); reflexivity.
Qed.

Lemma filter_none {A : Type} (f : A -> bool) (l : list A) :
  (forall x, In x l -> f x = false) -> filter f l = [].
Proof.
  induction l as [|x l IH]; intros H; simpl; [reflexivity|].
  rewrite (H x (or_introl eq_refl)). apply IH. intros y Hy. apply H. now right.
Qed.

(** C2. A pick whose [market_ticker] is set (not empty) is joined on the
    ticker alone: a snapshot matches it exactly when its ticker is the
    pick's, whatever its title; the rows the pick gives in the join are the
    latest snapshots with that ticker; and when there is none, the pick gets
    the one row without a snapshot, which is labelled "Pending" and earns
    nothing, even if a snapshot of another ticker carries the pick's title. *)
Theorem join_by_ticker_only (d : db) (p : Pick.row) (t : str) :
  Pick.market_ticker p = Some t -> t <> u "" ->
  let ms := latest_snapshots (market_snapshots d) in
  (forall s : Snap.row, holds (join_on p s) = true <-> Snap.ticker s = t)
  /\ join_pick ms p =
       match filter (fun s => str_eqb (Snap.ticker s) t) ms with
       | [] => [(p, None)]
       | matches => map (fun s => (p, Some s)) matches
       end
  /\ ((forall s, In s ms -> Snap.ticker s <> t) ->
      join_pick ms p = [(p, None)]
      /\ map (fun r => _status_label (Detail.result (detail_of r))) (join_pick ms p)
         = [u "Pending"]
      /\ map (fun r => holds (_resolved_yes_expr (snd r))) (join_pick ms p) = [false]).
Proof.
  intros Ht Hne ms.
  assert (Hjoin : join_pick ms p =
                  match filter (fun s => str_eqb (Snap.ticker s) t) ms with
                  | [] => [(p, None)]
                  | matches => map (fun s => (p, Some s)) matches
                  end).
  { unfold join_pick.
    rewrite (filter_ext (fun s => holds (join_on p s))
                        (fun s => str_eqb (Snap.ticker s) t)); [reflexivity|].
    intros s. now apply join_on_ticker. }
  split; [|split].
  - intros s. rewrite (join_on_ticker p t s Ht Hne). apply str_eqb_eq.
  - exact Hjoin.
  - intros Hnone.
    assert (Hrow : join_pick ms p = [(p, None)]).
    { rewrite Hjoin, filter_none; [reflexivity|].
      intros s Hs. apply str_eqb_neq. now apply Hnone. }
    rewrite Hrow. repeat split.
Qed.

(** A pick on ticker X1 titled "Trillion", and a database whose only
    snapshot is of ticker X2, resolved yes, with the same title. *)
Definition pick_on_X1 : Pick.row :=
  Pick.mk 1 (u "2026-02-27") (u "Alice") (u "Trillion") 7 (Some (u "X1"))
          (Some (u "KXTRUMPMENTION-26FEB28")) (u "2026-02-27T12:00:00+00:00").

Definition db_with_X2 : db :=
  mkdb [pick_on_X1] 1
       [Snap.mk 1 (u "X2") (u "KXTRUMPMENTION-26MAR02") (u "Trillion") 1
                (u "finalized") (Some (u "yes")) (u "2026-03-02T00:00:00+00:00")]
       1 [].

Lemma join_by_ticker_only_witness :
  left_join db_with_X2 = [(pick_on_X1, None)]
  /\ fst (calculate_scores (u "now") db_with_X2) = [Agg.mk (u "Alice") 0 0 1]
  /\ join_pick (latest_snapshots (market_snapshots db_with_X2)) pick_on_X1
     = [(pick_on_X1, None)].
Proof.
  split; [vm_compute; reflexivity|].
  split; [vm_compute; reflexivity|].
  apply (join_by_ticker_only db_with_X2 pick_on_X1 (u "X1")).
  - reflexivity.
  - vm_compute. discriminate.
  - intros s Hs. vm_compute in Hs. destruct Hs as [<-|[]]. vm_compute. discriminate.
Defined.

(** ** Lists *)

Lemma NoDup_map_inj {A B : Type} (f : A -> B) (l : list A) (a b : A) :
  NoDup (map f l) -> In a l -> In b l -> f a = f b -> a = b.
Proof.
  induction l as [|x l IH]; simpl; intros Hnd Ha Hb Hf; [contradiction|].
  inversion Hnd as [|? ? Hx Hl]; subst.
  destruct Ha as [->|Ha], Hb as [->|Hb]; auto.
  - exfalso. apply Hx. rewrite Hf. now apply in_map.
  - exfalso. apply Hx. rewrite <- Hf. now apply in_map.
Qed.

(** In a table with a key, the rows with the key of one of its rows are that
    row alone. *)
Lemma filter_key_unique {A : Type} (f : A -> Z) (l : list A) (s : A) :
  NoDup (map f l) -> In s l -> filter (fun r => f r =? f s) l = [s].
Proof.
  induction l as [|x l IH]; simpl; intros Hnd Hs; [contradiction|].
  inversion Hnd as [|? ? Hx Hl]; subst.
  destruct Hs as [->|Hs].
  - rewrite Z.eqb_refl. f_equal. apply filter_none.
    intros y Hy. apply Z.eqb_neq. intros E. apply Hx. rewrite <- E. now apply in_map.
  - replace (f x =? f s) with false; [now apply IH|].
    symmetry. apply Z.eqb_neq. intros E. apply Hx. rewrite E. now apply in_map.
Qed.

Lemma distinct_In (l : list str) (x : str) : In x (distinct l) <-> In x l.
Proof.
  induction l as [|y l IH]; simpl; [tauto|].
  rewrite filter_In, IH, negb_true_iff, str_eqb_neq.
  destruct (str_eqb x y) eqn:E.
  - apply str_eqb_eq in E. subst. tauto.
  - apply str_eqb_neq in E. split; [tauto|]. intros [H|H]; [now left|tauto].
Qed.

Lemma NoDup_filter {A : Type} (f : A -> bool) (l : list A) :
  NoDup l -> NoDup (filter f l).
Proof.
  induction 1 as [|x l Hx Hl IH]; simpl; [constructor|].
  destruct (f x); [constructor|]; auto.
  rewrite filter_In. tauto.
Qed.

Lemma distinct_NoDup (l : list str) : NoDup (distinct l).
Proof.
  induction l as [|y l IH]; simpl; constructor.
  - rewrite filter_In, negb_true_iff, str_eqb_refl. intros [_ H]. discriminate.
  - now apply NoDup_filter.
Qed.

Lemma MAX_spec (i : Z) (ids : list Z) :
  In (MAX i ids) (i :: ids) /\ forall j, In j (i :: ids) -> j <= MAX i ids.
Proof.
  unfold MAX. revert i. induction ids as [|k ids IH]; intros i; simpl.
  - split; [now left|]. intros j [->|[]]. lia.
  - destruct (IH (Z.max i k)) as [Hin Hge]. split.
    + destruct Hin as [Hin|Hin]; [|now right; right].
      rewrite <- Hin. destruct (Z.max_spec i k) as [[_ ->]|[_ ->]]; auto.
    + intros j [->|[->|Hj]].
      * specialize (Hge (Z.max j k) (or_introl eq_refl)). lia.
      * specialize (Hge (Z.max i j) (or_introl eq_refl)). lia.
      * apply Hge. now right.
Qed.

Lemma filter_filter {A : Type} (f g : A -> bool) (l : list A) :
  filter f (filter g l) = filter (fun x => f x && g x) l.
Proof.
  induction l as [|x l IH]; simpl; [reflexivity|].
  destruct (g x); simpl; rewrite ?andb_true_r, ?andb_false_r;
    [destruct (f x)|]; now rewrite IH.
Qed.

(** ** The latest snapshot of a ticker (C3) *)

(** The ids [max_id_per_ticker] selects: for each ticker of the table, the
    largest id among its rows. *)
Lemma max_id_per_ticker_In (snaps : list Snap.row) (i : Z) :
  In i (max_id_per_ticker snaps) <->
  exists s, In s snaps /\ Snap.id s = i
            /\ forall r, In r snaps -> Snap.ticker r = Snap.ticker s ->
                         Snap.id r <= Snap.id s.
Proof.
  unfold max_id_per_ticker. rewrite in_flat_map. split.
  - intros (t & Ht & Hi).
    destruct (map Snap.id (filter (fun s => str_eqb (Snap.ticker s) t) snaps))
      as [|j ids] eqn:E; [contradiction|].
    destruct Hi as [<-|[]].
    destruct (MAX_spec j ids) as [Hin Hge]. rewrite <- E in Hin, Hge.
    apply in_map_iff in Hin as (s & Hs & Hin).
    apply filter_In in Hin as [Hin Hts]. apply str_eqb_eq in Hts.
    exists s. repeat split; auto.
    intros r Hr Hrt. rewrite Hs. apply Hge. apply in_map.
    apply filter_In. split; [assumption|]. apply str_eqb_eq. congruence.
  - intros (s & Hs & <- & Hmax). exists (Snap.ticker s). split.
    + apply distinct_In. now apply in_map.
    + assert (Hin : In (Snap.id s)
                (map Snap.id (filter (fun r => str_eqb (Snap.ticker r) (Snap.ticker s)) snaps))).
      { apply in_map, filter_In. split; [assumption|apply str_eqb_refl]. }
      destruct (map Snap.id (filter (fun r => str_eqb (Snap.ticker r) (Snap.ticker s)) snaps))
        as [|j ids] eqn:E; [contradiction|].
      left. destruct (MAX_spec j ids) as [Hmin Hge]. rewrite <- E in Hmin.
      apply in_map_iff in Hmin as (m & Hm & Hmin).
      apply filter_In in Hmin as [Hmin Hmt]. apply str_eqb_eq in Hmt.
      specialize (Hge _ Hin). specialize (Hmax m Hmin Hmt). lia.
Qed.

(** Every ticker of the table has a row of largest id. *)
Lemma ticker_has_max (snaps : list Snap.row) (t : str) :
  In t (map Snap.ticker snaps) ->
  exists s, In s snaps /\ Snap.ticker s = t
            /\ forall r, In r snaps -> Snap.ticker r = t -> Snap.id r <= Snap.id s.
Proof.
  intros Ht. apply in_map_iff in Ht as (s0 & Hs0 & Hin0).
  assert (Hin : In (Snap.id s0)
              (map Snap.id (filter (fun r => str_eqb (Snap.ticker r) t) snaps))).
  { apply in_map, filter_In. split; [assumption|]. now apply str_eqb_eq. }
  destruct (map Snap.id (filter (fun r => str_eqb (Snap.ticker r) t) snaps))
    as [|j ids] eqn:E; [contradiction|].
  destruct (MAX_spec j ids) as [Hmin Hge]. rewrite <- E in Hmin, Hge.
  apply in_map_iff in Hmin as (m & Hm & Hmin).
  apply filter_In in Hmin as [Hmin Hmt]. apply str_eqb_eq in Hmt.
  exists m. repeat split; auto.
  intros r Hr Hrt. rewrite Hm. apply Hge, in_map, filter_In.
  split; [assumption|]. now apply str_eqb_eq.
Qed.

(** In a table whose ids are distinct, the latest snapshots hold, for every
    ticker of the table, exactly one row: the row of that ticker with the
    largest id. *)
Lemma latest_per_ticker (snaps : list Snap.row) (t : str) :
  NoDup (map Snap.id snaps) ->
  In t (map Snap.ticker snaps) ->
  exists s : Snap.row,
    filter (fun r => str_eqb (Snap.ticker r) t) (latest_snapshots snaps) = [s]
    /\ In s snaps
    /\ Snap.ticker s = t
    /\ forall r, In r snaps -> Snap.ticker r = t -> Snap.id r <= Snap.id s.
Proof.
  intros Hnd Ht.
  destruct (ticker_has_max snaps t Ht) as (s & Hs & Hst & Hmax).
  exists s. repeat split; auto.
  unfold latest_snapshots.
  rewrite <- (filter_key_unique Snap.id snaps s Hnd Hs), filter_filter.
  apply filter_ext_in. intros r Hr.
  destruct (Snap.id r =? Snap.id s) eqn:E.
  - apply Z.eqb_eq in E.
    assert (r = s) by (apply (NoDup_map_inj Snap.id snaps); assumption). subst r.
    apply andb_true_iff. split; [now apply str_eqb_eq|].
    apply existsb_exists. exists (Snap.id s). split; [|apply Z.eqb_refl].
    apply max_id_per_ticker_In. exists s. repeat split; auto.
    intros r Hr' Hrt. apply Hmax; congruence.
  - apply andb_false_iff.
    destruct (str_eqb (Snap.ticker r) t) eqn:Et; [right|now left].
    apply str_eqb_eq in Et.
    destruct (existsb (Z.eqb (Snap.id r)) (max_id_per_ticker snaps)) eqn:Ex;
      [exfalso|reflexivity].
    apply existsb_exists in Ex as (i & Hi & Ei). apply Z.eqb_eq in Ei. subst i.
    apply max_id_per_ticker_In in Hi as (s' & Hs' & Hid & Hmax').
    assert (s' = r) by (apply (NoDup_map_inj Snap.id snaps); assumption). subst s'.
    apply Z.eqb_neq in E. apply E.
    specialize (Hmax r Hr Et). specialize (Hmax' s Hs ltac:(congruence)). lia.
Qed.

(** The database after two calls of [save_snapshot] with the same clock
    reading, for one market at 0.40 and then at 0.95. *)
Definition market_at (price : float) : market :=
  mkmarket (u "X1") (u "KXTRUMPMENTION-26FEB28") (u "Trillion") price
           (u "active") (Some (u "")).

Definition db_two_snapshots : db :=
  let now := u "2026-02-28T00:00:00+00:00" in
  match save_snapshot [market_at 0.40] now init_db with
  | Some d => match save_snapshot [market_at 0.95] now d with
              | Some d' => d'
              | None => init_db
              end
  | None => init_db
  end.

(** ** Sorting *)

Lemma insert_by_perm {A : Type} (le : A -> A -> bool) (x : A) (l : list A) :
  Permutation (x :: l) (insert_by le x l).
Proof.
  induction l as [|y l IH]; simpl; [reflexivity|].
  destruct (le x y); [reflexivity|].
  rewrite perm_swap. now constructor.
Qed.

Lemma sort_by_perm {A : Type} (le : A -> A -> bool) (l : list A) :
  Permutation l (sort_by le l).
Proof.
  induction l as [|x l IH]; simpl; [constructor|].
  rewrite <- insert_by_perm. now constructor.
Qed.

Lemma sort_by_In {A : Type} (le : A -> A -> bool) (l : list A) (x : A) :
  In x (sort_by le l) <-> In x l.
Proof.
  split; apply Permutation_in; [symmetry|]; apply sort_by_perm.
Qed.

(** ** Scores are recomputed, not accumulated (C4) *)

(** What a score row says of its participant: every column but the time of
    the update. *)
Definition score_values (s : Score.row) : str * Z * Z :=
  (Score.name s, Score.total_points s, Score.correct_picks s).

Definition agg_values (r : Agg.row) : str * Z * Z :=
  (Agg.name r, Agg.total_points r, Agg.correct_picks r).

(** The query yields one row for each name. *)
Lemma scores_query_names (d : db) :
  Permutation (map Agg.name (scores_query d))
              (distinct (map (fun r => Pick.name (fst r)) (left_join d))).
Proof.
  unfold scores_query. cbv zeta.
  rewrite <- sort_by_perm, map_map. simpl. rewrite map_id, <- Permutation_rev.
  symmetry. apply sort_by_perm.
Qed.

Lemma scores_query_NoDup (d : db) : NoDup (map Agg.name (scores_query d)).
Proof.
  eapply Permutation_NoDup; [symmetry; apply scores_query_names|].
  apply distinct_NoDup.
Qed.

(** The rows of [scores] after one upsert. *)
Lemma upsert_score_In (now : str) (l : list Score.row) (r : Agg.row) (s : Score.row) :
  In s (upsert_score now l r) <->
  s = Score.mk (Agg.name r) (Agg.total_points r) (Agg.correct_picks r) now
  \/ (In s l /\ Score.name s <> Agg.name r).
Proof.
  unfold upsert_score.
  destruct (existsb (fun s => str_eqb (Score.name s) (Agg.name r)) l) eqn:E.
  - rewrite in_map_iff. split.
    + intros (s0 & Hs & Hin).
      destruct (str_eqb (Score.name s0) (Agg.name r)) eqn:En.
      * now left.
      * right. subst s0. split; [assumption|]. now apply str_eqb_neq.
    + intros [->|[Hin Hne]].
      * apply existsb_exists in E as (s0 & Hin & En). exists s0. now rewrite En.
      * exists s. apply str_eqb_neq in Hne. now rewrite Hne.
  - rewrite in_app_iff. simpl.
    assert (Hall : forall s0, In s0 l -> Score.name s0 <> Agg.name r).
    { intros s0 Hin. apply str_eqb_neq.
      destruct (str_eqb (Score.name s0) (Agg.name r)) eqn:En; [|reflexivity].
      rewrite <- E. symmetry. apply existsb_exists. now exists s0. }
    split.
    + intros [Hin|[<-|[]]]; [right|now left]. split; auto.
    + intros [->|[Hin _]]; [right; now left|now left].
Qed.

(** The row of [scores] for the name of [r] says what [r] says. *)
Definition recorded (r : Agg.row) (l : list Score.row) : Prop :=
  (exists s, In s l /\ Score.name s = Agg.name r)
  /\ forall s, In s l -> Score.name s = Agg.name r -> score_values s = agg_values r.

Lemma upsert_score_recorded (now : str) (l : list Score.row) (r : Agg.row) :
  recorded r (upsert_score now l r).
Proof.
  split.
  - eexists. split; [apply upsert_score_In; left; reflexivity|reflexivity].
  - intros s Hs Hn. apply upsert_score_In in Hs as [->|[_ Hne]];
      [reflexivity|contradiction].
Qed.

Lemma upsert_score_other (now : str) (l : list Score.row) (r r' : Agg.row) :
  Agg.name r' <> Agg.name r -> recorded r l -> recorded r (upsert_score now l r').
Proof.
  intros Hne [(s & Hs & Hn) Hval]. split.
  - exists s. split; [|assumption]. apply upsert_score_In. right.
    split; [assumption|congruence].
  - intros s0 Hs0 Hn0. apply upsert_score_In in Hs0 as [->|[Hin _]].
    + simpl in Hn0. congruence.
    + now apply Hval.
Qed.

Lemma fold_upsert_other (now : str) (df : list Agg.row) (l : list Score.row) (r : Agg.row) :
  ~ In (Agg.name r) (map Agg.name df) -> recorded r l ->
  recorded r (fold_left (upsert_score now) df l).
Proof.
  revert l. induction df as [|r' df IH]; intros l Hnin Hrec; simpl; [assumption|].
  apply IH; [simpl in Hnin; tauto|].
  apply upsert_score_other; [|assumption]. simpl in Hnin. intros E. apply Hnin. now left.
Qed.

Lemma fold_upsert_recorded (now : str) (df : list Agg.row) (l : list Score.row) :
  NoDup (map Agg.name df) ->
  forall r, In r df -> recorded r (fold_left (upsert_score now) df l).
Proof.
  revert l. induction df as [|r' df IH]; intros l Hnd r Hr; [contradiction|].
  simpl in Hnd. inversion Hnd as [|? ? Hnin Hnd']; subst. simpl.
  destruct Hr as [->|Hr].
  - apply fold_upsert_other; [assumption|apply upsert_score_recorded].
  - now apply IH.
Qed.

(** An upsert of what is recorded changes the time of the update alone. *)
Lemma upsert_score_same (now : str) (l : list Score.row) (r : Agg.row) :
  recorded r l -> map score_values (upsert_score now l r) = map score_values l.
Proof.
  intros [(s & Hs & Hn) Hval]. unfold upsert_score.
  replace (existsb (fun s => str_eqb (Score.name s) (Agg.name r)) l) with true.
  - rewrite map_map. apply map_ext_in. intros s0 Hs0.
    destruct (str_eqb (Score.name s0) (Agg.name r)) eqn:En; [|reflexivity].
    apply str_eqb_eq in En. symmetry. now apply Hval.
  - symmetry. apply existsb_exists. exists s. split; [assumption|]. now apply str_eqb_eq.
Qed.

Lemma recorded_values (r : Agg.row) (l l' : list Score.row) :
  map score_values l = map score_values l' -> recorded r l -> recorded r l'.
Proof.
  intros E [(s & Hs & Hn) Hval]. split.
  - assert (Hin : In (score_values s) (map score_values l')).
    { rewrite <- E. now apply in_map. }
    apply in_map_iff in Hin as (s' & Hv & Hs'). exists s'. split; [assumption|].
    unfold score_values in Hv. congruence.
  - intros s' Hs' Hn'.
    assert (Hin : In (score_values s') (map score_values l)).
    { rewrite E. now apply in_map. }
    apply in_map_iff in Hin as (s0 & Hv & Hs0). rewrite <- Hv. apply Hval; [assumption|].
    unfold score_values in Hv. congruence.
Qed.

Lemma fold_upsert_same (now : str) (df : list Agg.row) (l : list Score.row) :
  (forall r, In r df -> recorded r l) ->
  map score_values (fold_left (upsert_score now) df l) = map score_values l.
Proof.
  revert l. induction df as [|r df IH]; intros l Hrec; simpl; [reflexivity|].
  assert (E : map score_values (upsert_score now l r) = map score_values l).
  { apply upsert_score_same, Hrec. now left. }
  rewrite IH; [assumption|].
  intros r' Hr'. apply (recorded_values r' l); [now symmetry|]. apply Hrec. now right.
Qed.

(** C4. [calculate_scores] run twice, nothing else in between, returns the
    same data frame both times and leaves in [scores] the same participants
    with the same total points and correct picks (the time of the update is
    all that differs); picks and snapshots are untouched. *)
Theorem calculate_scores_idempotent (now1 now2 : str) (d : db) :
  let run1 := calculate_scores now1 d in
  let run2 := calculate_scores now2 (snd run1) in
  fst run2 = fst run1
  /\ map score_values (scores (snd run2)) = map score_values (scores (snd run1))
  /\ picks (snd run2) = picks d
  /\ market_snapshots (snd run2) = market_snapshots d.
Proof.
  cbv zeta. repeat split.
  unfold calculate_scores. simpl.
  change (scores_query (mkdb (picks d) (picks_seq d) (market_snapshots d)
                             (market_snapshots_seq d)
                             (fold_left (upsert_score now1) (scores_query d) (scores d))))
    with (scores_query d).
  apply fold_upsert_same. intros r Hr.
  apply fold_upsert_recorded; [apply scores_query_NoDup|assumption].
Qed.

(** ** The matcher and the language of its pattern *)

(** What a pattern matches: [Matches pat s r] when [s] is a string of the
    pattern followed by [r]. *)
Fixpoint Matches (pat : list item) (s r : str) : Prop :=
  match pat with
  | [] => s = r
  | Char p :: pat' =>
      exists c s', s = c :: s' /\ p c = true /\ Matches pat' s' r
  | Star p :: pat' =>
      exists w s', s = w ++ s' /\ forallb p w = true /\ Matches pat' s' r
  | Plus p :: pat' =>
      exists c w s', s = c :: w ++ s' /\ p c = true /\ forallb p w = true
                     /\ Matches pat' s' r
  | Opt p :: pat' =>
      (exists c s', s = c :: s' /\ p c = true /\ Matches pat' s' r)
      \/ Matches pat' s r
  | Eos :: pat' => at_eos s = true /\ Matches pat' s r
  end.

Lemma match_here_Plus (p : N -> bool) (pat : list item) (c : N) (s : str) :
  match_here (Plus p :: pat) (c :: s) =
  if p c then match_here (Star p :: pat) s else None.
Proof. reflexivity. Qed.

Lemma match_here_Star (p : N -> bool) (pat : list item) (s : str) :
  match_here (Star p :: pat) s =
  match s with
  | c :: s' =>
      if p c
      then match match_here (Star p :: pat) s' with
           | Some r => Some r
           | None => match_here pat s
           end
      else match_here pat s
  | [] => match_here pat s
  end.
Proof. destruct s; reflexivity. Qed.

Lemma match_here_Star_sound (p : N -> bool) (pat : list item) (s r : str) :
  match_here (Star p :: pat) s = Some r ->
  exists w s', s = w ++ s' /\ forallb p w = true /\ match_here pat s' = Some r.
Proof.
  induction s as [|c s IH]; rewrite match_here_Star.
  - intros H. now exists [], [].
  - destruct (p c) eqn:Ep; [|intros H; now exists [], (c :: s)].
    destruct (match_here (Star p :: pat) s) as [r'|] eqn:E.
    + intros H. injection H as ->.
      destruct (IH eq_refl) as (w & s' & -> & Hw & Hm).
      exists (c :: w), s'. simpl. now rewrite Ep, Hw.
    + intros H. now exists [], (c :: s).
Qed.

Lemma match_here_Star_complete (p : N -> bool) (pat : list item) (w s : str) :
  forallb p w = true -> match_here pat s <> None ->
  match_here (Star p :: pat) (w ++ s) <> None.
Proof.
  intros Hw Hm. induction w as [|c w IH]; simpl app; rewrite match_here_Star.
  - destruct s as [|c s]; [assumption|].
    destruct (p c); [|assumption].
    destruct (match_here (Star p :: pat) s); [discriminate|assumption].
  - simpl in Hw. apply andb_true_iff in Hw as [Hc Hw]. rewrite Hc.
    destruct (match_here (Star p :: pat) (w ++ s)); [discriminate|].
    exfalso. now apply IH.
Qed.

(** The matcher finds only matches ... *)
Lemma match_here_sound (pat : list item) (s r : str) :
  match_here pat s = Some r -> Matches pat s r.
Proof.
  revert s. induction pat as [|[p|p|p|p|] pat IH]; intros s H.
  - simpl in H. now injection H.
  - destruct s as [|c s]; simpl in H; [discriminate|].
    destruct (p c) eqn:Ep; [|discriminate].
    exists c, s. auto.
  - apply match_here_Star_sound in H as (w & s' & -> & Hw & Hm).
    exists w, s'. auto.
  - destruct s as [|c s]; [discriminate|].
    rewrite match_here_Plus in H. destruct (p c) eqn:Ep; [|discriminate].
    apply match_here_Star_sound in H as (w & s' & -> & Hw & Hm).
    exists c, w, s'. auto.
  - destruct s as [|c s]; simpl in H; [right; auto|].
    destruct (p c) eqn:Ep; [|right; auto].
    destruct (match_here pat s) as [r'|] eqn:E; [|right; auto].
    injection H as ->. left. exists c, s. auto.
  - simpl in H. destruct (at_eos s) eqn:E; [|discriminate]. split; auto.
Qed.

(** ... and finds one wherever there is one. *)
Lemma match_here_complete (pat : list item) (s r : str) :
  Matches pat s r -> match_here pat s <> None.
Proof.
  revert s. induction pat as [|[p|p|p|p|] pat IH]; intros s H.
  - discriminate.
  - destruct H as (c & s' & -> & Hc & H). simpl. rewrite Hc. now apply IH.
  - destruct H as (w & s' & -> & Hw & H).
    apply match_here_Star_complete; [assumption|now apply IH].
  - destruct H as (c & w & s' & -> & Hc & Hw & H).
    rewrite match_here_Plus, Hc.
    apply match_here_Star_complete; [assumption|now apply IH].
  - destruct H as [(c & s' & -> & Hc & H)|H].
    + simpl. rewrite Hc. apply IH in H.
      destruct (match_here pat s'); [discriminate|contradiction].
    + apply IH in H. destruct s as [|c s]; simpl; [assumption|].
      destruct (p c); [|assumption].
      destruct (match_here pat s); [discriminate|assumption].
  - destruct H as [He H]. simpl. rewrite He. now apply IH.
Qed.

(** What follows a match is an end of the string matched. *)
Lemma Matches_suffix (pat : list item) (s r : str) :
  Matches pat s r -> exists m, s = m ++ r.
Proof.
  revert s. induction pat as [|[p|p|p|p|] pat IH]; intros s H.
  - exists []. exact H.
  - destruct H as (c & s' & -> & _ & H). apply IH in H as [m ->]. now exists (c :: m).
  - destruct H as (w & s' & -> & _ & H). apply IH in H as [m ->].
    exists (w ++ m). now rewrite app_assoc.
  - destruct H as (c & w & s' & -> & _ & _ & H). apply IH in H as [m ->].
    exists (c :: w ++ m). simpl. now rewrite app_assoc.
  - destruct H as [(c & s' & -> & _ & H)|H].
    + apply IH in H as [m ->]. now exists (c :: m).
    + now apply IH.
  - destruct H as [_ H]. now apply IH.
Qed.

(** ** Stripping white space *)

Lemma lstrip_ws_app (w s : str) :
  forallb isspace w = true -> lstrip (w ++ s) = lstrip s.
Proof.
  induction w as [|c w IH]; simpl; [reflexivity|].
  intros H. apply andb_true_iff in H as [Hc Hw]. rewrite Hc. now apply IH.
Qed.

Lemma lstrip_app_ws (s w : str) :
  forallb isspace w = true ->
  lstrip (s ++ w) = match lstrip s with [] => [] | l => l ++ w end.
Proof.
  intros Hw. induction s as [|c s IH]; simpl.
  - rewrite <- (app_nil_r w). now rewrite lstrip_ws_app.
  - destruct (isspace c); [assumption|reflexivity].
Qed.

Lemma forallb_rev {A : Type} (f : A -> bool) (l : list A) :
  forallb f (rev l) = forallb f l.
Proof.
  induction l as [|x l IH]; simpl; [reflexivity|].
  rewrite forallb_app, IH. simpl. rewrite andb_true_r. apply andb_comm.
Qed.

Lemma rstrip_app_ws (s w : str) :
  forallb isspace w = true -> rstrip (s ++ w) = rstrip s.
Proof.
  intros Hw. unfold rstrip. rewrite rev_app_distr, lstrip_ws_app; [reflexivity|].
  now rewrite forallb_rev.
Qed.

(** White space at the end of a string is nothing to [strip]. *)
Lemma strip_app_ws (s w : str) :
  forallb isspace w = true -> strip (s ++ w) = strip s.
Proof.
  intros Hw. unfold strip. rewrite lstrip_app_ws by assumption.
  destruct (lstrip s) as [|c l]; [reflexivity|]. now apply rstrip_app_ws.
Qed.

(** ** The point suffix (C7) *)

(** What may follow the dash of a point suffix: white space, digits (one at
    least), white space, the word [point] with its initial in either case
    and with or without a final [s], white space. *)
Definition points_tail (tail : str) : Prop :=
  exists w2 n w3 p plural w4,
    tail = w2 ++ n ++ w3 ++ p :: u "oint" ++ plural ++ w4
    /\ forallb isspace w2 = true
    /\ n <> [] /\ forallb isdecimal n = true
    /\ forallb isspace w3 = true
    /\ (p = 80 \/ p = 112)%N
    /\ (plural = [] \/ plural = u "s")
    /\ forallb isspace w4 = true.

(** A point suffix: white space, a dash (em dash, en dash or hyphen) and
    such a tail. *)
Definition points_suffix (s : str) : Prop :=
  exists w1 d tail,
    s = w1 ++ d :: tail /\ forallb isspace w1 = true /\ is_dash d = true
    /\ points_tail tail.

Definition no_dash (s : str) : bool := forallb (fun c => negb (is_dash c)) s.

Lemma is_dash_cases (c : N) :
  is_dash c = true -> (c = 8212 \/ c = 8211 \/ c = 45)%N.
Proof.
  unfold is_dash. rewrite !orb_true_iff, !N.eqb_eq. tauto.
Qed.

Lemma isspace_not_dash (c : N) : isspace c = true -> is_dash c = false.
Proof.
  intros H. destruct (is_dash c) eqn:E; [|reflexivity].
  apply is_dash_cases in E as [->|[->| ->]]; vm_compute in H; discriminate.
Qed.

Lemma isdecimal_not_dash (c : N) : isdecimal c = true -> is_dash c = false.
Proof.
  intros H. destruct (is_dash c) eqn:E; [|reflexivity].
  apply is_dash_cases in E as [->|[->| ->]]; vm_compute in H; discriminate.
Qed.

Lemma forallb_impl {A : Type} (f g : A -> bool) (l : list A) :
  (forall x, f x = true -> g x = true) -> forallb f l = true -> forallb g l = true.
Proof.
  intros Hfg. rewrite !forallb_forall. auto.
Qed.

Lemma isspace_no_dash (w : str) : forallb isspace w = true -> no_dash w = true.
Proof.
  apply forallb_impl. intros c H. now rewrite isspace_not_dash.
Qed.

Lemma isdecimal_no_dash (n : str) : forallb isdecimal n = true -> no_dash n = true.
Proof.
  apply forallb_impl. intros c H. now rewrite isdecimal_not_dash.
Qed.

Lemma points_tail_no_dash (tail : str) : points_tail tail -> no_dash tail = true.
Proof.
  intros (w2 & n & w3 & p & plural & w4 & -> & Hw2 & _ & Hn & Hw3 & Hp & Hs & Hw4).
  apply isspace_no_dash in Hw2, Hw3, Hw4. apply isdecimal_no_dash in Hn.
  unfold no_dash in *.
  destruct Hp as [-> | ->], Hs as [-> | ->];
    rewrite !forallb_app; simpl; rewrite ?forallb_app, Hw2, Hn, Hw3, Hw4;
    reflexivity.
Qed.

Lemma one_of_1 (a : ascii) (c : N) :
  one_of (String a EmptyString) c = true -> c = N_of_ascii a.
Proof.
  unfold one_of. simpl. rewrite orb_false_r. apply N.eqb_eq.
Qed.

Lemma at_eos_cases (r : str) : at_eos r = true -> r = [] \/ r = [10%N].
Proof.
  destruct r as [|c [|c' r]]; simpl; [now left| |discriminate].
  intros H. apply N.eqb_eq in H. subst. now right.
Qed.

(** The strings of the pattern are the point suffixes. *)
Lemma Matches_points_suffix (s r : str) :
  Matches _POINTS_SUFFIX s r ->
  exists w1 d m,
    s = w1 ++ d :: m ++ r /\ forallb isspace w1 = true /\ is_dash d = true
    /\ points_tail (m ++ r) /\ (r = [] \/ r = [10%N]).
Proof.
  unfold _POINTS_SUFFIX. cbn [Matches].
  intros (w1 & s1 & -> & Hw1 & d & s2 & -> & Hd & w2 & s3 & -> & Hw2
          & c & n & s4 & -> & Hc & Hn & w3 & s5 & -> & Hw3
          & p & s6 & -> & Hp & co & s7 & -> & Ho & ci & s8 & -> & Hi
          & cn & s9 & -> & Hcn & ct & s10 & -> & Ht & Hopt).
  apply one_of_1 in Ho, Hi, Hcn, Ht. subst co ci cn ct.
  assert (Hp' : (p = 80 \/ p = 112)%N).
  { unfold one_of in Hp. simpl in Hp. rewrite orb_false_r in Hp.
    apply orb_true_iff in Hp. rewrite !N.eqb_eq in Hp. exact Hp. }
  assert (Hrest : exists plural w4,
             s10 = plural ++ w4 ++ r /\ (plural = [] \/ plural = u "s")
             /\ forallb isspace w4 = true /\ at_eos r = true).
  { destruct Hopt as [(cs & s11 & -> & Hs & w4 & s12 & -> & Hw4 & He & ->)
                     |(w4 & s12 & -> & Hw4 & He & ->)].
    - apply one_of_1 in Hs. subst cs. exists (u "s"), w4. auto.
    - exists [], w4. auto. }
  destruct Hrest as (plural & w4 & -> & Hs & Hw4 & He).
  assert (Hr : forallb isspace r = true).
  { apply at_eos_cases in He as [-> | ->]; reflexivity. }
  exists w1, d, (w2 ++ (c :: n) ++ w3 ++ p :: u "oint" ++ plural ++ w4).
  repeat split; auto.
  - repeat (rewrite <- app_assoc || rewrite <- app_comm_cons). reflexivity.
  - exists w2, (c :: n), w3, p, plural, (w4 ++ r). repeat split; auto.
    + repeat (rewrite <- app_assoc || rewrite <- app_comm_cons). reflexivity.
    + discriminate.
    + simpl. now rewrite Hc, Hn.
    + now rewrite forallb_app, Hw4, Hr.
  - now apply at_eos_cases.
Qed.

Lemma points_suffix_Matches (w1 : str) (d : N) (tail : str) :
  forallb isspace w1 = true -> is_dash d = true -> points_tail tail ->
  Matches _POINTS_SUFFIX (w1 ++ d :: tail) [].
Proof.
  intros Hw1 Hd (w2 & n & w3 & p & plural & w4 & -> & Hw2 & Hne & Hn & Hw3 & Hp & Hs & Hw4).
  destruct n as [|c n]; [contradiction|].
  simpl in Hn. apply andb_true_iff in Hn as [Hc Hn].
  unfold _POINTS_SUFFIX. cbn [Matches].
  exists w1, (d :: w2 ++ (c :: n) ++ w3 ++ p :: u "oint" ++ plural ++ w4).
  repeat split; auto.
  exists d, (w2 ++ (c :: n) ++ w3 ++ p :: u "oint" ++ plural ++ w4).
  repeat split; auto.
  exists w2, ((c :: n) ++ w3 ++ p :: u "oint" ++ plural ++ w4).
  repeat split; auto.
  exists c, n, (w3 ++ p :: u "oint" ++ plural ++ w4).
  repeat split; auto.
  exists w3, (p :: u "oint" ++ plural ++ w4).
  repeat split; auto.
  exists p, (u "oint" ++ plural ++ w4).
  repeat split; [destruct Hp as [-> | ->]; reflexivity|].
  exists 111%N, (u "int" ++ plural ++ w4). repeat split.
  exists 105%N, (u "nt" ++ plural ++ w4). repeat split.
  exists 110%N, (u "t" ++ plural ++ w4). repeat split.
  exists 116%N, (plural ++ w4). repeat split.
  destruct Hs as [-> | ->].
  - right. exists w4, []. rewrite app_nil_r. repeat split; auto.
  - left. exists 115%N, w4. repeat split.
    exists w4, []. rewrite app_nil_r. repeat split; auto.
Qed.

(** A string has one last dash. *)
Lemma last_dash_unique (x x' : str) (d d' : N) (t t' : str) :
  x ++ d :: t = x' ++ d' :: t' ->
  is_dash d = true -> is_dash d' = true -> no_dash t = true -> no_dash t' = true ->
  x = x'.
Proof.
  intros E Hd Hd' Ht Ht'. revert x' E.
  induction x as [|c x IH]; intros [|c' x'] E; simpl in E.
  - reflexivity.
  - injection E as -> ->. unfold no_dash in Ht. rewrite forallb_app in Ht. simpl in Ht.
    rewrite Hd' in Ht. simpl in Ht. rewrite andb_false_r in Ht. discriminate.
  - injection E as <- <-. unfold no_dash in Ht'. rewrite forallb_app in Ht'. simpl in Ht'.
    rewrite Hd in Ht'. simpl in Ht'. rewrite andb_false_r in Ht'. discriminate.
  - injection E as -> E. f_equal. now apply IH.
Qed.

(** ** Substitution of the suffix *)

Lemma sub_empty_0 (pat : list item) (c : N) (s : str) :
  sub_empty pat 0 (c :: s) =
  match match_here pat (c :: s) with
  | Some rest =>
      match (List.length (c :: s) - List.length rest)%nat with
      | S k => sub_empty pat k s
      | O => c :: sub_empty pat 0 s
      end
  | None => c :: sub_empty pat 0 s
  end.
Proof. reflexivity. Qed.

Lemma sub_empty_skip (pat : list item) (a b : str) :
  sub_empty pat (List.length a) (a ++ b) = sub_empty pat 0 b.
Proof.
  induction a as [|c a IH]; simpl; [|assumption].
  destruct b; reflexivity.
Qed.

(** Where the pattern matches, the substitution leaves what follows the
    match: nothing, or the newline that ends the string. *)
Lemma sub_empty_found (c : N) (s r : str) :
  match_here _POINTS_SUFFIX (c :: s) = Some r ->
  sub_empty _POINTS_SUFFIX 0 (c :: s) = r /\ (r = [] \/ r = [10%N]).
Proof.
  intros H. rewrite sub_empty_0, H.
  apply match_here_sound, Matches_points_suffix in H
    as (w1 & d & m & E & _ & _ & _ & Hr).
  split; [|assumption].
  assert (Hm : exists m', s = m' ++ r
                          /\ (List.length (c :: s) - List.length r)%nat = S (List.length m')).
  { destruct w1 as [|c1 w1]; simpl in E; injection E as -> ->.
    - exists m. split; [reflexivity|]. cbn [List.length]. rewrite length_app. lia.
    - exists (w1 ++ d :: m). split; [now rewrite <- app_assoc|].
      cbn [List.length]. rewrite !length_app. cbn [List.length].
      rewrite length_app. lia. }
  destruct Hm as (m' & -> & ->). rewrite sub_empty_skip.
  destruct Hr as [-> | ->]; reflexivity.
Qed.

(** Before the last dash of a string that ends in a point suffix, the
    substitution drops white space and nothing else. *)
Lemma sub_empty_scan (x : str) (d : N) (tail : str) :
  is_dash d = true -> points_tail tail ->
  exists a w r,
    x = a ++ w /\ forallb isspace w = true /\ forallb isspace r = true
    /\ sub_empty _POINTS_SUFFIX 0 (x ++ d :: tail) = a ++ r.
Proof.
  intros Hd Htail.
  assert (Hws : forall r : str, r = [] \/ r = [10%N] -> forallb isspace r = true).
  { intros r [-> | ->]; reflexivity. }
  induction x as [|c x (a & w & r & Ex & Hw & Hr & IH)].
  - destruct (match_here _POINTS_SUFFIX ([] ++ d :: tail)) as [r|] eqn:E.
    + apply sub_empty_found in E as [E Hr]. exists [], [], r. repeat split; auto.
    + exfalso. revert E. apply (match_here_complete _ _ []).
      now apply points_suffix_Matches.
  - destruct (match_here _POINTS_SUFFIX ((c :: x) ++ d :: tail)) as [r'|] eqn:E.
    + pose proof E as E'. apply sub_empty_found in E' as [E' Hr'].
      apply match_here_sound, Matches_points_suffix in E
        as (w1 & d' & m & E & Hw1 & Hd' & Htail' & _).
      apply last_dash_unique in E; auto using points_tail_no_dash.
      rewrite <- E in Hw1. exists [], (c :: x), r'. repeat split; auto.
    + exists (c :: a), w, r. simpl app in E |- *. rewrite sub_empty_0, E, IH, Ex.
      repeat split; auto.
Qed.

(** Where the pattern matches nowhere, the substitution changes nothing. *)
Lemma sub_empty_none (pat : list item) (s : str) :
  (forall pre suf, s = pre ++ suf -> match_here pat suf = None) ->
  sub_empty pat 0 s = s.
Proof.
  induction s as [|c s IH]; intros H; [reflexivity|].
  rewrite sub_empty_0, (H [] (c :: s) eq_refl). f_equal.
  apply IH. intros pre suf ->. now apply (H (c :: pre)).
Qed.

(** The ends of a string, the string itself first. *)
Fixpoint tails (s : str) : list str :=
  s :: match s with [] => [] | _ :: s' => tails s' end.

Lemma tails_In (pre suf : str) : In suf (tails (pre ++ suf)).
Proof.
  induction pre as [|c pre IH]; simpl.
  - destruct suf; now left.
  - now right.
Qed.

(** No end of [raw] is matched by the pattern. *)
Definition unmatched (raw : str) : bool :=
  forallb (fun suf => match match_here _POINTS_SUFFIX suf with
                      | Some _ => false
                      | None => true
                      end) (tails raw).

Lemma unmatched_no_suffix (raw : str) :
  unmatched raw = true ->
  forall pre suf, raw = pre ++ suf -> ~ points_suffix suf.
Proof.
  intros H pre suf -> (w1 & d & tail & -> & Hw1 & Hd & Htail).
  unfold unmatched in H. rewrite forallb_forall in H.
  specialize (H _ (tails_In pre (w1 ++ d :: tail))).
  apply (match_here_complete _ _ [] (points_suffix_Matches w1 d tail Hw1 Hd Htail)).
  destruct (match_here _POINTS_SUFFIX (w1 ++ d :: tail)); [discriminate|reflexivity].
Qed.

(** C7, as the code has it. A point suffix at the end of the input is
    dropped, with the white space before it, and the rest is stripped of
    white space at both ends; the word [point] or [points] is part of the
    suffix, so an input that ends in a dash and digits alone has no suffix.
    An input no end of which is a point suffix is only stripped of white
    space. [resolve_pick] is the alias of the result when it has one and the
    result itself when it has none. *)
Theorem strip_points_label_spec :
  (forall pre suf : str,
     points_suffix suf -> strip_points_label (pre ++ suf) = strip pre)
  /\ (forall raw : str,
        (forall pre suf, raw = pre ++ suf -> ~ points_suffix suf) ->
        strip_points_label raw = strip raw)
  /\ (forall raw : str,
        resolve_pick raw =
        match dict_get ALIASES (strip_points_label raw) with
        | Some canonical => canonical
        | None => strip_points_label raw
        end).
Proof.
  split; [|split].
  - intros pre suf (w1 & d & tail & -> & Hw1 & Hd & Htail).
    unfold strip_points_label. rewrite app_assoc.
    destruct (sub_empty_scan (pre ++ w1) d tail Hd Htail)
      as (a & w & r & Ex & Hw & Hr & ->).
    rewrite (strip_app_ws a r Hr), <- (strip_app_ws a w Hw), <- Ex.
    now apply strip_app_ws.
  - intros raw H. unfold strip_points_label.
    rewrite sub_empty_none; [reflexivity|].
    intros pre suf E.
    destruct (match_here _POINTS_SUFFIX suf) as [r|] eqn:Em; [exfalso|reflexivity].
    apply match_here_sound, Matches_points_suffix in Em
      as (w1 & d & m & Es & Hw1 & Hd & Ht & _).
    apply (H pre suf E). now exists w1, d, (m ++ r).
  - reflexivity.
Qed.

(** An alias with its points after an em dash, and an option with a number
    and no word after a hyphen. *)
Lemma strip_points_label_spec_witness :
  strip_points_label (u "Marco Rubio" ++ u " " ++ [8212%N] ++ u " 31 Points")
  = u "Marco Rubio"
  /\ resolve_pick (u "Marco Rubio" ++ u " " ++ [8212%N] ++ u " 31 Points")
     = u "Marco / Rubio"
  /\ strip_points_label (u "Trillion - 7") = strip (u "Trillion - 7").
Proof.
  destruct strip_points_label_spec as (Hsuffix & Hnone & Halias).
  split; [|split].
  - apply (Hsuffix (u "Marco Rubio") (u " " ++ [8212%N] ++ u " 31 Points")).
    exists (u " "), 8212%N, (u " 31 Points"). repeat split.
    exists (u " "), (u "31"), (u " "), 80%N, (u "s"), [].
    repeat split; auto. discriminate.
  - rewrite Halias. vm_compute. reflexivity.
  - apply Hnone. apply unmatched_no_suffix. vm_compute. reflexivity.
Defined.

(** The suffix as the specification words it: the word after the digits
    may be missing. *)
Definition spec_points_suffix (s : str) : Prop :=
  exists w1 d w2 n word w3,
    s = w1 ++ d :: w2 ++ n ++ word ++ w3
    /\ forallb isspace w1 = true /\ is_dash d = true
    /\ forallb isspace w2 = true
    /\ n <> [] /\ forallb isdecimal n = true
    /\ (word = [] \/ word = u "points" \/ word = u "point")
    /\ forallb isspace w3 = true.

(** A dash and digits without the word are such a suffix, and
    [strip_points_label] keeps them, so that the option before them is not
    recognized. *)
Lemma strip_points_label_keeps_bare_number :
  spec_points_suffix (u " - 7")
  /\ strip_points_label (u "Trillion" ++ u " - 7") = u "Trillion - 7"
  /\ resolve_pick (u "Trillion" ++ u " - 7") = u "Trillion - 7"
  /\ validate_pick (u "Trillion" ++ u " - 7") = (None, 0, u "Trillion - 7")
  /\ validate_pick (u "Trillion") = (Some (u "say"), 7, u "Trillion").
Proof.
  split.
  - exists (u " "), 45%N, (u " "), (u "7"), [], []. repeat split; auto. discriminate.
  - repeat split; vm_compute; reflexivity.
Qed.

(** ** Locking picks (C9) *)

(** What [validate_pick] returns for an option it knows. *)
Lemma validate_pick_found (pick category canonical : str) (pts : Z) :
  validate_pick pick = (Some category, pts, canonical) ->
  canonical = resolve_pick pick
  /\ ((category = u "say" /\ dict_get SAY_POINTS canonical = Some pts)
      \/ (category = u "mention" /\ dict_get MENTION_POINTS canonical = Some pts)).
Proof.
  unfold validate_pick, dict_mem, get_or. cbv zeta.
  destruct (dict_get SAY_POINTS (resolve_pick pick)) as [v|] eqn:Es.
  - intros H. injection H as <- <- <-. auto.
  - destruct (dict_get MENTION_POINTS (resolve_pick pick)) as [v|] eqn:Em.
    + intros H. injection H as <- <- <-. auto.
    + discriminate.
Qed.

(** A blank cell, or the [nan] of a missing one. *)
Definition placeholder (raw_val : str) : bool :=
  str_eqb raw_val (u "") || str_eqb (lower raw_val) (u "nan").

Definition classified (raw_val : str) : bool :=
  match validate_pick raw_val with
  | (Some _, _, _) => true
  | (None, _, _) => false
  end.

Definition name_of (df : DataFrame) (row : list str) : str :=
  strip (row_get df row (find_col df (u "name") (u "name"))).

Definition timestamp_of (df : DataFrame) (row : list str) : str :=
  row_get df row (find_col df (u "time") (u "timestamp")).

Definition pick_cols (df : DataFrame) : list str :=
  sorted (filter (fun c => contains (u "pick") (lower c)) (columns df)).

(** The pick cells of the rows that have a name, row by row and in the order
    of the pick columns: each with the timestamp and the name of its row,
    and stripped. *)
Definition pick_cells (df : DataFrame) : list (str * str * str) :=
  flat_map
    (fun row =>
       map (fun col => (timestamp_of df row, name_of df row, strip (row_get df row col)))
           (pick_cols df))
    (filter (fun row => negb (str_eqb (name_of df row) (u ""))) (rows df)).

(** The cells that hold an option. *)
Definition accepted_cell (c : str * str * str) : bool :=
  negb (placeholder (snd c)) && classified (snd c).

Definition accepted (df : DataFrame) : list (str * str * str) :=
  filter accepted_cell (pick_cells df).

(** The row stored for an accepted cell, under the rowid [i]. *)
Definition locked_pick (title_to_ticker : dict (dict str)) (now : str) (i : Z)
    (c : str * str * str) : Pick.row :=
  let '(ts, name, raw_val) := c in
  let '(category, pts, canonical) := validate_pick raw_val in
  let label := COALESCE category (u "") in
  Pick.mk i ts name canonical pts
    (Some (get_or (get_or title_to_ticker label []) canonical (u "")))
    (Some (get_or EVENT_TICKERS label (u ""))) now.

(** The rows stored for a list of accepted cells, under the rowids that
    follow [seq]. *)
Fixpoint lock_rows (title_to_ticker : dict (dict str)) (now : str) (seq : Z)
    (cs : list (str * str * str)) : list Pick.row :=
  match cs with
  | [] => []
  | c :: cs' =>
      locked_pick title_to_ticker now (seq + 1) c
      :: lock_rows title_to_ticker now (seq + 1) cs'
  end.

Definition append_picks (title_to_ticker : dict (dict str)) (now : str) (d : db)
    (cs : list (str * str * str)) : db :=
  mkdb (picks d ++ lock_rows title_to_ticker now (picks_seq d) cs)
       (picks_seq d + Z.of_nat (List.length cs))
       (market_snapshots d) (market_snapshots_seq d) (scores d).

Lemma lock_rows_app (m : dict (dict str)) (now : str) (seq : Z)
    (a b : list (str * str * str)) :
  lock_rows m now seq (a ++ b) =
  lock_rows m now seq a ++ lock_rows m now (seq + Z.of_nat (List.length a)) b.
Proof.
  revert seq. induction a as [|c a IH]; intros seq.
  - simpl. now rewrite Z.add_0_r.
  - cbn [app lock_rows List.length]. rewrite IH. do 3 f_equal. lia.
Qed.

Lemma lock_rows_length (m : dict (dict str)) (now : str) (seq : Z)
    (cs : list (str * str * str)) :
  List.length (lock_rows m now seq cs) = List.length cs.
Proof.
  revert seq. induction cs as [|c cs IH]; intros seq; [reflexivity|].
  cbn [lock_rows List.length]. now rewrite IH.
Qed.

Lemma append_picks_nil (m : dict (dict str)) (now : str) (d : db) :
  append_picks m now d [] = d.
Proof.
  destruct d. unfold append_picks. simpl. now rewrite app_nil_r, Z.add_0_r.
Qed.

Lemma append_picks_app (m : dict (dict str)) (now : str) (d : db)
    (a b : list (str * str * str)) :
  append_picks m now (append_picks m now d a) b = append_picks m now d (a ++ b).
Proof.
  unfold append_picks. simpl. rewrite lock_rows_app, <- app_assoc, length_app.
  f_equal. lia.
Qed.

Lemma save_pick_cell_append (m : dict (dict str)) (now ts name : str) (d : db)
    (cell : str) :
  save_pick_cell m now ts name d cell =
  append_picks m now d (filter accepted_cell [(ts, name, strip cell)]).
Proof.
  unfold save_pick_cell, accepted_cell, placeholder, classified. cbv zeta.
  cbn [filter snd].
  destruct (str_eqb (strip cell) (u "") || str_eqb (lower (strip cell)) (u "nan"));
    cbn [negb andb]; [now rewrite append_picks_nil|].
  destruct (validate_pick (strip cell)) as [[[category|] pts] canonical] eqn:E;
    [|now rewrite append_picks_nil].
  unfold append_picks, insert_pick. cbn [lock_rows locked_pick List.length].
  rewrite E. cbn [COALESCE]. f_equal.
Qed.

Lemma save_row_append (m : dict (dict str)) (now ts name : str) (df : DataFrame)
    (row : list str) (cols : list str) (d : db) :
  fold_left (fun d col => save_pick_cell m now ts name d (row_get df row col)) cols d =
  append_picks m now d
    (filter accepted_cell
       (map (fun col => (ts, name, strip (row_get df row col))) cols)).
Proof.
  revert d. induction cols as [|col cols IH]; intros d.
  - simpl. now rewrite append_picks_nil.
  - cbn [fold_left map]. rewrite IH, save_pick_cell_append, append_picks_app.
    now rewrite <- filter_app.
Qed.

Lemma save_picks_append (df : DataFrame) (m : dict (dict str)) (now : str) (d : db) :
  save_picks df m now d = append_picks m now d (accepted df).
Proof.
  unfold save_picks, accepted, pick_cells. cbv zeta.
  fold (pick_cols df).
  revert d. induction (rows df) as [|row rs IH]; intros d.
  - simpl. now rewrite append_picks_nil.
  - cbn [fold_left filter]. rewrite IH.
    fold (name_of df row) (timestamp_of df row).
    destruct (str_eqb (name_of df row) (u "")); cbn [negb]; [reflexivity|].
    cbn [flat_map]. rewrite filter_app, save_row_append, append_picks_app.
    reflexivity.
Qed.

(** C9, as the code has it. [save_picks] adds to [picks], under the rowids
    that follow the last one handed out, one row for each accepted cell and
    nothing else: the cells of the pick columns of the rows whose name is
    not blank, but for the blank ones, the [nan] ones and those that
    [validate_pick] does not classify. A row whose name is blank gives no
    pick at all. The row of an accepted cell has the canonical name and the
    points of its option, the ticker the map has for the canonical name
    under the option's category (the empty string when it has none) and the
    event of that category. *)
Theorem save_picks_rows (df : DataFrame) (title_to_ticker : dict (dict str))
    (now : str) (d : db) :
  save_picks df title_to_ticker now d =
    mkdb (picks d ++ lock_rows title_to_ticker now (picks_seq d) (accepted df))
         (picks_seq d + Z.of_nat (List.length (accepted df)))
         (market_snapshots d) (market_snapshots_seq d) (scores d)
  /\ List.length (picks (save_picks df title_to_ticker now d)) =
     (List.length (picks d) + List.length (accepted df))%nat
  /\ forall c : str * str * str,
       In c (accepted df) ->
       exists category pts canonical,
         validate_pick (snd c) = (Some category, pts, canonical)
         /\ negb (str_eqb (snd (fst c)) (u "")) = true
         /\ placeholder (snd c) = false
         /\ forall i, locked_pick title_to_ticker now i c =
              Pick.mk i (fst (fst c)) (snd (fst c)) canonical pts
                (Some (get_or (get_or title_to_ticker category []) canonical (u "")))
                (Some (get_or EVENT_TICKERS category (u ""))) now.
Proof.
  pose proof (save_picks_append df title_to_ticker now d) as E.
  split; [exact E|split].
  - rewrite E. unfold append_picks. cbn [picks].
    now rewrite length_app, lock_rows_length.
  - intros [[ts name] raw_val] Hc. unfold accepted in Hc.
    apply filter_In in Hc as [Hin Hacc].
    unfold accepted_cell in Hacc. cbn [snd fst] in *.
    apply andb_true_iff in Hacc as [Hph Hcl]. apply negb_true_iff in Hph.
    unfold classified in Hcl.
    destruct (validate_pick raw_val) as [[[category|] pts] canonical] eqn:Ev;
      [|discriminate].
    exists category, pts, canonical. repeat split; auto.
    + unfold pick_cells in Hin. apply in_flat_map in Hin as (row & Hrow & Hin).
      apply filter_In in Hrow as [_ Hname].
      apply in_map_iff in Hin as (col & Hcol & _). now injection Hcol as _ <- _.
    + intros i. unfold locked_pick. now rewrite Ev.
Qed.

(** An upload with its columns out of order: a row with an alias that
    carries its points and an option; a row without a name; a row with a
    missing cell and an unknown option. *)
Definition df_upload : DataFrame :=
  mkdf [u "Timestamp"; u "Your Name"; u "pick_2"; u "pick_1"]
       [ [u "2026-02-27 10:00"; u " Alice "; u "Newsom - 81 points"; u "Trillion"];
         [u "2026-02-27 10:05"; u "  "; u "Biden"; u "Putin"];
         [u "2026-02-27 10:10"; u "Bob"; u "nan"; u "Bogus"] ].

Definition say_tickers : dict (dict str) :=
  [(u "say", [(u "Trillion", u "KXTRUMPMENTION-26FEB28-TRIL")])].

Lemma save_picks_rows_witness :
  picks (save_picks df_upload say_tickers (u "2026-02-27T12:00:00+00:00") init_db)
  = [ Pick.mk 1 (u "2026-02-27 10:00") (u "Alice") (u "Trillion") 7
        (Some (u "KXTRUMPMENTION-26FEB28-TRIL")) (Some (u "KXTRUMPMENTION-26FEB28"))
        (u "2026-02-27T12:00:00+00:00");
      Pick.mk 2 (u "2026-02-27 10:00") (u "Alice") (u "Newsom / Newscum") 81
        (Some (u "")) (Some (u "KXTRUMPMENTION-26MAR02"))
        (u "2026-02-27T12:00:00+00:00") ].
Proof.
  rewrite (proj1 (save_picks_rows df_upload say_tickers
                    (u "2026-02-27T12:00:00+00:00") init_db)).
  vm_compute. reflexivity.
Defined.

(** A row without a name and with an option in its pick column: the option
    is classified, and nothing is stored. *)
Definition df_blank_name : DataFrame :=
  mkdf [u "timestamp"; u "name"; u "pick_1"]
       [ [u "2026-02-27 10:05"; u "  "; u "Biden"] ].

Lemma save_picks_skips_unnamed_row :
  validate_pick (u "Biden") = (Some (u "mention"), 8, u "Biden")
  /\ placeholder (u "Biden") = false
  /\ picks (save_picks df_blank_name [] (u "2026-02-27T12:00:00+00:00") init_db) = [].
Proof. repeat split; vm_compute; reflexivity. Qed.

(** ** The columns of a stored pick that never change (C8) *)

(** Every column of a pick but [market_ticker] and [event_ticker]. *)
Definition frozen_columns (p : Pick.row) : Z * str * str * str * Z * str :=
  (Pick.id p, Pick.timestamp p, Pick.name p, Pick.pick p, Pick.points p,
   Pick.locked_at p).

Lemma update_tickers_frozen (ticker et : str) (i : Z) (l : list Pick.row) :
  map frozen_columns (update_tickers ticker et i l) = map frozen_columns l.
Proof.
  unfold update_tickers. rewrite map_map. apply map_ext. intros p.
  now destruct (Pick.id p =? i).
Qed.

Lemma backfill_tickers_frozen (m : dict (dict str)) (d : db) :
  map frozen_columns (picks (backfill_tickers m d)) = map frozen_columns (picks d).
Proof.
  unfold backfill_tickers. cbn [picks].
  generalize (filter (fun p => falsy (Pick.market_ticker p)) (picks d)) as fetched.
  generalize (picks d) as l.
  intros l fetched. revert l. induction fetched as [|r fetched IH]; intros l;
    [reflexivity|].
  cbn [fold_left]. rewrite IH.
  destruct (backfill_find m r EVENT_TICKERS) as [[ticker et]|]; [|reflexivity].
  apply update_tickers_frozen.
Qed.

Lemma save_snapshot_picks (markets : list market) (now : str) (d : db) :
  picks (fold_left (insert_snapshot now) markets d) = picks d
  /\ scores (fold_left (insert_snapshot now) markets d) = scores d
  /\ picks_seq (fold_left (insert_snapshot now) markets d) = picks_seq d.
Proof.
  revert d. induction markets as [|m markets IH]; intros d; [auto|].
  cbn [fold_left]. destruct (IH (insert_snapshot now d m)) as (-> & -> & ->). auto.
Qed.

(** The points of the rows [lock_rows] stores are those of the option
    tables. *)
Lemma lock_rows_points (m : dict (dict str)) (now : str) (seq : Z)
    (cs : list (str * str * str)) :
  Forall (fun c => accepted_cell c = true) cs ->
  Forall (fun p => dict_get SAY_POINTS (Pick.pick p) = Some (Pick.points p)
                   \/ dict_get MENTION_POINTS (Pick.pick p) = Some (Pick.points p))
         (lock_rows m now seq cs).
Proof.
  revert seq. induction cs as [|[[ts name] raw_val] cs IH]; intros seq Hacc;
    [constructor|].
  inversion Hacc as [|? ? Hc Hcs]; subst. cbn [lock_rows]. constructor; [|now apply IH].
  unfold accepted_cell, classified in Hc. cbn [snd] in Hc.
  apply andb_true_iff in Hc as [_ Hc]. unfold locked_pick.
  destruct (validate_pick raw_val) as [[[category|] pts] canonical] eqn:E;
    [|discriminate].
  apply validate_pick_found in E as [_ [[_ E]|[_ E]]]; cbn [Pick.pick Pick.points];
    [left|right]; exact E.
Qed.

(** C8. The points of a pick are set when it is stored, to the value its
    option has in the tables, and nothing changes them afterwards:
    [save_picks] keeps the rows there are and adds, for every accepted cell
    of the upload, the row with the canonical name of the cell's option and
    the points the tables give that name; [backfill_tickers] leaves every
    column but [market_ticker] and [event_ticker] as it was;
    [calculate_scores] and [save_snapshot] leave the table of picks as it
    was. *)
Theorem points_frozen (d : db) :
  (forall (df : DataFrame) (title_to_ticker : dict (dict str)) (now : str),
     picks (save_picks df title_to_ticker now d)
     = picks d ++ lock_rows title_to_ticker now (picks_seq d) (accepted df)
     /\ Forall (fun p => dict_get SAY_POINTS (Pick.pick p) = Some (Pick.points p)
                         \/ dict_get MENTION_POINTS (Pick.pick p) = Some (Pick.points p))
               (lock_rows title_to_ticker now (picks_seq d) (accepted df))
     /\ forall (c : str * str * str) (i : Z),
          In c (accepted df) ->
          exists category pts canonical,
            validate_pick (snd c) = (Some category, pts, canonical)
            /\ Pick.pick (locked_pick title_to_ticker now i c) = canonical
            /\ Pick.points (locked_pick title_to_ticker now i c) = pts
            /\ (dict_get SAY_POINTS canonical = Some pts
                \/ dict_get MENTION_POINTS canonical = Some pts))
  /\ (forall title_to_ticker : dict (dict str),
        map frozen_columns (picks (backfill_tickers title_to_ticker d))
        = map frozen_columns (picks d))
  /\ (forall now : str,
        picks (snd (calculate_scores now d)) = picks d
        /\ market_snapshots (snd (calculate_scores now d)) = market_snapshots d)
  /\ (forall (markets : list market) (now : str),
        match save_snapshot markets now d with
        | Some d' => picks d' = picks d
        | None => True
        end).
Proof.
  split; [|split; [|split]].
  - intros df m now. split; [|split].
    + now rewrite save_picks_append.
    + apply lock_rows_points. apply Forall_forall. intros c Hc.
      unfold accepted in Hc. now apply filter_In in Hc.
    + intros [[ts name] raw_val] i Hc. unfold accepted in Hc.
      apply filter_In in Hc as [_ Hc].
      unfold accepted_cell, classified in Hc. cbn [snd] in *.
      apply andb_true_iff in Hc as [_ Hc]. unfold locked_pick.
      destruct (validate_pick raw_val) as [[[category|] pts] canonical] eqn:E;
        [|discriminate].
      exists category, pts, canonical. cbn [Pick.pick Pick.points].
      repeat split.
      apply validate_pick_found in E as [_ [[_ E]|[_ E]]]; [left|right]; exact E.
  - intros m. apply backfill_tickers_frozen.
  - intros now. split; reflexivity.
  - intros markets now. unfold save_snapshot.
    destruct (existsb (fun m => PrimFloat.is_nan (m_price m)) markets); [exact I|].
    apply save_snapshot_picks.
Qed.

(** The upload of Alice (an option, and an alias with its points) is
    locked; then the tickers are backfilled, a market is saved and the
    scores are computed: the picks read back have the points of the
    tables. *)
Definition db_after_lock : db :=
  save_picks df_upload [] (u "2026-02-27T12:00:00+00:00") init_db.

Definition db_after_finalize : db :=
  let d := backfill_tickers say_tickers db_after_lock in
  let d := match save_snapshot [mkmarket (u "KXTRUMPMENTION-26FEB28-TRIL")
                                  (u "KXTRUMPMENTION-26FEB28") (u "Trillion") 1
                                  (u "finalized") (Some (u "yes"))]
                   (u "2026-03-03T00:00:00+00:00") d with
           | Some d' => d'
           | None => d
           end in
  snd (calculate_scores (u "2026-03-03T00:01:00+00:00") d).

Lemma points_frozen_witness :
  map (fun p => (Pick.pick p, Pick.points p)) (picks db_after_lock)
  = [(u "Trillion", 7); (u "Newsom / Newscum", 81)]
  /\ map frozen_columns (picks (backfill_tickers say_tickers db_after_lock))
     = map frozen_columns (picks db_after_lock)
  /\ map (fun p => (Pick.pick p, Pick.points p, Pick.market_ticker p))
         (get_picks db_after_finalize)
     = [(u "Trillion", 7, Some (u "KXTRUMPMENTION-26FEB28-TRIL"));
        (u "Newsom / Newscum", 81, Some (u ""))]
  /\ scores db_after_finalize
     = [Score.mk (u "Alice") 7 1 (u "2026-03-03T00:01:00+00:00")].
Proof.
  destruct (points_frozen init_db) as (Hsave & _).
  destruct (Hsave df_upload [] (u "2026-02-27T12:00:00+00:00")) as (Hrows & _).
  destruct (points_frozen db_after_lock) as (_ & Hfill & _).
  split; [|split; [exact (Hfill say_tickers)|split; vm_compute; reflexivity]].
  unfold db_after_lock. rewrite Hrows. vm_compute. reflexivity.
Defined.

(** ** The join by title (C5) *)

Lemma join_on_title (p : Pick.row) (s : Snap.row) :
  Pick.market_ticker p = Some (u "") ->
  holds (join_on p s) = str_eqb (Snap.title s) (Pick.pick p).
Proof.
  intros Ht. unfold join_on. rewrite Ht. simpl.
  rewrite (str_eqb_sym (Snap.title s)).
  now destruct (str_eqb (Pick.pick p) (Snap.title s)).
Qed.

(** C5, as the code has it. A pick without a ticker is joined to every one
    of the latest snapshots that carries its title: it gives as many rows as
    there are such snapshots (and one row when there is none), so a title
    that two tickers share counts the pick twice. *)
Theorem title_join_multiplicity (ms : list Snap.row) (p : Pick.row) :
  Pick.market_ticker p = Some (u "") ->
  let matches := filter (fun s => str_eqb (Snap.title s) (Pick.pick p)) ms in
  join_pick ms p =
    match matches with
    | [] => [(p, None)]
    | _ => map (fun s => (p, Some s)) matches
    end
  /\ List.length (join_pick ms p) = Nat.max 1 (List.length matches).
Proof.
  intros Ht matches.
  assert (E : join_pick ms p =
              match matches with
              | [] => [(p, None)]
              | _ => map (fun s => (p, Some s)) matches
              end).
  { unfold join_pick, matches.
    rewrite (filter_ext (fun s => holds (join_on p s))
                        (fun s => str_eqb (Snap.title s) (Pick.pick p)));
      [now destruct (filter _ ms)|].
    intros s. now apply join_on_title. }
  split; [exact E|]. rewrite E.
  destruct matches as [|s l]; [reflexivity|]. now rewrite length_map.
Qed.

(** One pick of 8 points, stored while no ticker map was at hand, and the
    snapshot of two markets titled alike, one in each event, both resolved
    yes. *)
Definition df_biden : DataFrame :=
  mkdf [u "timestamp"; u "name"; u "pick_1"]
       [ [u "2026-02-27 10:00"; u "Alice"; u "Biden"] ].

Definition markets_biden : list market :=
  [ mkmarket (u "KXTRUMPMENTION-26FEB28-BIDE") (u "KXTRUMPMENTION-26FEB28")
      (u "Biden") 1 (u "finalized") (Some (u "yes"));
    mkmarket (u "KXTRUMPMENTION-26MAR02-BIDE") (u "KXTRUMPMENTION-26MAR02")
      (u "Biden") 1 (u "finalized") (Some (u "yes")) ].

Definition db_biden : db :=
  let d := save_picks df_biden [] (u "2026-02-27T12:00:00+00:00") init_db in
  match save_snapshot markets_biden (u "2026-03-03T00:00:00+00:00") d with
  | Some d' => d'
  | None => d
  end.

Definition pick_biden : Pick.row :=
  Pick.mk 1 (u "2026-02-27 10:00") (u "Alice") (u "Biden") 8 (Some (u ""))
          (Some (u "KXTRUMPMENTION-26MAR02")) (u "2026-02-27T12:00:00+00:00").

Lemma title_join_multiplicity_witness :
  picks db_biden = [pick_biden]
  /\ fst (calculate_scores (u "2026-03-03T00:01:00+00:00") db_biden)
     = [Agg.mk (u "Alice") 16 2 2]
  /\ List.length (get_pick_details db_biden) = 2%nat
  /\ List.length (join_pick (latest_snapshots (market_snapshots db_biden)) pick_biden)
     = 2%nat.
Proof.
  split; [vm_compute; reflexivity|].
  split; [vm_compute; reflexivity|].
  split; [vm_compute; reflexivity|].
  rewrite (proj2 (title_join_multiplicity
                    (latest_snapshots (market_snapshots db_biden)) pick_biden eq_refl)).
  vm_compute. reflexivity.
Defined.

(** ** Scores of participants without picks (C6) *)

(** C6, as the code has it. After [clear_picks], [calculate_scores] returns
    an empty data frame and writes nothing: the table of scores, and so the
    leaderboard, is what it was before the two calls. *)
Theorem clear_picks_keeps_scores (now : str) (d : db) :
  let d' := snd (calculate_scores now (clear_picks d)) in
  fst (calculate_scores now (clear_picks d)) = []
  /\ picks d' = []
  /\ scores d' = scores d
  /\ get_leaderboard d' = get_leaderboard d.
Proof. repeat split. Qed.

(** Alice's pick is stored, its market resolves yes, the scores are
    computed and the picks are cleared: the scores computed next leave
    Alice on the leaderboard. *)
Definition db_cleared : db :=
  let d := snd (calculate_scores (u "2026-03-03T00:01:00+00:00") db_biden) in
  snd (calculate_scores (u "2026-03-04T00:00:00+00:00") (clear_picks d)).

Lemma clear_picks_leaves_stale_scores :
  picks db_cleared = []
  /\ get_leaderboard db_cleared
     = [Score.mk (u "Alice") 16 2 (u "2026-03-03T00:01:00+00:00")].
Proof. split; vm_compute; reflexivity. Qed.

(** ** Backfill, row by row *)

Definition set_tickers (ticker et : str) (p : Pick.row) : Pick.row :=
  Pick.mk (Pick.id p) (Pick.timestamp p) (Pick.name p) (Pick.pick p)
          (Pick.points p) (Some ticker) (Some et) (Pick.locked_at p).

(** What [backfill_tickers] makes of one pick: a pick without ticker gets
    the ticker and the event [backfill_find] finds for it, if any. *)
Definition backfill_pick (title_to_ticker : dict (dict str)) (p : Pick.row) : Pick.row :=
  if falsy (Pick.market_ticker p)
  then match backfill_find title_to_ticker p EVENT_TICKERS with
       | Some (ticker, et) => set_tickers ticker et p
       | None => p
       end
  else p.

(** The UPDATE made for the fetched row [r], on the row [p]. *)
Definition backfill_row (m : dict (dict str)) (r p : Pick.row) : Pick.row :=
  if Pick.id p =? Pick.id r
  then match backfill_find m r EVENT_TICKERS with
       | Some (ticker, et) => set_tickers ticker et p
       | None => p
       end
  else p.

Lemma backfill_step_map (m : dict (dict str)) (r : Pick.row) (l : list Pick.row) :
  match backfill_find m r EVENT_TICKERS with
  | Some (ticker, et) => update_tickers ticker et (Pick.id r) l
  | None => l
  end = map (backfill_row m r) l.
Proof.
  unfold backfill_row.
  destruct (backfill_find m r EVENT_TICKERS) as [[ticker et]|]; [reflexivity|].
  rewrite <- (map_id l) at 1. apply map_ext. intros p.
  now destruct (Pick.id p =? Pick.id r).
Qed.

Lemma backfill_fold_map (m : dict (dict str)) (rs l : list Pick.row) :
  fold_left
    (fun l r =>
       match backfill_find m r EVENT_TICKERS with
       | Some (ticker, et) => update_tickers ticker et (Pick.id r) l
       | None => l
       end) rs l
  = map (fun p => fold_left (fun p r => backfill_row m r p) rs p) l.
Proof.
  revert l. induction rs as [|r rs IH]; intros l; cbn [fold_left].
  - now rewrite map_id.
  - now rewrite IH, backfill_step_map, map_map.
Qed.

Lemma backfill_row_id (m : dict (dict str)) (r p : Pick.row) :
  Pick.id (backfill_row m r p) = Pick.id p.
Proof.
  unfold backfill_row. destruct (Pick.id p =? Pick.id r); [|reflexivity].
  now destruct (backfill_find m r EVENT_TICKERS) as [[ticker et]|].
Qed.

Lemma backfill_rows_other (m : dict (dict str)) (rs : list Pick.row) (p : Pick.row) :
  ~ In (Pick.id p) (map Pick.id rs) ->
  fold_left (fun p r => backfill_row m r p) rs p = p.
Proof.
  induction rs as [|r rs IH]; intros Hnin; [reflexivity|].
  cbn [fold_left]. simpl in Hnin.
  replace (backfill_row m r p) with p; [apply IH; tauto|].
  unfold backfill_row. replace (Pick.id p =? Pick.id r) with false; [reflexivity|].
  symmetry. apply Z.eqb_neq. intros E. apply Hnin. now left.
Qed.

Lemma backfill_rows_self (m : dict (dict str)) (l rs : list Pick.row) (p : Pick.row) :
  NoDup (map Pick.id l) -> incl rs l -> NoDup (map Pick.id rs) -> In p l ->
  (In p rs -> fold_left (fun p r => backfill_row m r p) rs p = backfill_row m p p)
  /\ (~ In p rs -> fold_left (fun p r => backfill_row m r p) rs p = p).
Proof.
  intros Hl Hincl Hrs Hp. induction rs as [|r rs IH]; [split; [contradiction|reflexivity]|].
  simpl in Hrs. inversion Hrs as [|? ? Hr Hrs']; subst.
  assert (Hincl' : incl rs l) by (intros x Hx; apply Hincl; now right).
  specialize (IH Hincl' Hrs'). cbn [fold_left].
  destruct (Z.eq_dec (Pick.id p) (Pick.id r)) as [E|E].
  - assert (r = p).
    { apply (NoDup_map_inj Pick.id l); auto. apply Hincl. now left. }
    subst r. split; [|intros H; exfalso; apply H; now left].
    intros _. apply backfill_rows_other. now rewrite backfill_row_id.
  - assert (Hrow : backfill_row m r p = p).
    { unfold backfill_row. apply Z.eqb_neq in E. now rewrite E. }
    rewrite Hrow. split.
    + intros [->|H]; [contradiction|]. now apply IH.
    + intros H. apply IH. intros H'. apply H. now right.
Qed.

Lemma NoDup_map_filter {A B : Type} (f : A -> B) (g : A -> bool) (l : list A) :
  NoDup (map f l) -> NoDup (map f (filter g l)).
Proof.
  induction l as [|x l IH]; simpl; intros H; [constructor|].
  inversion H as [|? ? Hx Hl]; subst.
  destruct (g x); [|now apply IH]. simpl. constructor; [|now apply IH].
  intros Hin. apply Hx. apply in_map_iff in Hin as (y & Hy & Hin).
  apply filter_In in Hin as [Hin _]. rewrite <- Hy. now apply in_map.
Qed.

(** With distinct ids, the loop of [backfill_tickers] treats every pick by
    itself. *)
Lemma backfill_tickers_map (m : dict (dict str)) (d : db) :
  NoDup (map Pick.id (picks d)) ->
  backfill_tickers m d =
  mkdb (map (backfill_pick m) (picks d)) (picks_seq d)
       (market_snapshots d) (market_snapshots_seq d) (scores d).
Proof.
  intros Hnd. unfold backfill_tickers. f_equal.
  rewrite backfill_fold_map. apply map_ext_in. intros p Hp.
  destruct (backfill_rows_self m (picks d)
              (filter (fun p => falsy (Pick.market_ticker p)) (picks d)) p)
    as [Hin Hout]; auto.
  - intros x Hx. now apply filter_In in Hx.
  - now apply NoDup_map_filter.
  - unfold backfill_pick. destruct (falsy (Pick.market_ticker p)) eqn:Ef.
    + rewrite Hin by (apply filter_In; auto).
      unfold backfill_row. now rewrite Z.eqb_refl.
    + apply Hout. rewrite filter_In. intros [_ H]. congruence.
Qed.

Lemma backfill_find_found (m : dict (dict str)) (r : Pick.row) (events : dict str)
    (ticker et : str) :
  backfill_find m r events = Some (ticker, et) ->
  ticker <> u ""
  /\ (Pick.event_ticker r = Some et \/ falsy (Pick.event_ticker r) = true)
  /\ exists label, In (label, et) events
                   /\ ticker = get_or (get_or m label []) (Pick.pick r) (u "").
Proof.
  induction events as [|[label e] events IH]; [discriminate|].
  cbn [backfill_find].
  destruct (holds (sql_eq (Some e) (Pick.event_ticker r))
            || falsy (Pick.event_ticker r)) eqn:Ec.
  - destruct (str_eqb (get_or (get_or m label []) (Pick.pick r) (u "")) (u "")) eqn:Et;
      cbn [negb].
    + intros H. destruct (IH H) as (H1 & H2 & label' & H3 & H4).
      repeat split; auto. exists label'. split; [now right|assumption].
    + intros H. injection H as <- <-. apply str_eqb_neq in Et.
      repeat split; auto.
      * apply orb_true_iff in Ec as [Ec|Ec]; [left|now right].
        destruct (Pick.event_ticker r) as [e'|]; [|discriminate].
        simpl in Ec. destruct (str_eqb e e') eqn:Ee; [|discriminate].
        apply str_eqb_eq in Ee. now subst.
      * exists label. split; [now left|reflexivity].
  - intros H. destruct (IH H) as (H1 & H2 & label' & H3 & H4).
    repeat split; auto. exists label'. split; [now right|assumption].
Qed.

Lemma falsy_nonempty (t : str) : t <> u "" -> falsy (Some t) = false.
Proof. intros H. now apply str_eqb_neq. Qed.

Lemma backfill_pick_cases (m : dict (dict str)) (p : Pick.row) :
  backfill_pick m p = p
  \/ exists ticker et,
       ticker <> u "" /\ falsy (Pick.market_ticker p) = true
       /\ backfill_find m p EVENT_TICKERS = Some (ticker, et)
       /\ backfill_pick m p = set_tickers ticker et p.
Proof.
  unfold backfill_pick.
  destruct (falsy (Pick.market_ticker p)) eqn:Ef; [|now left].
  destruct (backfill_find m p EVENT_TICKERS) as [[ticker et]|] eqn:E; [|now left].
  right. exists ticker, et. repeat split.
  now apply backfill_find_found in E.
Qed.

Lemma backfill_pick_twice (m : dict (dict str)) (p : Pick.row) :
  backfill_pick m (backfill_pick m p) = backfill_pick m p.
Proof.
  destruct (backfill_pick_cases m p) as [E|(ticker & et & Hne & _ & _ & E)];
    rewrite E; [exact E|].
  unfold backfill_pick. cbn [set_tickers Pick.market_ticker].
  now rewrite falsy_nonempty.
Qed.

Lemma backfill_pick_id (m : dict (dict str)) (l : list Pick.row) :
  map Pick.id (map (backfill_pick m) l) = map Pick.id l.
Proof.
  rewrite map_map. apply map_ext. intros p. unfold backfill_pick.
  destruct (falsy (Pick.market_ticker p)); [|reflexivity].
  now destruct (backfill_find m p EVENT_TICKERS) as [[ticker et]|].
Qed.

(** ** The state the functions keep *)

(** The ids of a table under AUTOINCREMENT: distinct, and none above the
    last one handed out. *)
Definition ids_ok (ids : list Z) (seq : Z) : Prop :=
  NoDup ids /\ Forall (fun i => i <= seq) ids.

(** A stored pick: its ticker is not NULL, its points are those of its
    option and its event is that of the option's table. *)
Definition pick_ok (p : Pick.row) : Prop :=
  Pick.market_ticker p <> None
  /\ ((dict_get SAY_POINTS (Pick.pick p) = Some (Pick.points p)
       /\ Pick.event_ticker p = dict_get EVENT_TICKERS (u "say"))
      \/ (dict_get MENTION_POINTS (Pick.pick p) = Some (Pick.points p)
          /\ Pick.event_ticker p = dict_get EVENT_TICKERS (u "mention"))).

Definition db_ok (d : db) : Prop :=
  ids_ok (map Pick.id (picks d)) (picks_seq d)
  /\ ids_ok (map Snap.id (market_snapshots d)) (market_snapshots_seq d)
  /\ NoDup (map Score.name (scores d))
  /\ Forall pick_ok (picks d)
  /\ Forall (fun s => PrimFloat.is_nan (Snap.yes_price s) = false) (market_snapshots d).

Lemma ids_ok_app (ids new : list Z) (seq seq' : Z) :
  ids_ok ids seq -> seq <= seq' -> NoDup new ->
  Forall (fun i => seq < i <= seq') new ->
  ids_ok (ids ++ new) seq'.
Proof.
  intros [Hnd Hle] Hseq Hnew Hrange. rewrite Forall_forall in Hle, Hrange. split.
  - induction ids as [|i ids IH]; simpl; [assumption|].
    inversion Hnd as [|? ? Hi Hids]; subst. constructor.
    + rewrite in_app_iff. intros [H|H]; [contradiction|].
      specialize (Hle i (or_introl eq_refl)). specialize (Hrange i H). lia.
    + apply IH; [assumption|]. intros x Hx. apply Hle. now right.
  - apply Forall_forall. intros i Hi. apply in_app_iff in Hi as [Hi|Hi].
    + specialize (Hle i Hi). lia.
    + specialize (Hrange i Hi). lia.
Qed.

(** The rows [lock_rows] stores get the ids after [seq], in order. *)
Lemma lock_rows_ids (m : dict (dict str)) (now : str) (seq : Z)
    (cs : list (str * str * str)) :
  NoDup (map Pick.id (lock_rows m now seq cs))
  /\ Forall (fun i => seq < i <= seq + Z.of_nat (List.length cs))
            (map Pick.id (lock_rows m now seq cs)).
Proof.
  revert seq. induction cs as [|[[ts name] raw_val] cs IH]; intros seq.
  - split; constructor.
  - destruct (IH (seq + 1)) as [Hnd Hr]. cbn [lock_rows map List.length].
    assert (Hid : Pick.id (locked_pick m now (seq + 1) (ts, name, raw_val)) = seq + 1).
    { unfold locked_pick. now destruct (validate_pick raw_val) as [[c p] n]. }
    rewrite Hid. rewrite Forall_forall in Hr. split.
    + constructor; [|assumption]. intros H. specialize (Hr _ H). lia.
    + constructor; [lia|]. apply Forall_forall. intros i Hi.
      specialize (Hr i Hi). lia.
Qed.

Lemma lock_rows_ok (m : dict (dict str)) (now : str) (seq : Z)
    (cs : list (str * str * str)) :
  Forall (fun c => accepted_cell c = true) cs ->
  Forall pick_ok (lock_rows m now seq cs).
Proof.
  revert seq. induction cs as [|[[ts name] raw_val] cs IH]; intros seq Hacc;
    [constructor|].
  inversion Hacc as [|? ? Hc Hcs]; subst. cbn [lock_rows]. constructor; [|now apply IH].
  unfold accepted_cell, classified in Hc. cbn [snd] in Hc.
  apply andb_true_iff in Hc as [_ Hc]. unfold locked_pick.
  destruct (validate_pick raw_val) as [[[category|] pts] canonical] eqn:E;
    [|discriminate].
  apply validate_pick_found in E as [_ [[-> E]|[-> E]]]; split;
    cbn [Pick.market_ticker Pick.pick Pick.points Pick.event_ticker COALESCE];
    try discriminate; [left|right]; (split; [exact E|reflexivity]).
Qed.

(** The rows [save_snapshot] stores, under the ids after [seq]. *)
Fixpoint snapshot_rows (now : str) (seq : Z) (markets : list market) : list Snap.row :=
  match markets with
  | [] => []
  | m :: markets' =>
      Snap.mk (seq + 1) (m_ticker m) (m_event_ticker m) (m_title m) (m_price m)
              (m_status m) (m_result m) now
      :: snapshot_rows now (seq + 1) markets'
  end.

Lemma insert_snapshots_append (now : str) (markets : list market) (d : db) :
  fold_left (insert_snapshot now) markets d =
  mkdb (picks d) (picks_seq d)
       (market_snapshots d ++ snapshot_rows now (market_snapshots_seq d) markets)
       (market_snapshots_seq d + Z.of_nat (List.length markets)) (scores d).
Proof.
  revert d. induction markets as [|m markets IH]; intros d.
  - destruct d. simpl. now rewrite app_nil_r, Z.add_0_r.
  - cbn [fold_left]. rewrite IH. unfold insert_snapshot.
    cbn [picks picks_seq market_snapshots market_snapshots_seq scores
         snapshot_rows List.length].
    rewrite <- app_assoc. f_equal. lia.
Qed.

Lemma snapshot_rows_ids (now : str) (seq : Z) (markets : list market) :
  NoDup (map Snap.id (snapshot_rows now seq markets))
  /\ Forall (fun i => seq < i <= seq + Z.of_nat (List.length markets))
            (map Snap.id (snapshot_rows now seq markets)).
Proof.
  revert seq. induction markets as [|m markets IH]; intros seq.
  - split; constructor.
  - destruct (IH (seq + 1)) as [Hnd Hr]. cbn [snapshot_rows map List.length Snap.id].
    rewrite Forall_forall in Hr. split.
    + constructor; [|assumption]. intros H. specialize (Hr _ H). lia.
    + constructor; [lia|]. apply Forall_forall. intros i Hi.
      specialize (Hr i Hi). lia.
Qed.

Lemma snapshot_rows_not_nan (now : str) (seq : Z) (markets : list market) :
  existsb (fun m => PrimFloat.is_nan (m_price m)) markets = false ->
  Forall (fun s => PrimFloat.is_nan (Snap.yes_price s) = false)
         (snapshot_rows now seq markets).
Proof.
  revert seq. induction markets as [|m markets IH]; intros seq H; [constructor|].
  simpl in H. apply orb_false_iff in H as [Hm H].
  cbn [snapshot_rows]. constructor; [exact Hm|now apply IH].
Qed.

(** The names of [scores] after an upsert: those before, and the new one
    last when it was not among them. *)
Lemma upsert_score_names (now : str) (l : list Score.row) (r : Agg.row) :
  map Score.name (upsert_score now l r) =
  if existsb (fun s => str_eqb (Score.name s) (Agg.name r)) l
  then map Score.name l
  else map Score.name l ++ [Agg.name r].
Proof.
  unfold upsert_score.
  destruct (existsb (fun s => str_eqb (Score.name s) (Agg.name r)) l).
  - rewrite map_map. apply map_ext. intros s.
    destruct (str_eqb (Score.name s) (Agg.name r)) eqn:E; [|reflexivity].
    apply str_eqb_eq in E. now rewrite E.
  - now rewrite map_app.
Qed.

Lemma upsert_score_NoDup (now : str) (l : list Score.row) (r : Agg.row) :
  NoDup (map Score.name l) -> NoDup (map Score.name (upsert_score now l r)).
Proof.
  intros H. rewrite upsert_score_names.
  destruct (existsb (fun s => str_eqb (Score.name s) (Agg.name r)) l) eqn:E;
    [assumption|].
  apply NoDup_app; [assumption|repeat constructor; intros []|].
  intros n Hn [<-|[]]. apply in_map_iff in Hn as (s & Hs & Hin).
  assert (existsb (fun s => str_eqb (Score.name s) (Agg.name r)) l = true);
    [|congruence].
  apply existsb_exists. exists s. split; [assumption|]. now apply str_eqb_eq.
Qed.

Lemma fold_upsert_NoDup (now : str) (df : list Agg.row) (l : list Score.row) :
  NoDup (map Score.name l) ->
  NoDup (map Score.name (fold_left (upsert_score now) df l)).
Proof.
  revert l. induction df as [|r df IH]; intros l H; [assumption|].
  cbn [fold_left]. now apply IH, upsert_score_NoDup.
Qed.

Lemma backfill_pick_ok (m : dict (dict str)) (p : Pick.row) :
  pick_ok p -> pick_ok (backfill_pick m p).
Proof.
  intros Hok.
  destruct (backfill_pick_cases m p) as [->|(ticker & et & _ & _ & E & ->)];
    [assumption|].
  apply backfill_find_found in E as (_ & He & _).
  destruct Hok as [_ Hok]. split; [discriminate|].
  assert (Hev : Pick.event_ticker p = Some et).
  { destruct He as [He|He]; [assumption|exfalso].
    destruct Hok as [[_ H]|[_ H]]; rewrite H in He; vm_compute in He; discriminate. }
  cbn [set_tickers Pick.pick Pick.points Pick.event_ticker]. now rewrite <- Hev.
Qed.

(** The five parts of [db_ok], each a goal. *)
Ltac split_db_ok :=
  unfold db_ok;
  cbn [snd picks picks_seq market_snapshots market_snapshots_seq scores];
  split; [|split; [|split; [|split]]].

Lemma db_ok_init : db_ok init_db.
Proof. split_db_ok; try split; constructor. Qed.

Lemma db_ok_save_picks (df : DataFrame) (m : dict (dict str)) (now : str) (d : db) :
  db_ok d -> db_ok (save_picks df m now d).
Proof.
  intros (Hp & Hs & Hn & Hok & Hnan). rewrite save_picks_append.
  unfold append_picks. split_db_ok; try assumption.
  - rewrite map_app.
    apply (ids_ok_app _ _ (picks_seq d));
      [assumption|lia|apply lock_rows_ids|apply lock_rows_ids].
  - apply Forall_app. split; [assumption|]. apply lock_rows_ok.
    apply Forall_forall. intros c Hc. unfold accepted in Hc. now apply filter_In in Hc.
Qed.

Lemma db_ok_clear_picks (d : db) : db_ok d -> db_ok (clear_picks d).
Proof.
  intros (Hp & Hs & Hn & Hok & Hnan). unfold clear_picks.
  split_db_ok; try assumption; [split|]; constructor.
Qed.

Lemma db_ok_save_snapshot (markets : list market) (now : str) (d d' : db) :
  db_ok d -> save_snapshot markets now d = Some d' -> db_ok d'.
Proof.
  intros (Hp & Hs & Hn & Hok & Hnan). unfold save_snapshot.
  destruct (existsb (fun m => PrimFloat.is_nan (m_price m)) markets) eqn:E;
    [discriminate|].
  intros H. injection H as <-. rewrite insert_snapshots_append.
  split_db_ok; try assumption.
  - rewrite map_app.
    apply (ids_ok_app _ _ (market_snapshots_seq d));
      [assumption|lia|apply snapshot_rows_ids|apply snapshot_rows_ids].
  - apply Forall_app. split; [assumption|]. now apply snapshot_rows_not_nan.
Qed.

Lemma db_ok_backfill_tickers (m : dict (dict str)) (d : db) :
  db_ok d -> db_ok (backfill_tickers m d).
Proof.
  intros (Hp & Hs & Hn & Hok & Hnan). rewrite backfill_tickers_map by apply Hp.
  split_db_ok; try assumption.
  - now rewrite backfill_pick_id.
  - apply Forall_forall. intros p Hin. apply in_map_iff in Hin as (p0 & <- & Hin).
    apply backfill_pick_ok. rewrite Forall_forall in Hok. now apply Hok.
Qed.

Lemma db_ok_calculate_scores (now : str) (d : db) :
  db_ok d -> db_ok (snd (calculate_scores now d)).
Proof.
  intros (Hp & Hs & Hn & Hok & Hnan). unfold calculate_scores.
  split_db_ok; try assumption. now apply fold_upsert_NoDup.
Qed.

(** ** The invariant of the database *)

Lemma lock_rows_above (m : dict (dict str)) (now : str) (seq : Z)
    (cs : list (str * str * str)) (p : Pick.row) :
  In p (lock_rows m now seq cs) -> seq < Pick.id p.
Proof.
  intros Hp. destruct (lock_rows_ids m now seq cs) as [_ Hr].
  rewrite Forall_forall in Hr. apply (Hr (Pick.id p)). now apply in_map.
Qed.

Lemma snapshot_rows_above (now : str) (seq : Z) (markets : list market) (s : Snap.row) :
  In s (snapshot_rows now seq markets) -> seq < Snap.id s.
Proof.
  intros Hs. destruct (snapshot_rows_ids now seq markets) as [_ Hr].
  rewrite Forall_forall in Hr. apply (Hr (Snap.id s)). now apply in_map.
Qed.

(** Whatever the functions of [db.py] are called with, they keep the
    database well formed: ids distinct and below the AUTOINCREMENT counter,
    one score per name, every pick with a ticker column that is not NULL,
    the points of its option and the event of its option's table, and no
    snapshot price that is not a number. The counters never go back:
    [save_picks] and [save_snapshot] give their new rows ids above the
    counter and move it up, and every other function, [clear_picks] too,
    leaves both counters where they are; so the picks stored after a
    [clear_picks] get ids above those of the picks cleared, and no id is
    handed out twice. *)
Theorem database_invariant (d : db) :
  db_ok d ->
  (forall df title_to_ticker now,
     db_ok (save_picks df title_to_ticker now d)
     /\ picks_seq d <= picks_seq (save_picks df title_to_ticker now d)
     /\ market_snapshots_seq (save_picks df title_to_ticker now d)
        = market_snapshots_seq d
     /\ forall p, In p (picks (save_picks df title_to_ticker now d)) ->
                  In p (picks d) \/ picks_seq d < Pick.id p)
  /\ (db_ok (clear_picks d)
      /\ picks_seq (clear_picks d) = picks_seq d
      /\ market_snapshots_seq (clear_picks d) = market_snapshots_seq d)
  /\ (forall markets now,
        match save_snapshot markets now d with
        | Some d' =>
            db_ok d'
            /\ picks_seq d' = picks_seq d
            /\ market_snapshots_seq d <= market_snapshots_seq d'
            /\ forall s, In s (market_snapshots d') ->
                  In s (market_snapshots d) \/ market_snapshots_seq d < Snap.id s
        | None => True
        end)
  /\ (forall title_to_ticker,
        db_ok (backfill_tickers title_to_ticker d)
        /\ picks_seq (backfill_tickers title_to_ticker d) = picks_seq d
        /\ market_snapshots_seq (backfill_tickers title_to_ticker d)
           = market_snapshots_seq d)
  /\ (forall now,
        db_ok (snd (calculate_scores now d))
        /\ picks_seq (snd (calculate_scores now d)) = picks_seq d
        /\ market_snapshots_seq (snd (calculate_scores now d))
           = market_snapshots_seq d)
  /\ (forall df title_to_ticker now p q,
        In p (picks (save_picks df title_to_ticker now (clear_picks d))) ->
        In q (picks d) -> Pick.id q < Pick.id p).
Proof.
  intros Hok. split; [|split; [|split; [|split; [|split]]]].
  - intros df m now. split; [now apply db_ok_save_picks|].
    rewrite save_picks_append. unfold append_picks.
    cbn [picks picks_seq market_snapshots_seq]. split; [lia|]. split; [reflexivity|].
    intros p Hp. apply in_app_iff in Hp as [Hp|Hp]; [now left|right].
    now apply lock_rows_above in Hp.
  - split; [now apply db_ok_clear_picks|]. split; reflexivity.
  - intros markets now.
    destruct (save_snapshot markets now d) as [d'|] eqn:E; [|exact I].
    split; [now apply (db_ok_save_snapshot markets now d)|].
    unfold save_snapshot in E.
    destruct (existsb (fun m => PrimFloat.is_nan (m_price m)) markets); [discriminate|].
    injection E as <-. rewrite insert_snapshots_append.
    cbn [picks_seq market_snapshots market_snapshots_seq].
    split; [reflexivity|]. split; [lia|].
    intros s Hs. apply in_app_iff in Hs as [Hs|Hs]; [now left|right].
    now apply snapshot_rows_above in Hs.
  - intros m. split; [now apply db_ok_backfill_tickers|]. split; reflexivity.
  - intros now. split; [now apply db_ok_calculate_scores|]. split; reflexivity.
  - intros df m now p q Hp Hq. rewrite save_picks_append in Hp.
    unfold append_picks, clear_picks in Hp. cbn [picks picks_seq app] in Hp.
    apply lock_rows_above in Hp.
    destruct Hok as ((_ & Hle) & _). rewrite Forall_forall in Hle.
    specialize (Hle (Pick.id q) (in_map Pick.id _ _ Hq)). cbn beta in Hle. lia.
Qed.

(** The picks of the upload are locked, cleared and locked again: the
    second time they get the ids after those of the first. *)
Lemma database_invariant_witness :
  db_ok db_after_lock
  /\ map Pick.id (picks db_after_lock) = [1; 2]
  /\ db_ok (save_picks df_upload say_tickers (u "2026-02-28T12:00:00+00:00")
              (clear_picks db_after_lock))
  /\ map Pick.id (picks (save_picks df_upload say_tickers (u "2026-02-28T12:00:00+00:00")
                          (clear_picks db_after_lock)))
     = [3; 4]
  /\ (forall p q,
        In p (picks (save_picks df_upload say_tickers (u "2026-02-28T12:00:00+00:00")
                       (clear_picks db_after_lock))) ->
        In q (picks db_after_lock) -> Pick.id q < Pick.id p).
Proof.
  assert (Hlock : db_ok db_after_lock).
  { destruct (database_invariant init_db db_ok_init) as (Hsave & _). apply Hsave. }
  destruct (database_invariant db_after_lock Hlock)
    as (_ & (Hclear & _) & _ & _ & _ & Hfresh).
  destruct (database_invariant (clear_picks db_after_lock) Hclear) as (Hsave & _).
  split; [exact Hlock|]. split; [vm_compute; reflexivity|].
  split; [apply Hsave|]. split; [vm_compute; reflexivity|].
  apply Hfresh.
Defined.

(** ** Backfill *)

Lemma EVENT_TICKERS_labels (label e : str) :
  dict_get EVENT_TICKERS label = Some e ->
  (label = u "say" /\ e = u "KXTRUMPMENTION-26FEB28")
  \/ (label = u "mention" /\ e = u "KXTRUMPMENTION-26MAR02").
Proof.
  unfold EVENT_TICKERS. cbn [dict_get].
  destruct (str_eqb label (u "say")) eqn:Es.
  - intros H. injection H as <-. apply str_eqb_eq in Es. now left.
  - destruct (str_eqb label (u "mention")) eqn:Em; [|discriminate].
    intros H. injection H as <-. apply str_eqb_eq in Em. now right.
Qed.

(** For a pick with an event, [backfill_find] looks the pick up in the map
    of that event alone. *)
Lemma backfill_find_own_event (m : dict (dict str)) (p : Pick.row) (label e : str) :
  dict_get EVENT_TICKERS label = Some e ->
  Pick.event_ticker p = Some e ->
  backfill_find m p EVENT_TICKERS =
  let ticker := get_or (get_or m label []) (Pick.pick p) (u "") in
  if str_eqb ticker (u "") then None else Some (ticker, e).
Proof.
  intros Hl He. unfold EVENT_TICKERS. cbn [backfill_find]. rewrite He.
  apply EVENT_TICKERS_labels in Hl as [[-> ->]|[-> ->]].
  - replace (holds (sql_eq (Some (u "KXTRUMPMENTION-26FEB28"))
                           (Some (u "KXTRUMPMENTION-26FEB28")))
             || falsy (Some (u "KXTRUMPMENTION-26FEB28")))
      with true by (vm_compute; reflexivity).
    replace (holds (sql_eq (Some (u "KXTRUMPMENTION-26MAR02"))
                           (Some (u "KXTRUMPMENTION-26FEB28")))
             || falsy (Some (u "KXTRUMPMENTION-26FEB28")))
      with false by (vm_compute; reflexivity).
    cbv zeta.
    now destruct (str_eqb (get_or (get_or m (u "say") []) (Pick.pick p) (u "")) (u "")).
  - replace (holds (sql_eq (Some (u "KXTRUMPMENTION-26FEB28"))
                           (Some (u "KXTRUMPMENTION-26MAR02")))
             || falsy (Some (u "KXTRUMPMENTION-26MAR02")))
      with false by (vm_compute; reflexivity).
    replace (holds (sql_eq (Some (u "KXTRUMPMENTION-26MAR02"))
                           (Some (u "KXTRUMPMENTION-26MAR02")))
             || falsy (Some (u "KXTRUMPMENTION-26MAR02")))
      with true by (vm_compute; reflexivity).
    cbv zeta.
    now destruct (str_eqb (get_or (get_or m (u "mention") []) (Pick.pick p) (u "")) (u "")).
Qed.

(** With distinct ids, [backfill_tickers] changes the picks one by one and
    nothing else: a pick that has a ticker stays as it is; a pick without
    one, of the event of [label], gets the ticker the map has for its name
    under [label] when that is not empty, keeps its event, and stays as it
    is otherwise. The map of the other event is not looked at. *)
Theorem backfill_tickers_by_row (title_to_ticker : dict (dict str)) (d : db) :
  NoDup (map Pick.id (picks d)) ->
  backfill_tickers title_to_ticker d =
    mkdb (map (backfill_pick title_to_ticker) (picks d)) (picks_seq d)
         (market_snapshots d) (market_snapshots_seq d) (scores d)
  /\ (forall p, falsy (Pick.market_ticker p) = false ->
                backfill_pick title_to_ticker p = p)
  /\ (forall p label e,
        dict_get EVENT_TICKERS label = Some e ->
        Pick.event_ticker p = Some e ->
        falsy (Pick.market_ticker p) = true ->
        backfill_pick title_to_ticker p =
        let ticker := get_or (get_or title_to_ticker label []) (Pick.pick p) (u "") in
        if str_eqb ticker (u "") then p else set_tickers ticker e p).
Proof.
  intros Hnd. split; [now apply backfill_tickers_map|split].
  - intros p Hf. unfold backfill_pick. now rewrite Hf.
  - intros p label e Hl He Hf. unfold backfill_pick.
    rewrite Hf, (backfill_find_own_event _ p label e Hl He). cbv zeta.
    now destruct (str_eqb (get_or (get_or title_to_ticker label []) (Pick.pick p) (u ""))
                          (u "")).
Qed.

(** A pick stored without ticker, and the maps of both events with a ticker
    for its name: the pick gets the ticker of its own event. *)
Definition both_tickers : dict (dict str) :=
  [ (u "say", [(u "Biden", u "KXTRUMPMENTION-26FEB28-BIDE")]);
    (u "mention", [(u "Biden", u "KXTRUMPMENTION-26MAR02-BIDE")]) ].

Lemma backfill_tickers_by_row_witness :
  picks (backfill_tickers both_tickers db_biden)
  = [set_tickers (u "KXTRUMPMENTION-26MAR02-BIDE") (u "KXTRUMPMENTION-26MAR02") pick_biden].
Proof.
  rewrite (proj1 (backfill_tickers_by_row both_tickers db_biden
                    ltac:(vm_compute; repeat constructor; simpl; tauto))).
  vm_compute. reflexivity.
Defined.

(** Run twice with the same maps, [backfill_tickers] does the second time
    nothing. *)
Theorem backfill_tickers_idempotent (title_to_ticker : dict (dict str)) (d : db) :
  NoDup (map Pick.id (picks d)) ->
  backfill_tickers title_to_ticker (backfill_tickers title_to_ticker d)
  = backfill_tickers title_to_ticker d.
Proof.
  intros Hnd. rewrite (backfill_tickers_map title_to_ticker d Hnd).
  rewrite backfill_tickers_map;
    cbn [picks picks_seq market_snapshots market_snapshots_seq scores].
  - f_equal. rewrite map_map. apply map_ext. intros p. apply backfill_pick_twice.
  - now rewrite backfill_pick_id.
Qed.

Lemma backfill_tickers_idempotent_witness :
  backfill_tickers both_tickers (backfill_tickers both_tickers db_biden)
  = backfill_tickers both_tickers db_biden.
Proof.
  apply backfill_tickers_idempotent. vm_compute. repeat constructor. simpl. tauto.
Defined.

(** ** Picks locked before the tickers are known *)

Lemma get_or_nil (k default : str) : get_or (@nil (str * str)) k default = default.
Proof. reflexivity. Qed.

(** The row locked without maps is, once backfilled, the row locked with
    the maps. *)
Lemma backfill_locked_pick (m : dict (dict str)) (now : str) (i : Z)
    (c : str * str * str) :
  accepted_cell c = true ->
  backfill_pick m (locked_pick [] now i c) = locked_pick m now i c.
Proof.
  destruct c as [[ts name] raw_val]. intros Hc.
  unfold accepted_cell, classified in Hc. cbn [snd] in Hc.
  apply andb_true_iff in Hc as [_ Hc]. unfold locked_pick.
  destruct (validate_pick raw_val) as [[[category|] pts] canonical] eqn:E;
    [|discriminate].
  cbn [COALESCE]. unfold backfill_pick.
  cbn [Pick.market_ticker get_or dict_get].
  replace (falsy (Some (u ""))) with true by reflexivity.
  assert (Hev : dict_get EVENT_TICKERS category
                = Some (get_or EVENT_TICKERS category (u ""))).
  { apply validate_pick_found in E as [_ [[-> _]|[-> _]]]; reflexivity. }
  rewrite (backfill_find_own_event m _ category _ Hev) by reflexivity.
  cbn [Pick.pick]. cbv zeta.
  destruct (str_eqb (get_or (get_or m category []) canonical (u "")) (u "")) eqn:Et.
  - apply str_eqb_eq in Et. now rewrite Et.
  - reflexivity.
Qed.

Lemma backfill_lock_rows (m : dict (dict str)) (now : str) (seq : Z)
    (cs : list (str * str * str)) :
  Forall (fun c => accepted_cell c = true) cs ->
  map (backfill_pick m) (lock_rows [] now seq cs) = lock_rows m now seq cs.
Proof.
  revert seq. induction cs as [|c cs IH]; intros seq Hacc; [reflexivity|].
  inversion Hacc as [|? ? Hc Hcs]; subst. cbn [lock_rows map].
  now rewrite IH, backfill_locked_pick.
Qed.

(** Locking the picks of an upload with no ticker map at hand and
    backfilling the tickers afterwards leaves the database that locking
    them with the maps leaves: the picks already there are backfilled
    either way, and the new picks get the tickers of the maps. *)
Theorem lock_then_backfill (df : DataFrame) (title_to_ticker : dict (dict str))
    (now : str) (d : db) :
  ids_ok (map Pick.id (picks d)) (picks_seq d) ->
  backfill_tickers title_to_ticker (save_picks df [] now d)
  = save_picks df title_to_ticker now (backfill_tickers title_to_ticker d).
Proof.
  intros Hids.
  assert (Hnew : NoDup (map Pick.id (picks (save_picks df [] now d)))).
  { rewrite save_picks_append. unfold append_picks. cbn [picks]. rewrite map_app.
    apply (ids_ok_app _ _ (picks_seq d) (picks_seq d + Z.of_nat (List.length (accepted df))));
      [assumption|lia|apply lock_rows_ids|apply lock_rows_ids]. }
  rewrite (backfill_tickers_map _ _ Hnew), (backfill_tickers_map _ d (proj1 Hids)).
  rewrite !save_picks_append. unfold append_picks.
  cbn [picks picks_seq market_snapshots market_snapshots_seq scores].
  rewrite map_app, backfill_lock_rows; [reflexivity|].
  apply Forall_forall. intros c Hc. unfold accepted in Hc. now apply filter_In in Hc.
Qed.

Lemma lock_then_backfill_witness :
  backfill_tickers say_tickers
    (save_picks df_upload [] (u "2026-02-27T12:00:00+00:00") init_db)
  = save_picks df_upload say_tickers (u "2026-02-27T12:00:00+00:00")
      (backfill_tickers say_tickers init_db).
Proof.
  apply lock_then_backfill. split; constructor.
Defined.

(** ** The breakdown and the scores *)

Lemma fold_add (l : list Z) (a : Z) : fold_left Z.add l a = a + fold_left Z.add l 0.
Proof.
  revert a. induction l as [|x l IH]; intros a; simpl; [lia|].
  rewrite (IH (a + x)), (IH x). lia.
Qed.

Lemma SUM_cons (x : Z) (l : list Z) : SUM (x :: l) = x + SUM l.
Proof. unfold SUM. simpl. apply fold_add. Qed.

Lemma SUM_perm (l l' : list Z) : Permutation l l' -> SUM l = SUM l'.
Proof.
  induction 1 as [|x l l' _ IH|x y l|l l' l'' _ IH1 _ IH2];
    rewrite ?SUM_cons; try lia; congruence.
Qed.

Lemma filter_perm {A : Type} (f : A -> bool) (l l' : list A) :
  Permutation l l' -> Permutation (filter f l) (filter f l').
Proof.
  induction 1 as [|x l l' _ IH|x y l|l l' l'' _ IH1 _ IH2]; simpl.
  - constructor.
  - destruct (f x); [now constructor|assumption].
  - destruct (f x), (f y); try reflexivity. apply perm_swap.
  - now transitivity (filter f l').
Qed.

Lemma filter_map {A B : Type} (f : B -> bool) (g : A -> B) (l : list A) :
  filter f (map g l) = map g (filter (fun x => f (g x)) l).
Proof.
  induction l as [|x l IH]; simpl; [reflexivity|].
  destruct (f (g x)); simpl; now rewrite IH.
Qed.

(** The result column reads [yes] exactly on the rows the scores count. *)
Lemma detail_result_yes (ms : option Snap.row) :
  str_eqb (detail_result ms) (u "yes") = holds (_resolved_yes_expr ms).
Proof.
  unfold detail_result.
  destruct (holds (_resolved_yes_expr ms)) eqn:Ey; [reflexivity|].
  destruct (holds (_resolved_no_expr ms)); [reflexivity|].
  destruct (str_eqb (COALESCE (ms_result ms) (u "")) (u "yes")) eqn:E; [|reflexivity].
  unfold _resolved_yes_expr in Ey. cbn [sql_eq] in Ey. rewrite E in Ey.
  cbn [sql_or holds] in Ey. discriminate.
Qed.

(** The points a joined row earns. *)
Definition won_points (r : Pick.row * option Snap.row) : Z :=
  if holds (_resolved_yes_expr (snd r)) then Pick.points (fst r) else 0.

Definition won (r : Pick.row * option Snap.row) : Z :=
  if holds (_resolved_yes_expr (snd r)) then 1 else 0.

Lemma earned_total_joined (rows : list (Pick.row * option Snap.row)) :
  earned_total (map detail_of rows) = SUM (map won_points rows).
Proof.
  unfold earned_total. cbv zeta.
  induction rows as [|[p ms] rows IH]; [reflexivity|].
  cbn [map filter]. rewrite SUM_cons, <- IH. clear IH.
  change (Detail.result (detail_of (p, ms))) with (detail_result ms).
  unfold won_points at 1. cbn [fst snd].
  pose proof (detail_result_yes ms) as Hy.
  destruct (holds (_resolved_yes_expr ms)).
  - rewrite Hy. cbn [orb map]. rewrite SUM_cons.
    change (Detail.result (detail_of (p, ms))) with (detail_result ms).
    now rewrite Hy.
  - rewrite Hy. cbn [orb].
    destruct (str_eqb (detail_result ms) (u "no")); [|reflexivity].
    cbn [map]. rewrite SUM_cons.
    change (Detail.result (detail_of (p, ms))) with (detail_result ms).
    now rewrite Hy.
Qed.

Lemma count_won_joined (rows : list (Pick.row * option Snap.row)) :
  Z.of_nat (List.length
              (filter (fun r => str_eqb (Detail.result r) (u "yes")) (map detail_of rows)))
  = SUM (map won rows).
Proof.
  induction rows as [|[p ms] rows IH]; [reflexivity|].
  cbn [map filter]. rewrite SUM_cons, <- IH. clear IH.
  change (Detail.result (detail_of (p, ms))) with (detail_result ms).
  unfold won at 1. cbn [snd]. rewrite detail_result_yes.
  destruct (holds (_resolved_yes_expr ms)); cbn [List.length]; lia.
Qed.

(** The rows of a participant in the breakdown are those of the join, in
    another order. *)
Lemma person_joined (d : db) (n : str) :
  exists rows,
    person (get_pick_details d) n = map detail_of rows
    /\ Permutation (filter (fun r => str_eqb (Pick.name (fst r)) n) (left_join d)) rows.
Proof.
  exists (filter (fun r => str_eqb (Pick.name (fst r)) n)
            (sort_by (fun a b => by_name_id (fst a) (fst b)) (left_join d))).
  split.
  - unfold person, get_pick_details. rewrite filter_map. f_equal.
    apply filter_ext. now intros [p ms].
  - apply filter_perm, sort_by_perm.
Qed.

(** The row of the scores for a name. *)
Lemma scores_query_row (d : db) (r : Agg.row) :
  In r (scores_query d) ->
  let rows := filter (fun x => str_eqb (Pick.name (fst x)) (Agg.name r)) (left_join d) in
  Agg.total_points r = SUM (map won_points rows)
  /\ Agg.correct_picks r = SUM (map won rows)
  /\ Agg.total_picks r = Z.of_nat (List.length rows)
  /\ In (Agg.name r) (map (fun x => Pick.name (fst x)) (left_join d)).
Proof.
  unfold scores_query. cbv zeta. rewrite sort_by_In, in_map_iff.
  intros (n & <- & Hn). cbn [Agg.name Agg.total_points Agg.correct_picks Agg.total_picks].
  repeat split. unfold sorted in Hn.
  now rewrite <- in_rev, sort_by_In, distinct_In in Hn.
Qed.

(** What the pick breakdown of the leaderboard page shows for a
    participant agrees with the scores [calculate_scores] computes from the
    same database: the points in the header are the participant's total
    points, the rows are as many as the picks counted, and those that read
    [yes] are as many as the correct picks. *)
Theorem breakdown_matches_scores (now : str) (d : db) (r : Agg.row) :
  In r (fst (calculate_scores now d)) ->
  let rows := person (get_pick_details d) (Agg.name r) in
  earned_total rows = Agg.total_points r
  /\ Z.of_nat (List.length rows) = Agg.total_picks r
  /\ Z.of_nat (List.length (filter (fun x => str_eqb (Detail.result x) (u "yes")) rows))
     = Agg.correct_picks r.
Proof.
  intros Hr rows. unfold calculate_scores in Hr. cbn [fst] in Hr.
  destruct (scores_query_row d r Hr) as (Hp & Hc & Ht & _).
  destruct (person_joined d (Agg.name r)) as (joined & E & Hperm).
  subst rows. rewrite E, Hp, Hc, Ht, earned_total_joined, count_won_joined, length_map.
  repeat split.
  - symmetry. now apply SUM_perm, Permutation_map.
  - f_equal. symmetry. now apply Permutation_length.
  - symmetry. now apply SUM_perm, Permutation_map.
Qed.

Lemma breakdown_matches_scores_witness :
  earned_total (person (get_pick_details db_biden) (u "Alice")) = 16
  /\ Z.of_nat (List.length (person (get_pick_details db_biden) (u "Alice"))) = 2
  /\ Z.of_nat (List.length
                 (filter (fun x => str_eqb (Detail.result x) (u "yes"))
                         (person (get_pick_details db_biden) (u "Alice")))) = 2.
Proof.
  apply (breakdown_matches_scores (u "2026-03-03T00:01:00+00:00") db_biden
           (Agg.mk (u "Alice") 16 2 2)).
  vm_compute. now left.
Defined.

(** ** The latest snapshots, ticker by ticker *)

Lemma latest_of_max (snaps : list Snap.row) (s : Snap.row) :
  NoDup (map Snap.id snaps) -> In s snaps ->
  (forall r, In r snaps -> Snap.ticker r = Snap.ticker s -> Snap.id r <= Snap.id s) ->
  filter (fun r => str_eqb (Snap.ticker r) (Snap.ticker s)) (latest_snapshots snaps) = [s].
Proof.
  intros Hnd Hs Hmax. unfold latest_snapshots.
  rewrite <- (filter_key_unique Snap.id snaps s Hnd Hs), filter_filter.
  apply filter_ext_in. intros r Hr.
  destruct (Snap.id r =? Snap.id s) eqn:E.
  - apply Z.eqb_eq in E.
    assert (r = s) by (apply (NoDup_map_inj Snap.id snaps); assumption). subst r.
    rewrite str_eqb_refl. cbn [andb].
    apply existsb_exists. exists (Snap.id s). split; [|apply Z.eqb_refl].
    apply max_id_per_ticker_In. now exists s.
  - apply andb_false_iff.
    destruct (str_eqb (Snap.ticker r) (Snap.ticker s)) eqn:Et; [right|now left].
    apply str_eqb_eq in Et.
    destruct (existsb (Z.eqb (Snap.id r)) (max_id_per_ticker snaps)) eqn:Ex;
      [exfalso|reflexivity].
    apply existsb_exists in Ex as (i & Hi & Ei). apply Z.eqb_eq in Ei. subst i.
    apply max_id_per_ticker_In in Hi as (s' & Hs' & Hid & Hmax').
    assert (s' = r) by (apply (NoDup_map_inj Snap.id snaps); assumption). subst s'.
    apply Z.eqb_neq in E. apply E.
    specialize (Hmax r Hr Et). specialize (Hmax' s Hs (eq_sym Et)). lia.
Qed.

Lemma latest_snapshots_incl (snaps : list Snap.row) (s : Snap.row) :
  In s (latest_snapshots snaps) -> In s snaps.
Proof. unfold latest_snapshots. rewrite filter_In. tauto. Qed.

(** With distinct ids, the latest snapshots hold one row of a ticker at
    most. *)
Lemma latest_of_ticker (snaps : list Snap.row) (t : str) :
  NoDup (map Snap.id snaps) ->
  (List.length (filter (fun r => str_eqb (Snap.ticker r) t) (latest_snapshots snaps)) <= 1)%nat.
Proof.
  intros Hnd.
  destruct (in_dec (list_eq_dec N.eq_dec) t (map Snap.ticker snaps)) as [Ht|Ht].
  - destruct (ticker_has_max snaps t Ht) as (s & Hs & <- & Hmax).
    rewrite (latest_of_max snaps s); auto.
  - rewrite filter_none; [auto|].
    intros r Hr. apply str_eqb_neq. intros <-. apply Ht, in_map.
    now apply latest_snapshots_incl.
Qed.

(** ** Picks with a ticker are counted once *)

Lemma join_pick_fst (ms : list Snap.row) (p : Pick.row) :
  Forall (fun r => fst r = p) (join_pick ms p).
Proof.
  unfold join_pick.
  destruct (filter (fun s => holds (join_on p s)) ms) as [|s l];
    [now repeat constructor|].
  apply Forall_forall. intros r Hr. apply in_map_iff in Hr as (x & <- & _). reflexivity.
Qed.

Lemma join_pick_ticker_once (snaps : list Snap.row) (p : Pick.row) (t : str) :
  NoDup (map Snap.id snaps) ->
  Pick.market_ticker p = Some t -> t <> u "" ->
  map fst (join_pick (latest_snapshots snaps) p) = [p].
Proof.
  intros Hnd Ht Hne.
  pose proof (latest_of_ticker snaps t Hnd) as Hlen.
  unfold join_pick.
  rewrite (filter_ext (fun s => holds (join_on p s))
                      (fun s => str_eqb (Snap.ticker s) t))
    by (intros s; now apply join_on_ticker).
  destruct (filter (fun s => str_eqb (Snap.ticker s) t) (latest_snapshots snaps))
    as [|s [|s' l]]; [reflexivity|reflexivity|].
  simpl in Hlen. lia.
Qed.

Lemma won_SUM_bounds (rows : list (Pick.row * option Snap.row)) :
  0 <= SUM (map won rows) <= Z.of_nat (List.length rows).
Proof.
  induction rows as [|r rows IH]; [unfold SUM; simpl; lia|].
  cbn [map List.length]. rewrite SUM_cons. unfold won at 1 3.
  destruct (holds (_resolved_yes_expr (snd r))); lia.
Qed.

(** When snapshot ids are distinct and every pick has a ticker, the join
    has one row for each pick, in the order of the picks: the picks counted
    for a participant are the picks the participant has, and the correct
    picks are between none and all of them. *)
Theorem ticker_join_counts_once (d : db) :
  NoDup (map Snap.id (market_snapshots d)) ->
  (forall p, In p (picks d) ->
     exists t, Pick.market_ticker p = Some t /\ t <> u "") ->
  map fst (left_join d) = picks d
  /\ forall r, In r (scores_query d) ->
       Agg.total_picks r =
         Z.of_nat (List.length
                     (filter (fun p => str_eqb (Pick.name p) (Agg.name r)) (picks d)))
       /\ 0 <= Agg.correct_picks r <= Agg.total_picks r.
Proof.
  intros Hnd Hticker.
  assert (Hjoin : map fst (left_join d) = picks d).
  { unfold left_join. induction (picks d) as [|p l IH]; [reflexivity|].
    cbn [flat_map]. rewrite map_app, IH by (intros q Hq; apply Hticker; now right).
    destruct (Hticker p (or_introl eq_refl)) as (t & Ht & Hne).
    now rewrite (join_pick_ticker_once _ p t Hnd Ht Hne). }
  split; [exact Hjoin|].
  intros r Hr. destruct (scores_query_row d r Hr) as (_ & Hc & Ht & _).
  rewrite Hc, Ht. split; [|apply won_SUM_bounds].
  rewrite <- Hjoin, filter_map, length_map. reflexivity.
Qed.

Lemma ticker_join_counts_once_witness :
  map fst (left_join db_with_X2) = picks db_with_X2.
Proof.
  apply (ticker_join_counts_once db_with_X2).
  - vm_compute. repeat constructor. simpl. tauto.
  - intros p Hp. vm_compute in Hp. destruct Hp as [<-|[]].
    exists (u "X1"). split; [reflexivity|]. vm_compute. discriminate.
Defined.

(** ** What [calculate_scores] stores *)

(** The row of [scores] for the name of [r] is the one [r] gives at [now]. *)
Definition stored (now : str) (r : Agg.row) (l : list Score.row) : Prop :=
  (exists s, In s l /\ Score.name s = Agg.name r)
  /\ forall s, In s l -> Score.name s = Agg.name r ->
       s = Score.mk (Agg.name r) (Agg.total_points r) (Agg.correct_picks r) now.

Lemma upsert_score_stored (now : str) (l : list Score.row) (r : Agg.row) :
  stored now r (upsert_score now l r).
Proof.
  split.
  - eexists. split; [apply upsert_score_In; left; reflexivity|reflexivity].
  - intros s Hs Hn. apply upsert_score_In in Hs as [->|[_ Hne]];
      [reflexivity|contradiction].
Qed.

Lemma upsert_score_stored_other (now : str) (l : list Score.row) (r r' : Agg.row) :
  Agg.name r' <> Agg.name r -> stored now r l -> stored now r (upsert_score now l r').
Proof.
  intros Hne [(s & Hs & Hn) Hval]. split.
  - exists s. split; [|assumption]. apply upsert_score_In. right.
    split; [assumption|congruence].
  - intros s0 Hs0 Hn0. apply upsert_score_In in Hs0 as [->|[Hin _]].
    + simpl in Hn0. congruence.
    + now apply Hval.
Qed.

Lemma fold_upsert_stored_other (now : str) (df : list Agg.row) (l : list Score.row)
    (r : Agg.row) :
  ~ In (Agg.name r) (map Agg.name df) -> stored now r l ->
  stored now r (fold_left (upsert_score now) df l).
Proof.
  revert l. induction df as [|r' df IH]; intros l Hnin Hst; [assumption|].
  cbn [fold_left]. simpl in Hnin. apply IH; [tauto|].
  apply upsert_score_stored_other; [|assumption]. intros E. apply Hnin. now left.
Qed.

Lemma fold_upsert_stored (now : str) (df : list Agg.row) (l : list Score.row) :
  NoDup (map Agg.name df) ->
  forall r, In r df -> stored now r (fold_left (upsert_score now) df l).
Proof.
  revert l. induction df as [|r' df IH]; intros l Hnd r Hr; [contradiction|].
  simpl in Hnd. inversion Hnd as [|? ? Hnin Hnd']; subst. cbn [fold_left].
  destruct Hr as [->|Hr]; [|now apply IH].
  apply fold_upsert_stored_other; [assumption|apply upsert_score_stored].
Qed.

Lemma fold_upsert_keeps (now : str) (df : list Agg.row) (l : list Score.row)
    (s : Score.row) :
  In s l -> ~ In (Score.name s) (map Agg.name df) ->
  In s (fold_left (upsert_score now) df l).
Proof.
  revert l. induction df as [|r df IH]; intros l Hs Hnin; [assumption|].
  cbn [fold_left]. simpl in Hnin. apply IH; [|tauto].
  apply upsert_score_In. right. split; [assumption|]. intros E. apply Hnin. now left.
Qed.

Lemma filter_name_unique (l : list Score.row) (s : Score.row) :
  NoDup (map Score.name l) -> In s l ->
  filter (fun x => str_eqb (Score.name x) (Score.name s)) l = [s].
Proof.
  induction l as [|x l IH]; simpl; intros Hnd Hs; [contradiction|].
  inversion Hnd as [|? ? Hx Hl]; subst.
  destruct Hs as [->|Hs].
  - rewrite str_eqb_refl. f_equal. apply filter_none.
    intros y Hy. apply str_eqb_neq. intros E. apply Hx. rewrite <- E. now apply in_map.
  - replace (str_eqb (Score.name x) (Score.name s)) with false; [now apply IH|].
    symmetry. apply str_eqb_neq. intros E. apply Hx. rewrite E. now apply in_map.
Qed.

(** After [calculate_scores] at [now], when the names of [scores] were
    distinct: every row of the data frame returned has its one row in
    [scores], with its name, its total points, its correct picks and
    [now]; and the rows of [scores] for names that are not in the data
    frame are still there, as they were. *)
Theorem calculate_scores_stores (now : str) (d : db) :
  NoDup (map Score.name (scores d)) ->
  (forall r, In r (fst (calculate_scores now d)) ->
     filter (fun s => str_eqb (Score.name s) (Agg.name r))
            (scores (snd (calculate_scores now d)))
     = [Score.mk (Agg.name r) (Agg.total_points r) (Agg.correct_picks r) now])
  /\ (forall s, In s (scores d) ->
        ~ In (Score.name s) (map Agg.name (fst (calculate_scores now d))) ->
        In s (scores (snd (calculate_scores now d)))).
Proof.
  intros Hnd. unfold calculate_scores. cbn [fst snd scores]. split.
  - intros r Hr.
    destruct (fold_upsert_stored now (scores_query d) (scores d)
                (scores_query_NoDup d) r Hr) as [(s & Hs & Hn) Hval].
    rewrite <- Hn, (filter_name_unique _ s); [|now apply fold_upsert_NoDup|assumption].
    f_equal. rewrite Hn. now apply Hval.
  - intros s Hs Hnin. now apply fold_upsert_keeps.
Qed.

Lemma calculate_scores_stores_witness :
  filter (fun s => str_eqb (Score.name s) (u "Alice"))
         (scores (snd (calculate_scores (u "2026-03-03T00:01:00+00:00") db_biden)))
  = [Score.mk (u "Alice") 16 2 (u "2026-03-03T00:01:00+00:00")].
Proof.
  apply (proj1 (calculate_scores_stores (u "2026-03-03T00:01:00+00:00") db_biden
                  ltac:(constructor))
           (Agg.mk (u "Alice") 16 2 2)).
  vm_compute. now left.
Defined.

(** ** The snapshot a save makes the latest *)

Lemma snapshot_rows_app (now : str) (seq : Z) (a b : list market) :
  snapshot_rows now seq (a ++ b) =
  snapshot_rows now seq a ++ snapshot_rows now (seq + Z.of_nat (List.length a)) b.
Proof.
  revert seq. induction a as [|m a IH]; intros seq.
  - simpl. now rewrite Z.add_0_r.
  - cbn [app snapshot_rows List.length]. rewrite IH. do 3 f_equal. lia.
Qed.

Lemma snapshot_rows_In (now : str) (seq : Z) (markets : list market) (r : Snap.row) :
  In r (snapshot_rows now seq markets) ->
  seq < Snap.id r <= seq + Z.of_nat (List.length markets)
  /\ exists m, In m markets /\ Snap.ticker r = m_ticker m.
Proof.
  revert seq. induction markets as [|m markets IH]; intros seq; [contradiction|].
  cbn [snapshot_rows List.length]. intros [<-|Hr].
  - cbn [Snap.id Snap.ticker]. split; [lia|]. exists m. split; [now left|reflexivity].
  - destruct (IH _ Hr) as (Hid & m' & Hm' & Ht). split; [lia|].
    exists m'. split; [now right|assumption].
Qed.

(** After [save_snapshot], the latest snapshot of the ticker of a market
    saved is the row of that market (of the last such market, when the
    list has several of one ticker), whatever older snapshots the ticker
    has; and the latest snapshot of a ticker that is not among the markets
    saved is the one it was. *)
Theorem save_snapshot_latest (markets : list market) (now : str) (d d' : db) :
  ids_ok (map Snap.id (market_snapshots d)) (market_snapshots_seq d) ->
  save_snapshot markets now d = Some d' ->
  (forall before m after,
     markets = before ++ m :: after ->
     (forall m', In m' after -> m_ticker m' <> m_ticker m) ->
     filter (fun r => str_eqb (Snap.ticker r) (m_ticker m))
            (latest_snapshots (market_snapshots d'))
     = [Snap.mk (market_snapshots_seq d + Z.of_nat (List.length before) + 1)
                (m_ticker m) (m_event_ticker m) (m_title m) (m_price m)
                (m_status m) (m_result m) now])
  /\ (forall t,
        ~ In t (map m_ticker markets) ->
        filter (fun r => str_eqb (Snap.ticker r) t)
               (latest_snapshots (market_snapshots d'))
        = filter (fun r => str_eqb (Snap.ticker r) t)
                 (latest_snapshots (market_snapshots d))).
Proof.
  intros Hids. unfold save_snapshot.
  destruct (existsb (fun m => PrimFloat.is_nan (m_price m)) markets); [discriminate|].
  intros H. injection H as <-. rewrite insert_snapshots_append. cbn [market_snapshots].
  remember (market_snapshots d) as old eqn:Eold.
  remember (market_snapshots_seq d) as seq eqn:Eseq. clear Eold Eseq.
  assert (Hnd : NoDup (map Snap.id (old ++ snapshot_rows now seq markets))).
  { rewrite map_app.
    apply (ids_ok_app _ _ seq (seq + Z.of_nat (List.length markets)));
      [assumption|lia|apply snapshot_rows_ids|apply snapshot_rows_ids]. }
  destruct Hids as [Hold Hle]. rewrite Forall_forall in Hle.
  split.
  - intros before m after -> Hafter.
    set (row := Snap.mk (seq + Z.of_nat (List.length before) + 1)
                  (m_ticker m) (m_event_ticker m) (m_title m) (m_price m)
                  (m_status m) (m_result m) now).
    change (m_ticker m) with (Snap.ticker row) at 1.
    assert (Hrows : snapshot_rows now seq (before ++ m :: after) =
                    snapshot_rows now seq before
                    ++ row :: snapshot_rows now (seq + Z.of_nat (List.length before) + 1) after).
    { rewrite snapshot_rows_app. reflexivity. }
    rewrite Hrows in *.
    apply latest_of_max; [assumption| |].
    + rewrite !in_app_iff. right. right. now left.
    + intros r Hr Ht. rewrite !in_app_iff in Hr. cbn [Snap.id row].
      destruct Hr as [Hr|[Hr|Hr]].
      * specialize (Hle (Snap.id r) (in_map Snap.id _ _ Hr)). cbn beta in Hle. lia.
      * apply snapshot_rows_In in Hr as [Hid _]. lia.
      * destruct Hr as [<-|Hr]; [unfold row; cbn [Snap.id]; lia|].
        apply snapshot_rows_In in Hr as (_ & m' & Hm' & Ht').
        exfalso. apply (Hafter m' Hm'). rewrite <- Ht'. exact Ht.
  - intros t Hnew.
    destruct (in_dec (list_eq_dec N.eq_dec) t (map Snap.ticker old)) as [Ht|Ht].
    + destruct (ticker_has_max old t Ht) as (s & Hs & <- & Hmax).
      rewrite (latest_of_max old s Hold Hs Hmax).
      apply latest_of_max; [assumption|apply in_app_iff; now left|].
      intros r Hr Hrt. apply in_app_iff in Hr as [Hr|Hr]; [now apply Hmax|].
      apply snapshot_rows_In in Hr as (_ & m' & Hm' & Ht').
      exfalso. apply Hnew. rewrite <- Hrt, Ht'. now apply in_map.
    + rewrite !filter_none; [reflexivity| |].
      * intros r Hr. apply str_eqb_neq. intros <-. apply Ht, in_map.
        now apply latest_snapshots_incl.
      * intros r Hr. apply str_eqb_neq. intros <-.
        apply latest_snapshots_incl, in_app_iff in Hr as [Hr|Hr].
        -- apply Ht. now apply in_map.
        -- apply snapshot_rows_In in Hr as (_ & m' & Hm' & Ht').
           apply Hnew. rewrite Ht'. now apply in_map.
Qed.

Lemma save_snapshot_latest_witness :
  filter (fun r => str_eqb (Snap.ticker r) (u "X1"))
         (latest_snapshots (market_snapshots db_two_snapshots))
  = [Snap.mk 2 (u "X1") (u "KXTRUMPMENTION-26FEB28") (u "Trillion") 0.95
             (u "active") (Some (u "")) (u "2026-02-28T00:00:00+00:00")].
Proof.
  pose (d1 := mkdb [] 0
                [Snap.mk 1 (u "X1") (u "KXTRUMPMENTION-26FEB28") (u "Trillion") 0.40
                         (u "active") (Some (u "")) (u "2026-02-28T00:00:00+00:00")]
                1 []).
  assert (Hok : ids_ok (map Snap.id (market_snapshots d1)) (market_snapshots_seq d1)).
  { split; repeat constructor; simpl; [tauto|lia]. }
  assert (Hsave : save_snapshot [market_at 0.95] (u "2026-02-28T00:00:00+00:00") d1
                  = Some db_two_snapshots) by (vm_compute; reflexivity).
  apply (proj1 (save_snapshot_latest _ _ d1 db_two_snapshots Hok Hsave)
           [] (market_at 0.95) []); [reflexivity|].
  intros m' [].
Defined.

(** ** Canonical names *)

Lemma dict_get_In {V : Type} (d : dict V) (k : str) (v : V) :
  dict_get d k = Some v -> In (k, v) d.
Proof.
  induction d as [|[k' v'] d IH]; simpl; [discriminate|].
  destruct (str_eqb k k') eqn:E.
  - intros H. injection H as <-. apply str_eqb_eq in E. subst. now left.
  - intros H. right. now apply IH.
Qed.

(** Every name of the option tables is its own canonical name. *)
Lemma options_canonical (k : str) (v : Z) :
  In (k, v) (SAY_POINTS ++ MENTION_POINTS) -> resolve_pick k = k.
Proof.
  assert (H : forallb (fun kv => str_eqb (resolve_pick (fst kv)) (fst kv))
                      (SAY_POINTS ++ MENTION_POINTS) = true)
    by (vm_compute; reflexivity).
  rewrite forallb_forall in H. intros Hin. apply str_eqb_eq. exact (H _ Hin).
Qed.

(** The canonical name [validate_pick] returns for an option is an option
    that [validate_pick] returns as it is, with the same category and
    points: the picks stored validate to themselves. And every alias of
    the table is classified, under the canonical name the table gives
    it. *)
Theorem validate_pick_canonical :
  (forall (pick category canonical : str) (pts : Z),
     validate_pick pick = (Some category, pts, canonical) ->
     validate_pick canonical = (Some category, pts, canonical))
  /\ (forall alias canonical : str,
        In (alias, canonical) ALIASES ->
        exists category pts,
          validate_pick alias = (Some category, pts, canonical)).
Proof.
  split.
  - intros pick category canonical pts. unfold validate_pick at 1. cbv zeta.
    unfold dict_mem, get_or.
    destruct (dict_get SAY_POINTS (resolve_pick pick)) as [v|] eqn:Es.
    + intros H. injection H as <- <- <-.
      assert (Hc : resolve_pick (resolve_pick pick) = resolve_pick pick).
      { apply (options_canonical _ v), in_app_iff. left. now apply dict_get_In. }
      unfold validate_pick, dict_mem, get_or. cbv zeta. now rewrite Hc, Es.
    + destruct (dict_get MENTION_POINTS (resolve_pick pick)) as [v|] eqn:Em;
        [|discriminate].
      intros H. injection H as <- <- <-.
      assert (Hc : resolve_pick (resolve_pick pick) = resolve_pick pick).
      { apply (options_canonical _ v), in_app_iff. right. now apply dict_get_In. }
      unfold validate_pick, dict_mem, get_or. cbv zeta. now rewrite Hc, Es, Em.
  - assert (H : forallb
                  (fun kv => match validate_pick (fst kv) with
                             | (Some _, _, canonical) => str_eqb canonical (snd kv)
                             | (None, _, _) => false
                             end) ALIASES = true)
      by (vm_compute; reflexivity).
    rewrite forallb_forall in H. intros alias canonical Hin.
    specialize (H _ Hin). cbn [fst snd] in H.
    destruct (validate_pick alias) as [[[category|] pts] c]; [|discriminate].
    apply str_eqb_eq in H. subst c. now exists category, pts.
Qed.

Lemma validate_pick_canonical_witness :
  validate_pick (u "Newsom - 81 points") = (Some (u "mention"), 81, u "Newsom / Newscum")
  /\ validate_pick (u "Newsom / Newscum") = (Some (u "mention"), 81, u "Newsom / Newscum").
Proof.
  assert (H : validate_pick (u "Newsom - 81 points")
              = (Some (u "mention"), 81, u "Newsom / Newscum"))
    by (vm_compute; reflexivity).
  split; [exact H|]. exact (proj1 validate_pick_canonical _ _ _ _ H).
Defined.

(** ** Uploads without a name or a pick column *)

Lemma dict_get_combine_None {V : Type} (keys : list str) (vals : list V) (k : str) :
  ~ In k keys -> dict_get (combine keys vals) k = None.
Proof.
  revert vals. induction keys as [|k' keys IH]; intros vals Hnin; [reflexivity|].
  destruct vals as [|v vals]; [reflexivity|]. simpl.
  destruct (str_eqb k k') eqn:E.
  - apply str_eqb_eq in E. subst. exfalso. apply Hnin. now left.
  - apply IH. intros H. apply Hnin. now right.
Qed.

Lemma flat_map_nil {A B : Type} (f : A -> list B) (l : list A) :
  (forall x, In x l -> f x = []) -> flat_map f l = [].
Proof.
  induction l as [|x l IH]; intros H; [reflexivity|].
  simpl. rewrite (H x (or_introl eq_refl)), IH; [reflexivity|].
  intros y Hy. apply H. now right.
Qed.

(** [save_picks] stores nothing, and changes nothing, when no column label
    holds [name] (in any case of letters), and when none holds [pick]. *)
Theorem save_picks_needs_columns (df : DataFrame) (title_to_ticker : dict (dict str))
    (now : str) (d : db) :
  (forall c, In c (columns df) -> contains (u "name") (lower c) = false)
  \/ (forall c, In c (columns df) -> contains (u "pick") (lower c) = false) ->
  save_picks df title_to_ticker now d = d.
Proof.
  intros H. rewrite save_picks_append.
  assert (Hcells : pick_cells df = []).
  { unfold pick_cells. destruct H as [Hname|Hpick].
    - rewrite (filter_none _ (rows df)); [reflexivity|].
      intros row _. apply negb_false_iff, str_eqb_eq.
      unfold name_of, find_col, row_get, get_or.
      rewrite (filter_none _ (columns df)) by exact Hname.
      rewrite dict_get_combine_None; [reflexivity|].
      intros Hin. specialize (Hname _ Hin). vm_compute in Hname. discriminate.
    - apply flat_map_nil. intros row _. unfold pick_cols.
      now rewrite (filter_none _ (columns df)) by exact Hpick. }
  unfold accepted. rewrite Hcells. apply append_picks_nil.
Qed.

Definition df_no_name : DataFrame :=
  mkdf [u "timestamp"; u "who"; u "pick_1"]
       [ [u "2026-02-27 10:00"; u "Alice"; u "Biden"] ].

Lemma save_picks_needs_columns_witness :
  save_picks df_no_name [] (u "2026-02-27T12:00:00+00:00") init_db = init_db.
Proof.
  apply save_picks_needs_columns. left.
  intros c Hc. simpl in Hc.
  destruct Hc as [<-|[<-|[<-|[]]]]; vm_compute; reflexivity.
Defined.

(** ** The map from titles to tickers *)

Lemma dict_get_app {V : Type} (d d' : dict V) (k : str) :
  dict_get (d ++ d') k =
  match dict_get d k with Some v => Some v | None => dict_get d' k end.
Proof.
  induction d as [|[k' v'] d IH]; simpl; [reflexivity|].
  now destruct (str_eqb k k').
Qed.

Lemma dict_get_replace {V : Type} (d : dict V) (k k' : str) (v : V) :
  dict_get (map (fun kv => if str_eqb (fst kv) k then (fst kv, v) else kv) d) k' =
  if str_eqb k' k
  then match dict_get d k' with Some _ => Some v | None => None end
  else dict_get d k'.
Proof.
  induction d as [|[k0 v0] d IH]; simpl; [now destruct (str_eqb k' k)|].
  destruct (str_eqb k0 k) eqn:E0; simpl; destruct (str_eqb k' k0) eqn:E1.
  - apply str_eqb_eq in E0, E1. subst. now rewrite str_eqb_refl.
  - exact IH.
  - apply str_eqb_eq in E1. subst. now rewrite E0.
  - exact IH.
Qed.

(** A lookup after an assignment. *)
Lemma dict_get_set {V : Type} (d : dict V) (k k' : str) (v : V) :
  dict_get (dict_set d k v) k' = if str_eqb k' k then Some v else dict_get d k'.
Proof.
  unfold dict_set, dict_mem. destruct (dict_get d k) as [v0|] eqn:E.
  - rewrite dict_get_replace. destruct (str_eqb k' k) eqn:Ek; [|reflexivity].
    apply str_eqb_eq in Ek. subst. now rewrite E.
  - rewrite dict_get_app. simpl. destruct (str_eqb k' k) eqn:Ek.
    + apply str_eqb_eq in Ek. subst. now rewrite E.
    + now destruct (dict_get d k').
Qed.

(** The title a market is filed under. *)
Definition title_of (m : dict str) : str := strip (get_or m (u "yes_sub_title") (u "")).

(** One round of the loop of [build_title_to_ticker_map]. *)
Definition add_market (mapping : option (dict str)) (m : dict str) : option (dict str) :=
  match mapping with
  | None => None
  | Some mapping =>
      if str_eqb (title_of m) (u "") then Some mapping
      else match dict_get m (u "ticker") with
           | Some ticker => Some (dict_set mapping (title_of m) ticker)
           | None => None
           end
  end.

Lemma add_markets_None (markets : list (dict str)) :
  fold_left add_market markets None = None.
Proof. induction markets as [|m markets IH]; [reflexivity|exact IH]. Qed.

(** The ticker of the last market filed under [t]. *)
Fixpoint last_ticker (markets : list (dict str)) (t : str) : option str :=
  match markets with
  | [] => None
  | m :: markets' =>
      match last_ticker markets' t with
      | Some ticker => Some ticker
      | None =>
          if negb (str_eqb t (u "")) && str_eqb t (title_of m)
          then dict_get m (u "ticker") else None
      end
  end.

Lemma add_markets_get (markets : list (dict str)) (acc mapping : dict str) (t : str) :
  fold_left add_market markets (Some acc) = Some mapping ->
  dict_get mapping t =
  match last_ticker markets t with Some ticker => Some ticker | None => dict_get acc t end.
Proof.
  revert acc. induction markets as [|m markets IH]; intros acc.
  - simpl. intros H. now injection H as <-.
  - cbn [fold_left last_ticker add_market].
    destruct (str_eqb (title_of m) (u "")) eqn:Eb.
    + intros H. rewrite (IH _ H).
      destruct (last_ticker markets t); [reflexivity|].
      apply str_eqb_eq in Eb. rewrite Eb.
      now destruct (str_eqb t (u "")).
    + destruct (dict_get m (u "ticker")) as [ticker|];
        [|now rewrite add_markets_None].
      intros H. rewrite (IH _ H).
      destruct (last_ticker markets t); [reflexivity|].
      rewrite dict_get_set.
      destruct (str_eqb t (title_of m)) eqn:Et; [|now rewrite andb_false_r].
      apply str_eqb_eq in Et. subst t. now rewrite Eb.
Qed.

Lemma last_ticker_none (markets : list (dict str)) (t : str) :
  (forall m, In m markets -> title_of m <> t) -> last_ticker markets t = None.
Proof.
  induction markets as [|m markets IH]; intros H; [reflexivity|].
  cbn [last_ticker]. rewrite IH by (intros m' Hm'; apply H; now right).
  replace (str_eqb t (title_of m)) with false; [now rewrite andb_false_r|].
  symmetry. apply str_eqb_neq. intros E. apply (H m); [now left|now symmetry].
Qed.

Lemma last_ticker_blank (markets : list (dict str)) : last_ticker markets (u "") = None.
Proof.
  induction markets as [|m markets IH]; [reflexivity|].
  cbn [last_ticker]. now rewrite IH.
Qed.

Lemma last_ticker_app (a b : list (dict str)) (t : str) :
  last_ticker (a ++ b) t =
  match last_ticker b t with Some ticker => Some ticker | None => last_ticker a t end.
Proof.
  induction a as [|m a IH]; simpl.
  - now destruct (last_ticker b t).
  - rewrite IH. now destruct (last_ticker b t).
Qed.

Lemma add_markets_tickers (markets : list (dict str)) (acc mapping : dict str) :
  fold_left add_market markets (Some acc) = Some mapping ->
  forall m, In m markets -> title_of m <> u "" -> dict_get m (u "ticker") <> None.
Proof.
  revert acc. induction markets as [|m0 markets IH]; intros acc H m Hm Ht;
    [contradiction|].
  cbn [fold_left add_market] in H.
  destruct Hm as [->|Hm].
  - apply str_eqb_neq in Ht. rewrite Ht in H.
    destruct (dict_get m (u "ticker")); [discriminate|].
    now rewrite add_markets_None in H.
  - destruct (str_eqb (title_of m0) (u "")); [now apply (IH acc)|].
    destruct (dict_get m0 (u "ticker")) as [ticker|];
      [now apply (IH (dict_set acc (title_of m0) ticker))|].
    now rewrite add_markets_None in H.
Qed.

(** What [build_title_to_ticker_map] returns when it returns: a title is
    mapped to the ticker of the last market of that title, the titles
    being stripped of white space at both ends; a title no market has is
    not a key, and the empty title never is one. *)
Theorem build_title_to_ticker_map_lookup (markets : list (dict str)) (mapping : dict str) :
  build_title_to_ticker_map markets = Some mapping ->
  (forall before m after,
     markets = before ++ m :: after ->
     title_of m <> u "" ->
     (forall m', In m' after -> title_of m' <> title_of m) ->
     exists ticker,
       dict_get m (u "ticker") = Some ticker
       /\ dict_get mapping (title_of m) = Some ticker)
  /\ (forall t, (forall m, In m markets -> title_of m <> t) ->
                dict_get mapping t = None)
  /\ dict_get mapping (u "") = None.
Proof.
  intros H. change (fold_left add_market markets (Some []) = Some mapping) in H.
  split; [|split].
  - intros before m after -> Ht Hafter.
    destruct (dict_get m (u "ticker")) as [ticker|] eqn:Em.
    + exists ticker. split; [reflexivity|].
      rewrite (add_markets_get _ _ _ _ H), last_ticker_app. cbn [last_ticker].
      rewrite (last_ticker_none after) by exact Hafter.
      rewrite str_eqb_refl. apply str_eqb_neq in Ht. rewrite Ht. cbn [negb andb].
      now rewrite Em.
    + exfalso. apply (add_markets_tickers _ _ _ H m); auto.
      apply in_app_iff. right. now left.
  - intros t Hnone. rewrite (add_markets_get _ _ _ _ H), last_ticker_none by exact Hnone.
    reflexivity.
  - now rewrite (add_markets_get _ _ _ _ H), last_ticker_blank.
Qed.

(** Two markets of one title, the title of the second with white space
    around it, and a market without a title. *)
Definition markets_listed : list (dict str) :=
  [ [(u "ticker", u "KXTRUMPMENTION-26MAR02-BIDE"); (u "yes_sub_title", u "Biden")];
    [(u "ticker", u "KXTRUMPMENTION-26MAR02-BID2"); (u "yes_sub_title", u " Biden ")];
    [(u "ticker", u "KXTRUMPMENTION-26MAR02-NONE"); (u "yes_sub_title", u "  ")] ].

Lemma build_title_to_ticker_map_lookup_witness :
  exists ticker,
    ticker = u "KXTRUMPMENTION-26MAR02-BID2"
    /\ dict_get [(u "Biden", u "KXTRUMPMENTION-26MAR02-BID2")] (u "Biden") = Some ticker.
Proof.
  assert (H : build_title_to_ticker_map markets_listed
              = Some [(u "Biden", u "KXTRUMPMENTION-26MAR02-BID2")])
    by (vm_compute; reflexivity).
  destruct (proj1 (build_title_to_ticker_map_lookup _ _ H)
              [ [(u "ticker", u "KXTRUMPMENTION-26MAR02-BIDE"); (u "yes_sub_title", u "Biden")] ]
              [(u "ticker", u "KXTRUMPMENTION-26MAR02-BID2"); (u "yes_sub_title", u " Biden ")]
              [ [(u "ticker", u "KXTRUMPMENTION-26MAR02-NONE"); (u "yes_sub_title", u "  ")] ]
              eq_refl
              ltac:(vm_compute; discriminate)
              ltac:(intros m' [<-|[]]; vm_compute; discriminate))
    as (ticker & Ht & Hget).
  exists ticker. split; [|exact Hget].
  vm_compute in Ht. now injection Ht as <-.
Defined.

(** ** The order of strings *)

Lemma str_ltb_irrefl (a : str) : str_ltb a a = false.
Proof.
  induction a as [|x a IH]; [reflexivity|].
  simpl. now rewrite N.ltb_irrefl, N.eqb_refl, IH.
Qed.

Lemma str_ltb_trans (a b c : str) :
  str_ltb a b = true -> str_ltb b c = true -> str_ltb a c = true.
Proof.
  revert b c. induction a as [|x a IH]; intros [|y b] [|z c]; simpl;
    try discriminate; try reflexivity.
  rewrite !orb_true_iff, !andb_true_iff, !N.ltb_lt, !N.eqb_eq.
  intros [Hxy|[-> Hab]] [Hyz|[-> Hbc]].
  - left. lia.
  - now left.
  - now left.
  - right. split; [reflexivity|]. now apply (IH b).
Qed.

Lemma str_ltb_trichotomy (a b : str) :
  str_ltb a b = true \/ a = b \/ str_ltb b a = true.
Proof.
  revert b. induction a as [|x a IH]; intros [|y b]; simpl; auto.
  rewrite !orb_true_iff, !andb_true_iff, !N.ltb_lt, !N.eqb_eq.
  destruct (N.lt_trichotomy x y) as [H|[->|H]]; auto.
  destruct (IH b) as [H|[->|H]]; auto.
Qed.

Lemma str_leb_total (a b : str) : str_leb a b = true \/ str_leb b a = true.
Proof.
  unfold str_leb. destruct (str_ltb b a) eqn:E; [right|now left].
  destruct (str_ltb a b) eqn:E'; [|reflexivity].
  pose proof (str_ltb_trans _ _ _ E E') as H. rewrite str_ltb_irrefl in H.
  discriminate.
Qed.

Lemma str_leb_trans (a b c : str) :
  str_leb a b = true -> str_leb b c = true -> str_leb a c = true.
Proof.
  unfold str_leb. rewrite !negb_true_iff. intros Hab Hbc.
  destruct (str_ltb c a) eqn:E; [exfalso|reflexivity].
  destruct (str_ltb_trichotomy a b) as [H|[->|H]]; [|congruence|congruence].
  pose proof (str_ltb_trans _ _ _ E H) as H'. congruence.
Qed.

(** ** Sorted results *)

Section Sorting.
Context {A : Type} (le : A -> A -> bool).
Hypothesis le_total : forall a b, le a b = true \/ le b a = true.
Hypothesis le_trans : forall a b c, le a b = true -> le b c = true -> le a c = true.

Lemma insert_by_sorted (x : A) (l : list A) :
  StronglySorted (fun a b => le a b = true) l ->
  StronglySorted (fun a b => le a b = true) (insert_by le x l).
Proof.
  induction 1 as [|y l Hl IH Hy]; simpl; [repeat constructor|].
  destruct (le x y) eqn:E.
  - constructor; [now constructor|]. constructor; [assumption|].
    rewrite Forall_forall in *. intros z Hz. eapply le_trans; eauto.
  - constructor; [assumption|].
    apply Forall_forall. intros z Hz.
    apply (Permutation_in _ (Permutation_sym (insert_by_perm le x l))) in Hz.
    destruct Hz as [<-|Hz].
    + destruct (le_total x y); congruence.
    + rewrite Forall_forall in Hy. now apply Hy.
Qed.

Lemma sort_by_sorted (l : list A) :
  StronglySorted (fun a b => le a b = true) (sort_by le l).
Proof.
  induction l as [|x l IH]; simpl; [constructor|]. now apply insert_by_sorted.
Qed.
End Sorting.

Lemma StronglySorted_impl {A : Type} (R R' : A -> A -> Prop) (l : list A) :
  (forall a b, R a b -> R' a b) -> StronglySorted R l -> StronglySorted R' l.
Proof.
  intros H. induction 1 as [|x l Hl IH Hx]; constructor; [assumption|].
  rewrite Forall_forall in *. auto.
Qed.

Lemma by_name_id_total (a b : Pick.row) :
  by_name_id a b = true \/ by_name_id b a = true.
Proof.
  unfold by_name_id.
  destruct (str_ltb_trichotomy (Pick.name a) (Pick.name b)) as [H|[H|H]].
  - left. now rewrite H.
  - rewrite H, str_eqb_refl, !andb_true_l.
    destruct (Z.le_ge_cases (Pick.id a) (Pick.id b)) as [L|L];
      [left|right]; apply orb_true_iff; right; now apply Z.leb_le.
  - right. now rewrite H.
Qed.

Lemma by_name_id_spec (a b : Pick.row) :
  by_name_id a b = true <->
  str_ltb (Pick.name a) (Pick.name b) = true
  \/ (Pick.name a = Pick.name b /\ Pick.id a <= Pick.id b).
Proof.
  unfold by_name_id. now rewrite orb_true_iff, andb_true_iff, str_eqb_eq, Z.leb_le.
Qed.

Lemma by_name_id_trans (a b c : Pick.row) :
  by_name_id a b = true -> by_name_id b c = true -> by_name_id a c = true.
Proof.
  rewrite !by_name_id_spec. intros [H1|[E1 L1]] [H2|[E2 L2]].
  - left. eapply str_ltb_trans; eauto.
  - left. now rewrite <- E2.
  - left. now rewrite E1.
  - right. split; [congruence|lia].
Qed.

(** [get_picks] returns the picks of the table, all of them and each once,
    in the order of their names (by code points), the picks of one name in
    the order of their ids. *)
Theorem get_picks_order (d : db) :
  Permutation (picks d) (get_picks d)
  /\ StronglySorted
       (fun a b => str_ltb (Pick.name a) (Pick.name b) = true
                   \/ (Pick.name a = Pick.name b /\ Pick.id a <= Pick.id b))
       (get_picks d).
Proof.
  split; [apply sort_by_perm|].
  apply (StronglySorted_impl (fun a b => by_name_id a b = true)).
  - intros a b. apply by_name_id_spec.
  - apply sort_by_sorted; [exact by_name_id_total|exact by_name_id_trans].
Qed.

(** [get_leaderboard] returns the rows of [scores], all of them and each
    once, from the most total points to the least. *)
Theorem get_leaderboard_order (d : db) :
  Permutation (scores d) (get_leaderboard d)
  /\ StronglySorted (fun a b => Score.total_points b <= Score.total_points a)
                    (get_leaderboard d).
Proof.
  split; [apply sort_by_perm|].
  apply (StronglySorted_impl
           (fun a b => (Score.total_points b <=? Score.total_points a) = true)).
  - intros a b. apply Z.leb_le.
  - apply sort_by_sorted.
    + intros a b. rewrite !Z.leb_le. lia.
    + intros a b c. rewrite !Z.leb_le. lia.
Qed.

(** [get_snapshots] returns the snapshots of the event asked for, and all
    the snapshots when the argument is empty, each once and in the order of
    their times. *)
Theorem get_snapshots_rows (event_ticker : str) (d : db) :
  Permutation
    (filter (fun s => str_eqb event_ticker (u "")
                      || str_eqb (Snap.event_ticker s) event_ticker)
            (market_snapshots d))
    (get_snapshots event_ticker d)
  /\ (forall s, In s (get_snapshots event_ticker d) <->
                In s (market_snapshots d)
                /\ (event_ticker = u "" \/ Snap.event_ticker s = event_ticker))
  /\ Permutation (market_snapshots d) (get_snapshots (u "") d)
  /\ StronglySorted
       (fun a b => str_ltb (Snap.snapshot_time b) (Snap.snapshot_time a) = false)
       (get_snapshots event_ticker d).
Proof.
  assert (Hfilter : (if str_eqb event_ticker (u "") then market_snapshots d
                     else filter (fun s => str_eqb (Snap.event_ticker s) event_ticker)
                            (market_snapshots d))
                    = filter (fun s => str_eqb event_ticker (u "")
                                       || str_eqb (Snap.event_ticker s) event_ticker)
                             (market_snapshots d)).
  { destruct (str_eqb event_ticker (u "")); cbn [orb]; [|reflexivity].
    induction (market_snapshots d) as [|s l IH]; [reflexivity|]. simpl. now f_equal. }
  unfold get_snapshots. rewrite Hfilter. split; [|split; [|split]].
  - apply sort_by_perm.
  - intros s. rewrite sort_by_In, filter_In, orb_true_iff, !str_eqb_eq. tauto.
  - apply sort_by_perm.
  - apply (StronglySorted_impl
             (fun a b => str_leb (Snap.snapshot_time a) (Snap.snapshot_time b) = true)).
    + intros a b. unfold str_leb. apply negb_true_iff.
    + apply sort_by_sorted.
      * intros a b. apply str_leb_total.
      * intros a b c. apply str_leb_trans.
Qed.

(** The data frame [calculate_scores] returns has one row for each name
    that has a pick and none for any other, and its rows go from the most
    total points to the least. *)
Theorem scores_query_rows (now : str) (d : db) :
  NoDup (map Agg.name (fst (calculate_scores now d)))
  /\ (forall n, In n (map Agg.name (fst (calculate_scores now d))) <->
                In n (map Pick.name (picks d)))
  /\ StronglySorted (fun a b => Agg.total_points b <= Agg.total_points a)
                    (fst (calculate_scores now d)).
Proof.
  unfold calculate_scores. cbn [fst]. split; [apply scores_query_NoDup|split].
  - intros n.
    assert (Hn : In n (map Agg.name (scores_query d)) <->
                 In n (distinct (map (fun r => Pick.name (fst r)) (left_join d))))
      by (split; apply Permutation_in; [|symmetry]; apply scores_query_names).
    rewrite Hn, distinct_In.
    unfold left_join. rewrite !in_map_iff. split.
    + intros ([p ms] & <- & Hin). apply in_flat_map in Hin as (q & Hq & Hin).
      pose proof (join_pick_fst (latest_snapshots (market_snapshots d)) q) as Hf.
      rewrite Forall_forall in Hf. specialize (Hf _ Hin). cbn [fst] in *. subst q.
      now exists p.
    + intros (p & <- & Hp).
      assert (Hne : exists r, In r (join_pick (latest_snapshots (market_snapshots d)) p)).
      { unfold join_pick.
        destruct (filter (fun s => holds (join_on p s))
                         (latest_snapshots (market_snapshots d))) as [|s l];
          eexists; now left. }
      destruct Hne as (r & Hr).
      pose proof (join_pick_fst (latest_snapshots (market_snapshots d)) p) as Hf.
      rewrite Forall_forall in Hf. exists r. split; [now rewrite (Hf _ Hr)|].
      apply in_flat_map. now exists p.
  - unfold scores_query. cbv zeta.
    apply (StronglySorted_impl
             (fun a b => (Agg.total_points b <=? Agg.total_points a) = true)).
    + intros a b. apply Z.leb_le.
    + apply sort_by_sorted.
      * intros a b. rewrite !Z.leb_le. lia.
      * intros a b c. rewrite !Z.leb_le. lia.
Qed.

(** ** Titles that tell the latest snapshots apart *)

Lemma filter_key_le1 {A : Type} (f : A -> str) (k : str) (l : list A) :
  NoDup (map f l) ->
  (List.length (filter (fun x => str_eqb (f x) k) l) <= 1)%nat.
Proof.
  induction l as [|x l IH]; simpl; intros Hnd; [lia|].
  inversion Hnd as [|? ? Hx Hl]; subst.
  destruct (str_eqb (f x) k) eqn:E; [|now apply IH].
  apply str_eqb_eq in E. rewrite filter_none; [simpl; lia|].
  intros y Hy. apply str_eqb_neq. intros Ey. apply Hx. rewrite E, <- Ey.
  now apply in_map.
Qed.

Lemma join_on_null (p : Pick.row) (s : Snap.row) :
  Pick.market_ticker p = None -> holds (join_on p s) = false.
Proof.
  intros H. unfold join_on. rewrite H. cbn [sql_ne sql_eq sql_and].
  now destruct (str_eqb (Pick.pick p) (Snap.title s)).
Qed.

Lemma join_pick_one (ms : list Snap.row) (p : Pick.row) :
  (List.length (filter (fun s => holds (join_on p s)) ms) <= 1)%nat ->
  map fst (join_pick ms p) = [p].
Proof.
  unfold join_pick.
  destruct (filter (fun s => holds (join_on p s)) ms) as [|s [|s' l]];
    [reflexivity|reflexivity|]. simpl. lia.
Qed.

(** When snapshot ids are distinct and no two of the latest snapshots have
    one title, the join has one row for each pick, with or without a
    ticker, in the order of the picks; the picks counted for a participant
    are then the picks the participant has. *)
Theorem distinct_titles_count_once (d : db) :
  NoDup (map Snap.id (market_snapshots d)) ->
  NoDup (map Snap.title (latest_snapshots (market_snapshots d))) ->
  map fst (left_join d) = picks d
  /\ forall r, In r (scores_query d) ->
       Agg.total_picks r =
       Z.of_nat (List.length
                   (filter (fun p => str_eqb (Pick.name p) (Agg.name r)) (picks d))).
Proof.
  intros Hids Htitles.
  assert (Hjoin : map fst (left_join d) = picks d).
  { unfold left_join. induction (picks d) as [|p l IH]; [reflexivity|].
    cbn [flat_map]. rewrite map_app, IH. clear IH.
    rewrite join_pick_one; [reflexivity|].
    destruct (Pick.market_ticker p) as [t|] eqn:Et.
    - destruct (str_eqb t (u "")) eqn:Ee.
      + apply str_eqb_eq in Ee. subst t.
        rewrite (filter_ext _ (fun s => str_eqb (Snap.title s) (Pick.pick p)))
          by (intros s; now apply join_on_title).
        now apply filter_key_le1.
      + apply str_eqb_neq in Ee.
        rewrite (filter_ext _ (fun s => str_eqb (Snap.ticker s) t))
          by (intros s; now apply join_on_ticker).
        now apply latest_of_ticker.
    - rewrite filter_none; [simpl; lia|]. intros s _. now apply join_on_null. }
  split; [exact Hjoin|].
  intros r Hr. destruct (scores_query_row d r Hr) as (_ & _ & Ht & _).
  rewrite Ht, <- Hjoin, filter_map, length_map. reflexivity.
Qed.

Lemma distinct_titles_count_once_witness :
  map fst (left_join db_with_X2) = picks db_with_X2.
Proof.
  apply (distinct_titles_count_once db_with_X2).
  - vm_compute. repeat constructor. simpl. tauto.
  - vm_compute. repeat constructor. simpl. tauto.
Defined.

(** ** Uploads that pass the validation *)

Lemma lower_char_letter (c x : N) (rest rest' : str) :
  (97 <= x <= 122)%N -> x <> 107%N -> x <> 105%N ->
  lower_char c ++ rest = x :: rest' ->
  (c = x \/ (c + 32)%N = x) /\ rest = rest'.
Proof.
  intros Hx Hk Hi. unfold lower_char.
  destruct (N.leb 65 c && N.leb c 90)%N; [|destruct (N.eqb c 8490);
                                            [|destruct (N.eqb c 304)]];
    simpl; intros H; injection H as H1 H2; subst; auto; contradiction.
Qed.

Lemma lower_nil (v : str) : lower v = [] -> v = [].
Proof.
  destruct v as [|c v]; [reflexivity|]. unfold lower. simpl. unfold lower_char.
  destruct (N.leb 65 c && N.leb c 90)%N; [|destruct (N.eqb c 8490);
                                            [|destruct (N.eqb c 304)]];
    discriminate.
Qed.

(** The strings that read [nan] in lower case. *)
Lemma lower_nan (v : str) :
  lower v = u "nan" ->
  exists a b c, v = [a; b; c]
    /\ (a = 110 \/ a = 78)%N /\ (b = 97 \/ b = 65)%N /\ (c = 110 \/ c = 78)%N.
Proof.
  unfold lower. change (u "nan") with [110; 97; 110]%N.
  destruct v as [|a [|b [|c v]]]; simpl; try discriminate.
  - intros H. rewrite app_nil_r in H. unfold lower_char in H.
    destruct (N.leb 65 a && N.leb a 90)%N; [|destruct (N.eqb a 8490);
                                              [|destruct (N.eqb a 304)]];
      discriminate.
  - intros H. apply lower_char_letter in H as [_ H]; try lia.
    rewrite app_nil_r in H. unfold lower_char in H.
    destruct (N.leb 65 b && N.leb b 90)%N; [|destruct (N.eqb b 8490);
                                              [|destruct (N.eqb b 304)]];
      discriminate.
  - intros H. apply lower_char_letter in H as [Ha H]; try lia.
    apply lower_char_letter in H as [Hb H]; try lia.
    apply lower_char_letter in H as [Hc H]; try lia.
    fold (lower v) in H. apply lower_nil in H. subst v.
    exists a, b, c. repeat split; lia.
Qed.

(** No option is blank, and none reads [nan]. *)
Lemma classified_not_placeholder (v : str) :
  classified v = true -> placeholder v = false.
Proof.
  intros Hc. unfold placeholder. apply orb_false_iff. split.
  - destruct (str_eqb v (u "")) eqn:E; [|reflexivity].
    apply str_eqb_eq in E. subst v. vm_compute in Hc. discriminate.
  - destruct (str_eqb (lower v) (u "nan")) eqn:E; [|reflexivity].
    apply str_eqb_eq, lower_nan in E as (a & b & c & -> & Ha & Hb & Hcc).
    destruct Ha as [-> | ->], Hb as [-> | ->], Hcc as [-> | ->];
      vm_compute in Hc; discriminate.
Qed.

Lemma flat_map_nil_inv {A B : Type} (f : A -> list B) (l : list A) :
  flat_map f l = [] -> forall x, In x l -> f x = [].
Proof.
  induction l as [|y l IH]; simpl; intros H x Hx; [contradiction|].
  apply app_eq_nil in H as [Hy Hl]. destruct Hx as [<-|Hx]; auto.
Qed.

Lemma combine_seq_In {A : Type} (l : list A) (x : A) (start : nat) :
  In x l -> exists i, In (i, x) (combine (seq start (List.length l)) l).
Proof.
  revert start. induction l as [|y l IH]; intros start Hx; [contradiction|].
  simpl. destruct Hx as [->|Hx].
  - exists start. now left.
  - destruct (IH (S start) Hx) as (i & Hi). exists i. now right.
Qed.

Lemma filter_all {A : Type} (f : A -> bool) (l : list A) :
  (forall x, In x l -> f x = true) -> filter f l = l.
Proof.
  induction l as [|x l IH]; intros H; simpl; [reflexivity|].
  rewrite (H x (or_introl eq_refl)), IH; [reflexivity|].
  intros y Hy. apply H. now right.
Qed.

Lemma flat_map_length_const {A B : Type} (f : A -> list B) (l : list A) (n : nat) :
  (forall x, List.length (f x) = n) ->
  List.length (flat_map f l) = (List.length l * n)%nat.
Proof.
  intros H. induction l as [|x l IH]; [reflexivity|].
  simpl. now rewrite length_app, H, IH.
Qed.

(** The rows of an upload that have a name. *)
Definition named_rows (df : DataFrame) : list (list str) :=
  filter (fun row => negb (str_eqb (name_of df row) (u ""))) (rows df).

(** When the upload page finds no error in a frame whose pick columns all
    start with [pick], [save_picks] skips no cell of a row that has a name:
    it stores one pick for every such row and every pick column. *)
Theorem validated_upload_is_stored (raw : DataFrame) (title_to_ticker : dict (dict str))
    (now : str) (d : db) :
  upload_errors raw = [] ->
  (forall c, In c (columns raw) ->
             contains (u "pick") (lower c) = true -> startswith c (u "pick") = true) ->
  picks (save_picks raw title_to_ticker now d)
  = picks d ++ lock_rows title_to_ticker now (picks_seq d) (pick_cells raw)
  /\ List.length (picks (save_picks raw title_to_ticker now d))
     = (List.length (picks d)
        + List.length (named_rows raw) * List.length (pick_cols raw))%nat.
Proof.
  intros Herr Hcols.
  assert (Hacc : accepted raw = pick_cells raw).
  { unfold accepted. apply filter_all. intros [[ts name] cell] Hin.
    unfold pick_cells in Hin. apply in_flat_map in Hin as (row & Hrow & Hin).
    apply filter_In in Hrow as [Hrow _].
    apply in_map_iff in Hin as (col & Hcell & Hcol). injection Hcell as _ _ <-.
    unfold pick_cols, sorted in Hcol. rewrite sort_by_In, filter_In in Hcol.
    destruct Hcol as [Hcol Hpick]. specialize (Hcols col Hcol Hpick).
    destruct (combine_seq_In (rows raw) row 0 Hrow) as (i & Hi).
    unfold upload_errors in Herr. cbv zeta in Herr.
    pose proof (flat_map_nil_inv _ _ Herr (i, row) Hi) as Hr. cbn [snd fst] in Hr.
    assert (Hc : In col (filter (fun c => startswith c (u "pick")) (columns raw)))
      by (apply filter_In; auto).
    pose proof (flat_map_nil_inv _ _ Hr col Hc) as Hv. cbn beta in Hv.
    assert (Hcl : classified (strip (row_get raw row col)) = true).
    { unfold classified.
      destruct (validate_pick (strip (row_get raw row col))) as [[[c|] p] n];
        [reflexivity|discriminate]. }
    unfold accepted_cell. cbn [snd].
    now rewrite Hcl, classified_not_placeholder. }
  rewrite save_picks_append. unfold append_picks. cbn [picks]. rewrite Hacc.
  split; [reflexivity|].
  rewrite length_app, lock_rows_length. f_equal.
  unfold pick_cells. fold (named_rows raw).
  apply flat_map_length_const. intros row. apply length_map.
Qed.

Definition df_valid : DataFrame :=
  mkdf [u "timestamp"; u "name"; u "pick_1"; u "pick_2"]
       [ [u "2026-02-27 10:00"; u "Alice"; u "Newsom - 81 points"; u "Trillion"];
         [u "2026-02-27 10:05"; u "Bob"; u "Biden"; u "Putin"] ].

Lemma validated_upload_is_stored_witness :
  List.length (picks (save_picks df_valid [] (u "2026-02-27T12:00:00+00:00") init_db))
  = 4%nat.
Proof.
  rewrite (proj2 (validated_upload_is_stored df_valid []
                    (u "2026-02-27T12:00:00+00:00") init_db
                    ltac:(vm_compute; reflexivity)
                    ltac:(intros c Hc Hp; simpl in Hc;
                          destruct Hc as [<-|[<-|[<-|[<-|[]]]]];
                          first [vm_compute; reflexivity
                                | vm_compute in Hp; discriminate]))).
  vm_compute. reflexivity.
Defined.

(** ** Pages of markets *)

(** A page that is not the last: its markets and the cursor of the next. *)
Definition page_of (p : option (list (dict str)) * str) : response :=
  Page (fst p) (Some (snd p)).

Lemma get_event_markets_from_last (pages : list (option (list (dict str)) * str))
    (ms : option (list (dict str))) (c : option str) (rest : list response)
    (cursor : option str) (markets : list (dict str)) :
  Forall (fun p => snd p <> u "") pages ->
  falsy c = true ->
  get_event_markets_from cursor markets (map page_of pages ++ Page ms c :: rest) =
  ((if falsy cursor then None else cursor) :: map (fun p => Some (snd p)) pages,
   Returned (markets ++ flat_map (fun p => COALESCE (fst p) []) pages ++ COALESCE ms [])).
Proof.
  intros Hne Hc. revert cursor markets.
  induction pages as [|[m s] pages IH]; intros cursor markets.
  - cbn [map app flat_map get_event_markets_from]. now rewrite Hc.
  - inversion Hne as [|? ? Hs Hrest]; subst. cbn [snd] in Hs.
    cbn [map app page_of fst snd get_event_markets_from flat_map].
    rewrite (falsy_nonempty s Hs), (IH Hrest (Some s)), (falsy_nonempty s Hs).
    now rewrite <- !app_assoc.
Qed.

Lemma get_event_markets_from_failure (pages : list (option (list (dict str)) * str))
    (rest : list response) (cursor : option str) (markets : list (dict str)) :
  Forall (fun p => snd p <> u "") pages ->
  get_event_markets_from cursor markets (map page_of pages ++ Failure :: rest) =
  ((if falsy cursor then None else cursor) :: map (fun p => Some (snd p)) pages, Raised).
Proof.
  intros Hne. revert cursor markets.
  induction pages as [|[m s] pages IH]; intros cursor markets; [reflexivity|].
  inversion Hne as [|? ? Hs Hrest]; subst. cbn [snd] in Hs.
  cbn [map app page_of fst snd get_event_markets_from].
  now rewrite (falsy_nonempty s Hs), (IH Hrest (Some s)), (falsy_nonempty s Hs).
Qed.

(** [get_event_markets] follows the cursors: against pages that each name
    a next cursor, followed by a page that names none (or an empty one), it
    sends its first request without cursor and each later one with the
    cursor of the page before, and returns the markets of all these pages
    in order, a page without [markets] counting for none; what the server
    would answer next is not asked for. A failure in place of the last
    page makes the call raise. *)
Theorem get_event_markets_pages (pages : list (option (list (dict str)) * str))
    (ms : option (list (dict str))) (c : option str) (rest : list response) :
  Forall (fun p => snd p <> u "") pages ->
  falsy c = true ->
  get_event_markets (map page_of pages ++ Page ms c :: rest)
  = (None :: map (fun p => Some (snd p)) pages,
     Returned (flat_map (fun p => COALESCE (fst p) []) pages ++ COALESCE ms []))
  /\ get_event_markets (map page_of pages ++ Failure :: rest)
     = (None :: map (fun p => Some (snd p)) pages, Raised).
Proof.
  intros Hne Hc. unfold get_event_markets. split.
  - now rewrite get_event_markets_from_last.
  - now rewrite get_event_markets_from_failure.
Qed.

Lemma get_event_markets_pages_witness :
  get_event_markets
    [ Page (Some [[(u "ticker", u "A")]]) (Some (u "c1"));
      Page None (Some (u "c2"));
      Page (Some [[(u "ticker", u "B")]]) (Some (u ""));
      Failure ]
  = ([None; Some (u "c1"); Some (u "c2")],
     Returned [[(u "ticker", u "A")]; [(u "ticker", u "B")]]).
Proof.
  apply (proj1 (get_event_markets_pages
                  [(Some [[(u "ticker", u "A")]], u "c1"); (None, u "c2")]
                  (Some [[(u "ticker", u "B")]]) (Some (u "")) [Failure]
                  ltac:(repeat constructor; vm_compute; discriminate)
                  eq_refl)).
Defined.

(** ** The snapshot a pick is resolved against (C3) *)

(** The snapshots of the join have the largest id of their ticker. *)
Lemma latest_snapshots_max (snaps : list Snap.row) (s : Snap.row) :
  NoDup (map Snap.id snaps) -> In s (latest_snapshots snaps) ->
  In s snaps
  /\ forall s', In s' snaps -> Snap.ticker s' = Snap.ticker s -> Snap.id s' <= Snap.id s.
Proof.
  intros Hnd Hs. unfold latest_snapshots in Hs. apply filter_In in Hs as [Hs Hex].
  split; [assumption|].
  apply existsb_exists in Hex as (i & Hi & Ei). apply Z.eqb_eq in Ei. subst i.
  apply max_id_per_ticker_In in Hi as (s0 & Hs0 & Hid & Hmax).
  assert (s0 = s) by (apply (NoDup_map_inj Snap.id snaps); assumption).
  now subst s0.
Qed.

Lemma join_pick_snapshot (ms : list Snap.row) (p : Pick.row)
    (r : Pick.row * option Snap.row) (s : Snap.row) :
  In r (join_pick ms p) -> snd r = Some s -> In s ms.
Proof.
  unfold join_pick.
  destruct (filter (fun s => holds (join_on p s)) ms) as [|s0 l] eqn:E.
  - intros [<-|[]]. discriminate.
  - intros Hr Hs. apply in_map_iff in Hr as (x & <- & Hx). cbn [snd] in Hs.
    injection Hs as <-. rewrite <- E in Hx. now apply filter_In in Hx.
Qed.

(** C3. In a database whose snapshot ids are distinct (they are a primary
    key), the snapshots the join of [calculate_scores] and
    [get_pick_details] reads hold, for every ticker of the table, exactly
    one row, the row of that ticker with the largest id; a pick of that
    ticker is joined to this row and to no other, in the join and in the
    pick details; and no pick at all, joined by its ticker or by its title,
    is joined to a snapshot that has not the largest id of its ticker. The
    snapshot time plays no part: rows of equal time are told apart by their
    id alone. *)
Theorem latest_snapshot_is_max_id (d : db) :
  NoDup (map Snap.id (market_snapshots d)) ->
  (forall t : str,
     In t (map Snap.ticker (market_snapshots d)) ->
     exists s : Snap.row,
       filter (fun r => str_eqb (Snap.ticker r) t)
              (latest_snapshots (market_snapshots d)) = [s]
       /\ In s (market_snapshots d)
       /\ Snap.ticker s = t
       /\ (forall r, In r (market_snapshots d) -> Snap.ticker r = t ->
                     Snap.id r <= Snap.id s)
       /\ forall p : Pick.row,
            In p (picks d) -> Pick.market_ticker p = Some t -> t <> u "" ->
            join_pick (latest_snapshots (market_snapshots d)) p = [(p, Some s)]
            /\ In (p, Some s) (left_join d)
            /\ (forall r, In r (left_join d) -> fst r = p -> r = (p, Some s))
            /\ In (detail_of (p, Some s)) (get_pick_details d)
            /\ (forall r, In r (left_join d) -> fst r = p ->
                          won_points r = won_points (p, Some s)))
  /\ (forall (r : Pick.row * option Snap.row) (s : Snap.row),
        In r (left_join d) -> snd r = Some s ->
        In s (market_snapshots d)
        /\ forall s', In s' (market_snapshots d) ->
                      Snap.ticker s' = Snap.ticker s -> Snap.id s' <= Snap.id s).
Proof.
  intros Hnd. split.
  - intros t Ht.
    destruct (latest_per_ticker (market_snapshots d) t Hnd Ht)
      as (s & Hf & Hs & Hst & Hmax).
    exists s. split; [exact Hf|]. split; [exact Hs|]. split; [exact Hst|].
    split; [exact Hmax|].
    intros p Hp Hticker Hne.
    assert (Hj : join_pick (latest_snapshots (market_snapshots d)) p = [(p, Some s)]).
    { unfold join_pick.
      rewrite (filter_ext (fun x => holds (join_on p x))
                          (fun x => str_eqb (Snap.ticker x) t))
        by (intros x; now apply join_on_ticker).
      now rewrite Hf. }
    assert (Hin : In (p, Some s) (left_join d)).
    { unfold left_join. apply in_flat_map. exists p. split; [assumption|].
      rewrite Hj. now left. }
    assert (Hall : forall r, In r (left_join d) -> fst r = p -> r = (p, Some s)).
    { intros r Hr Hfst. unfold left_join in Hr.
      apply in_flat_map in Hr as (q & Hq & Hr).
      pose proof (join_pick_fst (latest_snapshots (market_snapshots d)) q) as Hq'.
      rewrite Forall_forall in Hq'. specialize (Hq' _ Hr).
      rewrite <- Hq', Hfst, Hj in Hr. destruct Hr as [<-|[]]. reflexivity. }
    split; [exact Hj|]. split; [exact Hin|]. split; [exact Hall|]. split.
    + unfold get_pick_details. now apply in_map, sort_by_In.
    + intros r Hr Hfst. now rewrite (Hall r Hr Hfst).
  - intros r s Hr Hsnd. unfold left_join in Hr.
    apply in_flat_map in Hr as (q & Hq & Hr).
    apply (latest_snapshots_max _ _ Hnd).
    now apply (join_pick_snapshot _ q r).
Qed.

(** Alice's pick of the option on ticker X1, and the database after the
    pick is locked and the market saved twice with the same clock reading,
    at a first and then at a second price. *)
Definition df_trillion : DataFrame :=
  mkdf [u "timestamp"; u "name"; u "pick_1"]
       [ [u "2026-02-27 10:00"; u "Alice"; u "Trillion"] ].

Definition pick_trillion : Pick.row :=
  Pick.mk 1 (u "2026-02-27 10:00") (u "Alice") (u "Trillion") 7 (Some (u "X1"))
          (Some (u "KXTRUMPMENTION-26FEB28")) (u "2026-02-27T12:00:00+00:00").

Definition snapshot_of (i : Z) (price : float) : Snap.row :=
  Snap.mk i (u "X1") (u "KXTRUMPMENTION-26FEB28") (u "Trillion") price
          (u "active") (Some (u "")) (u "2026-02-28T00:00:00+00:00").

Definition db_saved_twice (first second : float) : db :=
  let d := save_picks df_trillion [(u "say", [(u "Trillion", u "X1")])]
             (u "2026-02-27T12:00:00+00:00") init_db in
  let now := u "2026-02-28T00:00:00+00:00" in
  match save_snapshot [market_at first] now d with
  | Some d1 => match save_snapshot [market_at second] now d1 with
               | Some d2 => d2
               | None => d
               end
  | None => d
  end.

Lemma latest_snapshot_is_max_id_witness :
  picks (db_saved_twice 0.40 0.95) = [pick_trillion]
  /\ market_snapshots (db_saved_twice 0.40 0.95) = [snapshot_of 1 0.40; snapshot_of 2 0.95]
  /\ join_pick (latest_snapshots (market_snapshots (db_saved_twice 0.40 0.95)))
               pick_trillion
     = [(pick_trillion, Some (snapshot_of 2 0.95))]
  /\ In (pick_trillion, Some (snapshot_of 2 0.95)) (left_join (db_saved_twice 0.40 0.95))
  /\ map Detail.yes_price (get_pick_details (db_saved_twice 0.40 0.95)) = [0.95%float]
  /\ fst (calculate_scores (u "2026-02-28T00:01:00+00:00") (db_saved_twice 1 0.95))
     = [Agg.mk (u "Alice") 0 0 1]
  /\ fst (calculate_scores (u "2026-02-28T00:01:00+00:00") (db_saved_twice 0.40 1))
     = [Agg.mk (u "Alice") 7 1 1].
Proof.
  assert (Hnd : NoDup (map Snap.id (market_snapshots (db_saved_twice 0.40 0.95)))).
  { vm_compute. repeat constructor; simpl; intuition discriminate. }
  destruct (proj1 (latest_snapshot_is_max_id (db_saved_twice 0.40 0.95) Hnd) (u "X1"))
    as (s & Hf & _ & _ & _ & Hp); [vm_compute; now left|].
  assert (Hs : s = snapshot_of 2 0.95).
  { vm_compute in Hf. injection Hf as <-. reflexivity. }
  subst s.
  destruct (Hp pick_trillion) as (Hj & Hin & _); try reflexivity.
  - vm_compute. now left.
  - vm_compute. discriminate.
  - repeat split; try assumption; vm_compute; reflexivity.
Defined.
